(** * go-http-client: the rate limiter and the authenticators, verified

    A shallow embedding of the two packages of the repository that carry
    state and invariants:

    - package [ratelimit] (type [RateLimiter], a wrapper around
      [golang.org/x/time/rate.Limiter]);
    - package [auth] ([BasicAuth], [BearerAuth], [CustomAuth],
      [OAuth2ClientCredentials] and the constructor [NewAuthenticator]);

    and of the parts of package [main] and package [response] that
    compute without reading files or the network: the repeated options,
    [addHeaders], [addQueryParams] and the two formatters.

    Go values are modelled as the code has them: [string] is a sequence
    of bytes, [int], [int64] and [time.Duration] are 64-bit integers
    (a [Z] with the wrap-around written out where the code multiplies),
    [float64] is IEEE 754 binary64 (the Standard Library's [SpecFloat] at
    precision 53), [http.Header] and [map[string]any] are finite maps,
    pointers that may be [nil] are options.  Methods that mutate their
    receiver return the new receiver; [time.Now()] and the HTTP transport
    are the only effects and are read from an explicit [World]. *)

From Stdlib Require Import ZArith String Ascii List Bool Lia.
From Stdlib Require Import DecimalString DecimalPos Floats.SpecFloat.
From stdpp Require Import gmap strings sorting.

Local Open Scope string_scope.
Local Open Scope Z_scope.

(** ** Go preliminaries *)

(** A Go [error]: [None] is [nil], [Some msg] an error whose [Error()]
    text is [msg]. *)
Definition error := option string.


Definition byte_of (c : ascii) : Z := Z.of_N (N_of_ascii c).

(** [int] and [int64] on a 64-bit platform. *)
Definition MaxInt64 : Z := 2 ^ 63 - 1.
Definition MinInt64 : Z := - 2 ^ 63.

(** Two's complement wrap-around of a 64-bit signed result. *)
Definition wrap64 (z : Z) : Z := (z + 2 ^ 63) mod 2 ^ 64 - 2 ^ 63.

(** Wrap-around of a 64-bit unsigned result. *)
Definition wrapU64 (z : Z) : Z := z mod 2 ^ 64.

Definition in_int64 (z : Z) : bool := (MinInt64 <=? z) && (z <=? MaxInt64).

(** ** float64 *)

Module float64.

Definition prec : Z := 53.
Definition emax : Z := 1024.

Definition add := SFadd prec emax.
Definition sub := SFsub prec emax.
Definition mul := SFmul prec emax.
Definition div := SFdiv prec emax.
Definition ltb := SFltb.
Definition leb := SFleb.
Definition eqb := SFeqb.
Definition opp := SFopp.

(** [float64(z)] for an integer [z]: the nearest binary64. *)
Definition of_int (z : Z) : spec_float := binary_normalize prec emax z 0 false.

(** [math.MaxFloat64]. *)
Definition MaxFloat64 : spec_float := SFmax_float prec emax.

(** The integer part of a finite float, rounding toward zero. *)
Definition trunc (x : spec_float) : option Z :=
  match x with
  | S754_zero _ => Some 0
  | S754_finite s m e =>
      let v := if 0 <=? e then Z.pos m * 2 ^ e else Z.pos m / 2 ^ (- e) in
      Some (if s then - v else v)
  | _ => None
  end.

(** [int64(x)]: truncation toward zero.  Go leaves the result to the
    implementation when the value does not fit; amd64 yields the minimal
    integer, which is what is modelled. *)
Definition to_int64 (x : spec_float) : Z :=
  match trunc x with
  | Some z => if in_int64 z then z else MinInt64
  | None => MinInt64
  end.

(** [uint64(x)] for the non-negative values [time.ParseDuration] converts
    (at most 3.6e12 there). *)
Definition to_uint64 (x : spec_float) : Z :=
  match trunc x with
  | Some z => wrapU64 z
  | None => 2 ^ 63
  end.

(** Zero, a positive number or positive infinity. *)
Definition nonneg (x : spec_float) : bool :=
  match x with
  | S754_zero false | S754_finite false _ _ | S754_infinity false => true
  | _ => false
  end.

End float64.

(** The binary64 of a positive integer below [2^53]: the integer itself,
    written with 53 digits. *)
Definition fl (n : Z) : spec_float :=
  S754_finite false (Z.to_pos (n * 2 ^ (53 - (Z.log2 n + 1)))) (Z.log2 n + 1 - 53).

(** ** package strings *)

Module strings.

Fixpoint HasPrefix (s prefix : string) : bool :=
  match prefix, s with
  | EmptyString, _ => true
  | String p prefix', String c s' => Ascii.eqb p c && HasPrefix s' prefix'
  | String _ _, EmptyString => false
  end.

(** [split_from sep skip cur s]: [cur] is the piece being read, [skip]
    the number of bytes of a separator still to be dropped. *)
Fixpoint split_from (sep : string) (skip : nat) (cur : string) (s : string)
  : list string :=
  match s with
  | EmptyString => [cur]
  | String c s' =>
      match skip with
      | S k => split_from sep k cur s'
      | O =>
          if HasPrefix s sep
          then cur :: split_from sep (Nat.pred (String.length sep)) "" s'
          else split_from sep O (cur +:+ String c "") s'
      end
  end.

(** [strings.Split(s, sep)] for a separator of at least one byte: the
    pieces between the non-overlapping occurrences of [sep], read from
    the left.  (With an empty separator Go splits after each UTF-8
    sequence; here it splits after each byte.) *)
Definition Split (s sep : string) : list string :=
  match sep with
  | EmptyString => map (fun c => String c "") (list_ascii_of_string s)
  | _ => split_from sep O "" s
  end.

(** [strings.Join(elems, sep)]. *)
Fixpoint Join (elems : list string) (sep : string) : string :=
  match elems with
  | [] => ""
  | [e] => e
  | e :: rest => e +:+ sep +:+ Join rest sep
  end.

End strings.

(** ** package strconv *)

Module strconv.

Definition is_digit (c : ascii) : bool :=
  (48 <=? byte_of c) && (byte_of c <=? 57).

(** The digit loop of [Atoi] and [ParseUint]: [n = n*10 + int(ch - '0')],
    failing at the first byte that is no decimal digit. *)
Fixpoint digits (n : Z) (s : string) : option Z :=
  match s with
  | EmptyString => Some n
  | String ch s' =>
      if is_digit ch then digits (n * 10 + (byte_of ch - 48)) s' else None
  end.

(** [strconv.Atoi]: an optional sign, then one or more decimal digits,
    and a value that fits [int].  The caller only tests [err != nil], so
    the syntax and the range error are both [None]. *)
Definition Atoi (s : string) : option Z :=
  match s with
  | EmptyString => None
  | String c rest =>
      let signed := Ascii.eqb c "-"%char || Ascii.eqb c "+"%char in
      let body := if signed then rest else s in
      match body with
      | EmptyString => None
      | _ =>
          match digits 0 body with
          | None => None
          | Some n =>
              let v := if Ascii.eqb c "-"%char then - n else n in
              if in_int64 v then Some v else None
          end
      end
  end.

(** [strconv.Itoa] on a positive [int]: its decimal digits. *)
Definition Itoa (z : Z) : string :=
  match z with
  | Z.pos p => NilEmpty.string_of_uint (Pos.to_uint p)
  | Z0 => "0"
  | Z.neg p => String "-"%char (NilEmpty.string_of_uint (Pos.to_uint p))
  end.

End strconv.


(** ** package time *)

Module time.

(** A [Duration] is an [int64] count of nanoseconds. *)
Definition Duration := Z.

Definition Nanosecond : Duration := 1.
Definition Microsecond : Duration := 1000 * Nanosecond.
Definition Millisecond : Duration := 1000 * Microsecond.
Definition Second : Duration := 1000 * Millisecond.
Definition Minute : Duration := 60 * Second.
Definition Hour : Duration := 60 * Minute.

Definition minDuration : Duration := MinInt64.
Definition maxDuration : Duration := MaxInt64.

(** The product of two durations, as [int64] arithmetic computes it. *)
Definition mul (a b : Duration) : Duration := wrap64 (a * b).

(** [d.Seconds()]: [float64(d / Second) + float64(d % Second) / 1e9]. *)
Definition Seconds (d : Duration) : spec_float :=
  let sec := Z.quot d Second in
  let nsec := Z.rem d Second in
  float64.add (float64.of_int sec)
              (float64.div (float64.of_int nsec) (float64.of_int 1000000000)).

(** An instant, in nanoseconds since the zero [Time]; the zero value of
    the type is [0]. *)
Definition Time := Z.

Definition Before (t u : Time) : bool := t <? u.

Definition Add (t : Time) (d : Duration) : Time := t + d.

(** [t.Sub(u)] saturates at the ends of the range of [Duration]. *)
Definition Sub (t u : Time) : Duration :=
  Z.max minDuration (Z.min maxDuration (t - u)).

(** *** ParseDuration *)

(** [leadingInt]: the leading decimal digits of [s] as a [uint64], and
    the rest of [s]; [None] when the value exceeds [1<<63]. *)
Fixpoint leadingInt (x : Z) (s : string) : option (Z * string) :=
  match s with
  | EmptyString => Some (x, s)
  | String c s' =>
      if strconv.is_digit c then
        if 2 ^ 63 / 10 <? x then None
        else
          let x' := wrapU64 (x * 10 + byte_of c - 48) in
          if 2 ^ 63 <? x' then None else leadingInt x' s'
      else Some (x, s)
  end.

(** [leadingFraction]: the digits after the decimal point as an integer
    [x] and the power of ten [scale] they are to be divided by; digits
    that no longer fit are read and dropped. *)
Fixpoint leadingFraction (x : Z) (scale : spec_float) (overflow : bool)
         (s : string) : Z * spec_float * string :=
  match s with
  | EmptyString => (x, scale, s)
  | String c s' =>
      if strconv.is_digit c then
        if overflow then leadingFraction x scale true s'
        else if (2 ^ 63 - 1) / 10 <? x then leadingFraction x scale true s'
        else
          let y := wrapU64 (x * 10 + byte_of c - 48) in
          if 2 ^ 63 <? y then leadingFraction x scale true s'
          else leadingFraction y (float64.mul scale (float64.of_int 10)) false s'
      else (x, scale, s)
  end.

Definition is_digit_or_dot (c : ascii) : bool :=
  Ascii.eqb c "."%char || strconv.is_digit c.

(** The unit: the bytes up to the next digit or point. *)
Fixpoint unit_span (s : string) : string * string :=
  match s with
  | EmptyString => ("", "")
  | String c s' =>
      if is_digit_or_dot c then ("", s)
      else let (u, r) := unit_span s' in (String c u, r)
  end.

(** The two spellings of the micro sign, U+00B5 and U+03BC, in UTF-8. *)
Definition micro_B5 : string :=
  String (ascii_of_N 194) (String (ascii_of_N 181) "s").
Definition micro_3BC : string :=
  String (ascii_of_N 206) (String (ascii_of_N 188) "s").

Definition unitMap (u : string) : option Z :=
  if String.eqb u "ns" then Some Nanosecond
  else if String.eqb u "us" then Some Microsecond
  else if String.eqb u micro_B5 then Some Microsecond
  else if String.eqb u micro_3BC then Some Microsecond
  else if String.eqb u "ms" then Some Millisecond
  else if String.eqb u "s" then Some Second
  else if String.eqb u "m" then Some Minute
  else if String.eqb u "h" then Some Hour
  else None.

Definition strlen (s : string) : Z := Z.of_nat (String.length s).

(** The loop [for s != ""] of [ParseDuration]; [d] is the sum so far, a
    [uint64].  Every turn reads at least one byte, so [fuel] equal to the
    length of [s] is never used up. *)
Fixpoint parse_loop (fuel : nat) (d : Z) (s : string) : option Z :=
  match s, fuel with
  | EmptyString, _ => Some d
  | String _ _, O => None
  | String c0 _, S fuel' =>
      if negb (is_digit_or_dot c0) then None
      else
        match leadingInt 0 s with
        | None => None
        | Some (v, s1) =>
            let pre := negb (strlen s =? strlen s1) in
            let '(f, scale, s2, post) :=
              match s1 with
              | String "."%char s1' =>
                  let '(f, scale, s2) :=
                    leadingFraction 0 (float64.of_int 1) false s1' in
                  (f, scale, s2, negb (strlen s1' =? strlen s2))
              | _ => (0, float64.of_int 1, s1, false)
              end in
            if negb pre && negb post then None
            else
              let (u, s3) := unit_span s2 in
              if String.eqb u "" then None
              else
                match unitMap u with
                | None => None
                | Some unit =>
                    if 2 ^ 63 / unit <? v then None
                    else
                      let v1 := wrapU64 (v * unit) in
                      let v2 :=
                        if 0 <? f then
                          wrapU64 (v1 + float64.to_uint64
                                     (float64.mul (float64.of_int f)
                                        (float64.div (float64.of_int unit) scale)))
                        else v1 in
                      if (0 <? f) && (2 ^ 63 <? v2) then None
                      else
                        let d' := wrapU64 (d + v2) in
                        if 2 ^ 63 <? d' then None else parse_loop fuel' d' s3
                end
        end
  end.

(** [time.ParseDuration]: an optional sign, then one or more groups of
    a decimal number and a unit.  The caller only tests [err != nil]. *)
Definition ParseDuration (s : string) : option Duration :=
  let '(neg, s1) :=
    match s with
    | String c r =>
        if Ascii.eqb c "-"%char || Ascii.eqb c "+"%char
        then (Ascii.eqb c "-"%char, r) else (false, s)
    | EmptyString => (false, s)
    end in
  if String.eqb s1 "0" then Some 0
  else if String.eqb s1 "" then None
  else
    match parse_loop (String.length s1) 0 s1 with
    | None => None
    | Some d =>
        if neg then Some (wrap64 (- wrap64 d))
        else if MaxInt64 <? d then None
        else Some d
    end.

End time.


(** ** package golang.org/x/time/rate

    The token bucket the repository's [RateLimiter] wraps.  The model
    follows the library's [Limiter]: [NewLimiter] starts with a full
    bucket, [advance] refills it lazily from the time elapsed since [last],
    [reserveN] withdraws.  ([Wait], which blocks on a timer, is outside
    this model.) *)

Module rate.

(** [type Limit float64]: events per second. *)
Definition Limit := spec_float.

(** [const Inf = Limit(math.MaxFloat64)]. *)
Definition Inf : Limit := float64.MaxFloat64.

(** [const InfDuration = time.Duration(math.MaxInt64)]. *)
Definition InfDuration : time.Duration := MaxInt64.

Definition zero : spec_float := S754_zero false.

Record Limiter := mkLimiter {
  limit : Limit;
  burst : Z;
  tokens : spec_float;
  last : time.Time;       (* when [tokens] was last updated *)
  lastEvent : time.Time   (* the latest rate-limited event *)
}.

Definition NewLimiter (r : Limit) (b : Z) : Limiter :=
  {| limit := r; burst := b; tokens := float64.of_int b;
     last := 0; lastEvent := 0 |}.

(** How long it takes to accumulate [tokens] at [limit] per second,
    truncated to whole nanoseconds. *)
Definition durationFromTokens (limit : Limit) (tokens : spec_float)
  : time.Duration :=
  if float64.leb limit zero then InfDuration
  else
    let duration :=
      float64.mul (float64.div tokens limit) (float64.of_int time.Second) in
    if float64.ltb (float64.of_int MaxInt64) duration then InfDuration
    else float64.to_int64 duration.

(** How many tokens accumulate during [d] at [limit] per second. *)
Definition tokensFromDuration (limit : Limit) (d : time.Duration)
  : spec_float :=
  if float64.leb limit zero then zero
  else float64.mul (time.Seconds d) limit.

(** The number of tokens at [t]; the limiter is not changed. *)
Definition advance (lim : Limiter) (t : time.Time) : spec_float :=
  let last := if time.Before t (last lim) then t else last lim in
  let elapsed := time.Sub t last in
  let delta := tokensFromDuration (limit lim) elapsed in
  let tokens := float64.add (tokens lim) delta in
  let burst := float64.of_int (burst lim) in
  if float64.ltb burst tokens then burst else tokens.

Record Reservation := mkReservation {
  ok : bool;
  r_tokens : Z;
  timeToAct : time.Time
}.

(** [reserveN]: withdraw [n] tokens at [t] when the wait this would need
    is at most [maxFutureReserve]. *)
Definition reserveN (lim : Limiter) (t : time.Time) (n : Z)
           (maxFutureReserve : time.Duration) : Reservation * Limiter :=
  if float64.eqb (limit lim) Inf then
    ({| ok := true; r_tokens := n; timeToAct := t |}, lim)
  else
    let tokens := float64.sub (advance lim t) (float64.of_int n) in
    let waitDuration :=
      if float64.ltb tokens zero
      then durationFromTokens (limit lim) (float64.opp tokens)
      else 0 in
    let ok := (n <=? burst lim) && (waitDuration <=? maxFutureReserve) in
    if ok then
      let act := time.Add t waitDuration in
      ({| ok := true; r_tokens := n; timeToAct := act |},
       {| limit := limit lim; burst := burst lim; tokens := tokens;
          last := t; lastEvent := act |})
    else
      ({| ok := false; r_tokens := 0; timeToAct := 0 |}, lim).

(** [AllowN(t, n)]: may [n] events happen at [t]? *)
Definition AllowN (lim : Limiter) (t : time.Time) (n : Z) : bool * Limiter :=
  let (r, lim') := reserveN lim t n 0 in (ok r, lim').

Definition SetLimitAt (lim : Limiter) (t : time.Time) (newLimit : Limit)
  : Limiter :=
  {| limit := newLimit; burst := burst lim; tokens := advance lim t;
     last := t; lastEvent := lastEvent lim |}.

Definition SetBurstAt (lim : Limiter) (t : time.Time) (newBurst : Z)
  : Limiter :=
  {| limit := limit lim; burst := newBurst; tokens := advance lim t;
     last := t; lastEvent := lastEvent lim |}.

Definition TokensAt (lim : Limiter) (t : time.Time) : spec_float :=
  advance lim t.

End rate.

(** ** package encoding/base64 *)

Module base64.

Definition encodeStd : string :=
  "ABCDEFGHIJKLMNOPQRSTUVWXYZabcdefghijklmnopqrstuvwxyz0123456789+/".

Definition enc (v : Z) : ascii :=
  match String.get (Z.to_nat (Z.land v 63)) encodeStd with
  | Some c => c
  | None => "="%char
  end.

(** [StdEncoding.Encode]: three source bytes become four characters; a
    last block of one or two bytes is padded with ['=']. *)
Fixpoint Encode (src : list ascii) : string :=
  match src with
  | [] => ""
  | [a] =>
      let val := Z.shiftl (byte_of a) 16 in
      String (enc (Z.shiftr val 18)) (String (enc (Z.shiftr val 12)) "==")
  | [a; b] =>
      let val := Z.lor (Z.shiftl (byte_of a) 16) (Z.shiftl (byte_of b) 8) in
      String (enc (Z.shiftr val 18))
        (String (enc (Z.shiftr val 12)) (String (enc (Z.shiftr val 6)) "="))
  | a :: b :: c :: rest =>
      let val :=
        Z.lor (Z.lor (Z.shiftl (byte_of a) 16) (Z.shiftl (byte_of b) 8))
              (byte_of c) in
      String (enc (Z.shiftr val 18))
        (String (enc (Z.shiftr val 12))
           (String (enc (Z.shiftr val 6)) (String (enc val) (Encode rest))))
  end.

Definition EncodeToString (src : string) : string :=
  Encode (list_ascii_of_string src).

End base64.

(** ** package net/textproto *)

Module textproto.

Definition is_lower (c : ascii) : bool := (97 <=? byte_of c) && (byte_of c <=? 122).
Definition is_upper (c : ascii) : bool := (65 <=? byte_of c) && (byte_of c <=? 90).

(** The bytes of an HTTP token. *)
Definition validHeaderFieldByte (c : ascii) : bool :=
  strconv.is_digit c || is_lower c || is_upper c
  || existsb (Ascii.eqb c) (list_ascii_of_string "!#$%&'*+-.^_`|~").

Definition toLower : Z := 32.

Definition shift_case (c : ascii) (by_ : Z) : ascii :=
  ascii_of_N (Z.to_N (byte_of c + by_)).

(** First letter and every letter after a dash in upper case, the other
    letters in lower case. *)
Fixpoint canonicalize (upper : bool) (a : string) : string :=
  match a with
  | EmptyString => ""
  | String c a' =>
      let c' :=
        if upper && is_lower c then shift_case c (- toLower)
        else if negb upper && is_upper c then shift_case c toLower
        else c in
      String c' (canonicalize (Ascii.eqb c' "-"%char) a')
  end.

(** [CanonicalMIMEHeaderKey]: a key with a byte that is not a token byte
    is returned as it is. *)
Definition CanonicalMIMEHeaderKey (s : string) : string :=
  if forallb validHeaderFieldByte (list_ascii_of_string s)
  then canonicalize true s
  else s.

End textproto.

(** ** package net/url *)

Module url.

Definition hexdigit (v : Z) : ascii :=
  match String.get (Z.to_nat v) "0123456789ABCDEF" with
  | Some c => c
  | None => "0"%char
  end.

Definition unreserved (c : ascii) : bool :=
  strconv.is_digit c || textproto.is_lower c || textproto.is_upper c
  || existsb (Ascii.eqb c) (list_ascii_of_string "-_.~").

(** [url.QueryEscape]. *)
Fixpoint QueryEscape (s : string) : string :=
  match s with
  | EmptyString => ""
  | String c s' =>
      if unreserved c then String c (QueryEscape s')
      else if Ascii.eqb c " "%char then String "+"%char (QueryEscape s')
      else String "%"%char
             (String (hexdigit (Z.shiftr (byte_of c) 4))
                (String (hexdigit (Z.land (byte_of c) 15)) (QueryEscape s')))
  end.

(** [url.Values], each key with one value, as [Set] leaves them; the
    pairs are kept in the order of the keys, in which [Encode] writes
    them. *)
Definition Values := list (string * string).

Fixpoint Set_ (v : Values) (key value : string) : Values :=
  match v with
  | [] => [(key, value)]
  | (k, x) :: rest =>
      if String.eqb k key then (key, value) :: rest
      else if String.ltb key k then (key, value) :: (k, x) :: rest
      else (k, x) :: Set_ rest key value
  end.

Fixpoint Encode (v : Values) : string :=
  match v with
  | [] => ""
  | [(k, x)] => QueryEscape k +:+ "=" +:+ QueryEscape x
  | (k, x) :: rest => QueryEscape k +:+ "=" +:+ QueryEscape x +:+ "&" +:+ Encode rest
  end.

End url.

(** ** package net/http *)

Module http.

Definition StatusOK : Z := 200.

(** [http.Header], a [map[string][]string] under canonical keys. *)
Definition Header_Set (h : gmap string (list string)) (key value : string)
  : gmap string (list string) :=
  <[textproto.CanonicalMIMEHeaderKey key := [value]]> h.

Definition Header_Get (h : gmap string (list string)) (key : string) : string :=
  match h !! textproto.CanonicalMIMEHeaderKey key with
  | Some (v :: _) => v
  | _ => ""
  end.

Record Request := mkRequest {
  Method : string;
  URL : string;
  Header : gmap string (list string);
  Body : string
}.

Definition with_Header (r : Request) (h : gmap string (list string)) : Request :=
  {| Method := Method r; URL := URL r; Header := h; Body := Body r |}.

(** [basicAuth(username, password)]. *)
Definition basicAuth (username password : string) : string :=
  base64.EncodeToString (username +:+ ":" +:+ password).

(** [r.SetBasicAuth(username, password)]. *)
Definition SetBasicAuth (r : Request) (username password : string) : Request :=
  with_Header r
    (Header_Set (Header r) "Authorization" ("Basic " +:+ basicAuth username password)).

(** The body of a response as [encoding/json] reads it into the fields
    [access_token], [token_type] and [expires_in]: a field the document
    lacks is left at its zero value, a document that is no JSON object of
    that shape is an error of the decoder. *)
Inductive Document :=
| Malformed (err : string)
| Object (access_token token_type : string) (expires_in : Z).

Record Response := mkResponse {
  StatusCode : Z;
  Status : string;   (* such as "200 OK" *)
  RespBody : Document
}.

End http.


(** ** The world around the program

    [time.Now()] and the HTTP transport are the effects of the code.  The
    world holds what they will answer: the successive readings of the
    clock, and for every request handed to [client.Do], in the order they
    are sent, what comes back. *)

Inductive RoundTrip :=
| TransportError (err : string)
| Responds (resp : http.Response).

Record World := mkWorld {
  clock : nat -> time.Time;
  ticks : nat;                               (* readings taken so far *)
  url_error : string -> option string;       (* [http.NewRequest] on a URL *)
  server : nat -> http.Request -> RoundTrip;
  sent : list http.Request                   (* requests sent so far *)
}.

Definition M (A : Type) : Type := World -> A * World.

Definition ret {A} (a : A) : M A := fun w => (a, w).

Definition bind {A B} (m : M A) (k : A -> M B) : M B :=
  fun w => let (a, w') := m w in k a w'.

Notation "'let*' x ':=' m 'in' k" := (bind m (fun x => k))
  (at level 10, x pattern, m at level 200, k at level 200).

(** [time.Now()]. *)
Definition Now : M time.Time :=
  fun w =>
    (clock w (ticks w),
     {| clock := clock w; ticks := S (ticks w); url_error := url_error w;
        server := server w; sent := sent w |}).

(** [client.Do(req)]. *)
Definition Do (req : http.Request) : M RoundTrip :=
  fun w =>
    (server w (length (sent w)) req,
     {| clock := clock w; ticks := ticks w; url_error := url_error w;
        server := server w; sent := sent w ++ [req] |}).

(** [http.NewRequest(method, url, body)]; the method is always valid
    here, so only the URL can be refused. *)
Definition NewRequest (method url body : string) : M (http.Request + string) :=
  fun w =>
    (match url_error w url with
     | Some err => inr err
     | None => inl {| http.Method := method; http.URL := url;
                      http.Header := ∅; http.Body := body |}
     end, w).

(** ** package ratelimit (src/auth/basic.go, second file) *)

Module ratelimit.

(** [RateLimiter]; the [sync.RWMutex] serialises the methods, each of
    which is modelled as one atomic step. *)
Record RateLimiter := mkRateLimiter {
  limiter : option rate.Limiter;     (* [*rate.Limiter], may be nil *)
  enabled : bool
}.

Record Config := mkConfig {
  Rate : string;
  Enabled : bool
}.

(** [parseDuration] handles duration strings like "s", "30s", "m", "h". *)
Definition parseDuration (durStr : string) : time.Duration + string :=
  if String.eqb durStr "s" then inl time.Second
  else if String.eqb durStr "m" then inl time.Minute
  else if String.eqb durStr "h" then inl time.Hour
  else
    match time.ParseDuration durStr with
    | None =>
        inr "duration must be a valid time duration (e.g., 's', '30s', 'm', 'h') or a number followed by a unit"
    | Some duration =>
        if duration <=? 0 then inr "duration must be positive"
        else inl duration
    end.

(** [parseRate] parses rate strings like "10/s", "100/30s", "50/m",
    "1000/h" into the limit per second and the burst. *)
Definition parseRate (rateStr : string) : (rate.Limit * Z) + string :=
  match strings.Split rateStr "/" with
  | [requestsStr; durationStr] =>
      match strconv.Atoi requestsStr with
      | None => inr "requests must be a positive integer"
      | Some requests =>
          if requests <=? 0 then inr "requests must be a positive integer"
          else
            match parseDuration durationStr with
            | inr err => inr ("invalid duration: " +:+ err)
            | inl duration =>
                let limit :=
                  float64.div (float64.of_int requests) (time.Seconds duration) in
                let burst := requests in
                inl (limit, burst)
            end
      end
  | _ =>
      inr "rate must be in format 'requests/duration' (e.g., '10/s', '100/30s')"
  end.

(** [New] creates a new RateLimiter from a rate string. *)
Definition New (rateStr : string) : RateLimiter + string :=
  if String.eqb rateStr "" then inl {| limiter := None; enabled := false |}
  else
    match parseRate rateStr with
    | inr err => inr ("invalid rate format: " +:+ err)
    | inl (limit, burst) =>
        inl {| limiter := Some (rate.NewLimiter limit burst); enabled := true |}
    end.

(** What a call of [Allow] comes to: it returns an error or [nil], or
    it panics (a method of a nil [*rate.Limiter]). *)
Inductive Outcome :=
| Returns (err : error)
| Panics.

(** [Allow]: [nil] if the request is allowed, an error if rate limited. *)
Definition Allow (rl : RateLimiter) : M (Outcome * RateLimiter) :=
  if negb (enabled rl) then ret (Returns None, rl)
  else
    match limiter rl with
    | None => ret (Panics, rl)
    | Some lim =>
        let* t := Now in
        let (ok, lim') := rate.AllowN lim t 1 in
        if negb ok then
          ret (Returns (Some "rate limit exceeded"),
               {| limiter := Some lim'; enabled := enabled rl |})
        else
          ret (Returns None, {| limiter := Some lim'; enabled := enabled rl |})
    end.

(** [SetRate] updates the rate limit. *)
Definition SetRate (rl : RateLimiter) (rateStr : string)
  : M (error * RateLimiter) :=
  if String.eqb rateStr "" then
    ret (None, {| limiter := limiter rl; enabled := false |})
  else
    match parseRate rateStr with
    | inr err => ret (Some ("invalid rate format: " +:+ err), rl)
    | inl (limit, burst) =>
        match limiter rl with
        | None =>
            ret (None, {| limiter := Some (rate.NewLimiter limit burst);
                          enabled := true |})
        | Some lim =>
            let* t1 := Now in
            let lim1 := rate.SetLimitAt lim t1 limit in
            let* t2 := Now in
            let lim2 := rate.SetBurstAt lim1 t2 burst in
            ret (None, {| limiter := Some lim2; enabled := true |})
        end
    end.

(** [IsEnabled] returns whether rate limiting is enabled. *)
Definition IsEnabled (rl : RateLimiter) : bool := enabled rl.

(** A value of type [any] as [Stats] stores it. *)
Inductive any :=
| Bool (b : bool)
| Float64 (x : spec_float)
| Int (n : Z).

(** [Stats] returns rate limiting statistics. *)
Definition Stats (rl : RateLimiter) : M (gmap string any) :=
  let stats : gmap string any := <["enabled" := Bool (enabled rl)]> ∅ in
  match limiter rl with
  | Some lim =>
      if enabled rl then
        let stats := <["limit" := Float64 (rate.limit lim)]> stats in
        let stats := <["burst" := Int (rate.burst lim)]> stats in
        let* t := Now in
        ret (<["tokens" := Float64 (rate.TokensAt lim t)]> stats)
      else ret stats
  | None => ret stats
  end.

(** [n] calls of [Allow] in a row, with what each came to. *)
Fixpoint AllowTimes (n : nat) (rl : RateLimiter) : M (list Outcome * RateLimiter) :=
  match n with
  | O => ret ([], rl)
  | S n' =>
      let* (o, rl1) := Allow rl in
      let* (os, rl2) := AllowTimes n' rl1 in
      ret (o :: os, rl2)
  end.

End ratelimit.

(** ** package auth (src/auth/basic.go, src/auth/auth.go and the files
    of the bearer, custom-header and OAuth2 authenticators) *)

Module auth.

Definition nonempty (s : string) : bool := negb (String.eqb s "").

(** *** BasicAuth *)

Record BasicAuth := mkBasicAuth {
  username : string;
  password : string
}.

Definition NewBasicAuth (username password : string) : BasicAuth :=
  {| username := username; password := password |}.

Definition BasicAuth_Apply (b : BasicAuth) (req : http.Request)
  : error * http.Request :=
  if nonempty (username b) || nonempty (password b)
  then (None, http.SetBasicAuth req (username b) (password b))
  else (None, req).

Definition EncodeCredentials (b : BasicAuth) : string :=
  let credentials := username b +:+ ":" +:+ password b in
  base64.EncodeToString credentials.

(** *** BearerAuth *)

Record BearerAuth := mkBearerAuth {
  bearer_token : string
}.

Definition NewBearerAuth (token : string) : BearerAuth :=
  {| bearer_token := token |}.

Definition BearerAuth_Apply (b : BearerAuth) (req : http.Request)
  : error * http.Request :=
  if nonempty (bearer_token b)
  then (None, http.with_Header req
                (http.Header_Set (http.Header req) "Authorization"
                   ("Bearer " +:+ bearer_token b)))
  else (None, req).

(** *** CustomAuth *)

Record CustomAuth := mkCustomAuth {
  header : string;
  value : string
}.

Definition NewCustomAuth (header value : string) : CustomAuth :=
  {| header := header; value := value |}.

Definition CustomAuth_Apply (c : CustomAuth) (req : http.Request)
  : error * http.Request :=
  if nonempty (header c) && nonempty (value c)
  then (None, http.with_Header req
                (http.Header_Set (http.Header req) (header c) (value c)))
  else (None, req).

(** *** OAuth2ClientCredentials *)

Record OAuth2ClientCredentials := mkOAuth2 {
  clientID : string;
  clientSecret : string;
  tokenURL : string;
  scopes : list string;
  token : string;
  expiry : time.Time
}.

Definition set_token (o : OAuth2ClientCredentials) (tok : string)
           (exp : time.Time) : OAuth2ClientCredentials :=
  {| clientID := clientID o; clientSecret := clientSecret o;
     tokenURL := tokenURL o; scopes := scopes o;
     token := tok; expiry := exp |}.

Definition NewOAuth2ClientCredentials
           (clientID clientSecret tokenURL : string) (scopes : list string)
  : option OAuth2ClientCredentials * error :=
  if String.eqb clientID "" || String.eqb clientSecret ""
     || String.eqb tokenURL ""
  then (None, Some "clientID, clientSecret, and tokenURL are required")
  else (Some {| clientID := clientID; clientSecret := clientSecret;
                tokenURL := tokenURL; scopes := scopes;
                token := ""; expiry := 0 |}, None).

(** The request [fetchToken] sends to the token endpoint. *)
Definition token_request_body (o : OAuth2ClientCredentials) : string :=
  let data := url.Set_ [] "grant_type" "client_credentials" in
  let data := url.Set_ data "client_id" (clientID o) in
  let data := url.Set_ data "client_secret" (clientSecret o) in
  let data :=
    if (0 <? Z.of_nat (length (scopes o)))
    then url.Set_ data "scope" (strings.Join (scopes o) " ")
    else data in
  url.Encode data.

(** [fetchToken]: the token and the error it returns, and the receiver
    after the call. *)
Definition fetchToken (o : OAuth2ClientCredentials)
  : M (string * error * OAuth2ClientCredentials) :=
  let* r := NewRequest "POST" (tokenURL o) (token_request_body o) in
  match r with
  | inr err => ret ("", Some ("failed to create token request: " +:+ err), o)
  | inl req =>
      let h := http.Header_Set (http.Header req)
                 "Content-Type" "application/x-www-form-urlencoded" in
      let h := http.Header_Set h "Accept" "application/json" in
      let req := http.with_Header req h in
      let* rt := Do req in
      match rt with
      | TransportError err =>
          ret ("", Some ("token request failed: " +:+ err), o)
      | Responds resp =>
          if negb (http.StatusCode resp =? http.StatusOK) then
            ret ("", Some ("token request failed with status: "
                           +:+ http.Status resp), o)
          else
            match http.RespBody resp with
            | http.Malformed err =>
                ret ("", Some ("failed to decode token response: " +:+ err), o)
            | http.Object AccessToken TokenType ExpiresIn =>
                if String.eqb AccessToken "" then
                  ret ("", Some "no access token in response", o)
                else if 0 <? ExpiresIn then
                  let* now := Now in
                  let exp :=
                    time.Add now
                      (time.mul (wrap64 (ExpiresIn - 60)) time.Second) in
                  ret (AccessToken, None, set_token o AccessToken exp)
                else
                  let* now := Now in
                  let exp := time.Add now (time.mul 55 time.Minute) in
                  ret (AccessToken, None, set_token o AccessToken exp)
            end
      end
  end.

(** The test [o.token != "" && time.Now().Before(o.expiry)]; the clock
    is read only when a token is cached. *)
Definition cached_valid (o : OAuth2ClientCredentials) : M bool :=
  if nonempty (token o) then
    let* now := Now in ret (time.Before now (expiry o))
  else ret false.

(** [getValidToken], run by one caller without interference: the check
    under the read lock, the check again under the write lock, then the
    fetch. *)
Definition getValidToken (o : OAuth2ClientCredentials)
  : M (string * error * OAuth2ClientCredentials) :=
  let* fast := cached_valid o in
  if fast then ret (token o, None, o)
  else
    let* again := cached_valid o in
    if again then ret (token o, None, o)
    else fetchToken o.

Definition OAuth2ClientCredentials_Apply
           (o : OAuth2ClientCredentials) (req : http.Request)
  : M (error * OAuth2ClientCredentials * http.Request) :=
  let* (tok, err, o') := getValidToken o in
  match err with
  | Some e => ret (Some ("failed to get OAuth2 token: " +:+ e), o', req)
  | None =>
      ret (None, o',
           http.with_Header req
             (http.Header_Set (http.Header req) "Authorization"
                ("Bearer " +:+ tok)))
  end.

(** *** The interface and its constructor *)

Record Config := mkConfig {
  Username : string;
  Password : string;
  BearerToken : string;
  ClientID : string;
  ClientSecret : string;
  TokenURL : string;
  Scopes : list string;
  CustomHeader : string;
  CustomValue : string
}.

(** A non-nil value of the interface [Authenticator]: one of the four
    types that implement [Apply]. *)
Inductive Authenticator :=
| Basic (b : BasicAuth)
| Bearer (b : BearerAuth)
| OAuth2 (o : OAuth2ClientCredentials)
| Custom (c : CustomAuth).

Definition Apply (a : Authenticator) (req : http.Request)
  : M (error * Authenticator * http.Request) :=
  match a with
  | Basic b => let (err, req') := BasicAuth_Apply b req in ret (err, a, req')
  | Bearer b => let (err, req') := BearerAuth_Apply b req in ret (err, a, req')
  | Custom c => let (err, req') := CustomAuth_Apply c req in ret (err, a, req')
  | OAuth2 o =>
      let* (err, o', req') := OAuth2ClientCredentials_Apply o req in
      ret (err, OAuth2 o', req')
  end.

(** [NewAuthenticator]: the authenticator ([None] is the nil interface)
    and the error. *)
Definition NewAuthenticator (config : Config) : option Authenticator * error :=
  if nonempty (Username config) || nonempty (Password config) then
    (Some (Basic (NewBasicAuth (Username config) (Password config))), None)
  else if nonempty (BearerToken config) then
    (Some (Bearer (NewBearerAuth (BearerToken config))), None)
  else if nonempty (ClientID config) && nonempty (ClientSecret config)
          && nonempty (TokenURL config) then
    match NewOAuth2ClientCredentials (ClientID config) (ClientSecret config)
            (TokenURL config) (Scopes config) with
    | (Some o, err) => (Some (OAuth2 o), err)
    | (None, err) => (None, err)
    end
  else if nonempty (CustomHeader config) && nonempty (CustomValue config) then
    (Some (Custom (NewCustomAuth (CustomHeader config) (CustomValue config))), None)
  else (None, None).

End auth.

(** An enabled [RateLimiter] around a [rate.Limiter]. *)
Definition on (lim : rate.Limiter) : ratelimit.RateLimiter :=
  {| ratelimit.limiter := Some lim; ratelimit.enabled := true |}.

(** * Specification-level definitions *)

Module Spec.

(** The four variants of the authenticator, as the specification names
    them. *)
Inductive Variant := BasicAuth | BearerAuth | OAuth2ClientCredentials | CustomHeaderAuth.

Definition variant_of (a : auth.Authenticator) : Variant :=
  match a with
  | auth.Basic _ => BasicAuth
  | auth.Bearer _ => BearerAuth
  | auth.OAuth2 _ => OAuth2ClientCredentials
  | auth.Custom _ => CustomHeaderAuth
  end.

Definition set_ (s : string) : bool := negb (String.eqb s "").

(** "Basic (if username or password set) > Bearer (if token set) >
    OAuth2 (if clientID, clientSecret, tokenURL all set) > CustomHeader
    (if header and value set) > none." *)
Definition precedence (c : auth.Config) : option Variant :=
  if set_ (auth.Username c) || set_ (auth.Password c) then Some BasicAuth
  else if set_ (auth.BearerToken c) then Some BearerAuth
  else if set_ (auth.ClientID c) && set_ (auth.ClientSecret c)
          && set_ (auth.TokenURL c) then Some OAuth2ClientCredentials
  else if set_ (auth.CustomHeader c) && set_ (auth.CustomValue c)
  then Some CustomHeaderAuth
  else None.

(** The request [fetchToken] hands to the transport. *)
Definition token_request (o : auth.OAuth2ClientCredentials) : http.Request :=
  {| http.Method := "POST"; http.URL := auth.tokenURL o;
     http.Header :=
       <["Accept" := ["application/json"]]>
         (<["Content-Type" := ["application/x-www-form-urlencoded"]]> ∅);
     http.Body := auth.token_request_body o |}.

(** "A non-success status or a response body missing a non-empty
    access-token field"; a transport error and a body that does not
    decode fail the fetch as well. *)
Definition fetch_fails (rt : RoundTrip) : bool :=
  match rt with
  | TransportError _ => true
  | Responds resp =>
      negb (http.StatusCode resp =? http.StatusOK)
      || match http.RespBody resp with
         | http.Malformed _ => true
         | http.Object access_token _ _ => String.eqb access_token ""
         end
  end.

(** No token is cached, or the cached one has expired, at every reading
    of the clock still to come. *)
Definition no_valid_token (o : auth.OAuth2ClientCredentials) (w : World) : Prop :=
  auth.token o = "" \/ forall n, (ticks w <= n)%nat -> auth.expiry o <= clock w n.

(** "If the response declares an [expires_in] (seconds), use
    [now + (expires_in - 60)] seconds; if the server omits [expires_in]
    or it is non-positive, default to [now + 55 minutes]." *)
Definition expiry_after (now : time.Time) (expires_in : Z) : time.Time :=
  if 0 <? expires_in then now + (expires_in - 60) * time.Second
  else now + 55 * time.Minute.

(** A clock that never runs backwards. *)
Definition monotone (clk : nat -> time.Time) : Prop :=
  forall i j, (i <= j)%nat -> clk i <= clk j.

(** A successful answer of the token endpoint. *)
Definition token_response (tok tt : string) (expires_in : Z) : RoundTrip :=
  Responds {| http.StatusCode := 200; http.Status := "200 OK";
              http.RespBody := http.Object tok tt expires_in |}.

(** A string with the byte ['/'] in it. *)
Definition contains_slash (s : string) : bool :=
  existsb (Ascii.eqb "/"%char) (list_ascii_of_string s).

Definition is_error {A : Type} (r : A + string) : bool :=
  match r with inl _ => false | inr _ => true end.

(** The limiter [New] builds for [requests] per [seconds]: the limit is
    the quotient of the two as a [float64], the burst is [requests]. *)
Definition limiter_for (requests seconds : Z) : ratelimit.RateLimiter :=
  {| ratelimit.limiter :=
       Some (rate.NewLimiter
               (float64.div (float64.of_int requests) (float64.of_int seconds))
               requests);
     ratelimit.enabled := true |}.

(** What the methods rely on: an enabled limiter has a [rate.Limiter].
    [New] establishes it and no method breaks it. *)
Definition well_formed (rl : ratelimit.RateLimiter) : Prop :=
  ratelimit.enabled rl = true -> ratelimit.limiter rl <> None.

(** "With no elapsed time": every reading of the clock is [t]. *)
Definition no_time_passes (w : World) (t : time.Time) : Prop :=
  forall i, clock w i = t.

(** A bucket for [N] per second that holds [j] whole tokens at [t]: it
    is full, or it was last updated at [t]. *)
Definition bucket (N j : Z) (t : time.Time) (lim : rate.Limiter) : Prop :=
  rate.limit lim = fl N /\ rate.burst lim = N
  /\ rate.tokens lim = float64.of_int j
  /\ (j = N \/ rate.last lim = t).

(** The duration [fetchToken] adds to the reading of the clock. *)
Definition lifetime (ExpiresIn : Z) : time.Duration :=
  if 0 <? ExpiresIn then time.mul (wrap64 (ExpiresIn - 60)) time.Second
  else time.mul 55 time.Minute.

End Spec.

(** * Concurrent callers of [getValidToken]

    Several goroutines call [getValidToken] on one authenticator.  Each
    runs the code of the method; the steps of different callers
    interleave in any order the [sync.RWMutex] allows.  A step is what a
    caller does between two operations on the mutex, or between sending
    the token request and receiving the answer; the clock may advance
    between any two steps. *)

Module Interleaving.

(** Where a caller is in [getValidToken]. *)
Inductive pc :=
| Idle                 (* has not yet called [RLock] *)
| Reading              (* holds the read lock *)
| Waiting              (* has released the read lock, will call [Lock] *)
| Writing              (* holds the write lock, before the second check *)
| Fetching (n : nat)   (* holds the write lock; request number [n] is in flight *)
| Done (tok : string) (err : error).

Record state := mkState {
  auth_ : auth.OAuth2ClientCredentials;
  readers : nat;             (* callers holding the read lock *)
  writer : bool;             (* the write lock is held *)
  now : time.Time;
  issued : nat;              (* requests sent to the token endpoint so far *)
  threads : list pc
}.

(** What does not change during a run: the answers of the endpoint, by
    request number, and what [http.NewRequest] says of the token URL. *)
Record env := mkEnv {
  endpoint : nat -> RoundTrip;
  new_request_error : option string
}.

Inductive label :=
| Act (i : nat)              (* caller [i] takes its next step *)
| Tick (t : time.Time).      (* the clock advances to [t] *)

(** [o.token != "" && time.Now().Before(o.expiry)]. *)
Definition valid (s : state) : bool :=
  auth.nonempty (auth.token (auth_ s)) && time.Before (now s) (auth.expiry (auth_ s)).

(** The second half of [fetchToken]: what it makes of the answer [rt],
    [now] being what [time.Now()] returns when the answer is a token. *)
Definition receive (o : auth.OAuth2ClientCredentials) (rt : RoundTrip)
           (now : time.Time) : string * error * auth.OAuth2ClientCredentials :=
  match rt with
  | TransportError err => ("", Some ("token request failed: " +:+ err), o)
  | Responds resp =>
      if negb (http.StatusCode resp =? http.StatusOK) then
        ("", Some ("token request failed with status: " +:+ http.Status resp), o)
      else
        match http.RespBody resp with
        | http.Malformed err =>
            ("", Some ("failed to decode token response: " +:+ err), o)
        | http.Object AccessToken TokenType ExpiresIn =>
            if String.eqb AccessToken "" then
              ("", Some "no access token in response", o)
            else
              (AccessToken, None,
               auth.set_token o AccessToken (time.Add now (Spec.lifetime ExpiresIn)))
        end
  end.

Definition set_thread (i : nat) (p : pc) (s : state) : list pc :=
  <[i := p]> (threads s).

(** The next step of caller [i]; [None] when the caller is blocked on the
    mutex, has returned, or does not exist. *)
Definition act (e : env) (i : nat) (s : state) : option state :=
  match threads s !! i with
  | None => None
  | Some Idle =>
      (* o.mutex.RLock() *)
      if writer s then None
      else Some {| auth_ := auth_ s; readers := S (readers s); writer := false;
                   now := now s; issued := issued s;
                   threads := set_thread i Reading s |}
  | Some Reading =>
      (* the first check, then o.mutex.RUnlock() *)
      Some {| auth_ := auth_ s; readers := Nat.pred (readers s); writer := writer s;
              now := now s; issued := issued s;
              threads :=
                set_thread i (if valid s then Done (auth.token (auth_ s)) None
                              else Waiting) s |}
  | Some Waiting =>
      (* o.mutex.Lock() *)
      if writer s || negb (Nat.eqb (readers s) 0) then None
      else Some {| auth_ := auth_ s; readers := readers s; writer := true;
                   now := now s; issued := issued s;
                   threads := set_thread i Writing s |}
  | Some Writing =>
      (* the second check; then the cached token, or fetchToken *)
      if valid s then
        Some {| auth_ := auth_ s; readers := readers s; writer := false;
                now := now s; issued := issued s;
                threads := set_thread i (Done (auth.token (auth_ s)) None) s |}
      else
        match new_request_error e with
        | Some err =>
            Some {| auth_ := auth_ s; readers := readers s; writer := false;
                    now := now s; issued := issued s;
                    threads :=
                      set_thread i
                        (Done "" (Some ("failed to create token request: " +:+ err))) s |}
        | None =>
            (* client.Do(req) sends the request *)
            Some {| auth_ := auth_ s; readers := readers s; writer := true;
                    now := now s; issued := S (issued s);
                    threads := set_thread i (Fetching (issued s)) s |}
        end
  | Some (Fetching n) =>
      (* the answer arrives; the deferred o.mutex.Unlock() *)
      let '(tok, err, o') := receive (auth_ s) (endpoint e n) (now s) in
      Some {| auth_ := o'; readers := readers s; writer := false;
              now := now s; issued := issued s;
              threads := set_thread i (Done tok err) s |}
  | Some (Done _ _) => None
  end.

Definition step (e : env) (l : label) (s : state) : option state :=
  match l with
  | Act i => act e i s
  | Tick t =>
      if now s <=? t then
        Some {| auth_ := auth_ s; readers := readers s; writer := writer s;
                now := t; issued := issued s; threads := threads s |}
      else None
  end.

Fixpoint run (e : env) (ls : list label) (s : state) : option state :=
  match ls with
  | [] => Some s
  | l :: ls' =>
      match step e l s with
      | Some s' => run e ls' s'
      | None => None
      end
  end.

(** [n] callers about to call [getValidToken] on [o] at time [t], the
    mutex free, [k] requests sent before. *)
Definition init (o : auth.OAuth2ClientCredentials) (t : time.Time) (k n : nat) : state :=
  {| auth_ := o; readers := 0; writer := false; now := t; issued := k;
     threads := repeat Idle n |}.

Definition is_fetching (p : pc) : bool :=
  match p with Fetching _ => true | _ => false end.

Definition is_reading (p : pc) : bool :=
  match p with Reading => true | _ => false end.

Definition holds_write_lock (p : pc) : bool :=
  match p with Writing | Fetching _ => true | _ => false end.

Definition is_done (p : pc) : bool :=
  match p with Done _ _ => true | _ => false end.

Fixpoint count (f : pc -> bool) (l : list pc) : nat :=
  match l with
  | [] => O
  | p :: l' => ((if f p then 1 else 0) + count f l')%nat
  end.

(** The fetches in flight. *)
Definition in_flight (s : state) : nat := count is_fetching (threads s).

(** The discipline of the mutex: the write lock is held by exactly one
    caller when it is held, and by none otherwise; the read lock is held
    by [readers] callers. *)
Definition mutex_inv (s : state) : Prop :=
  count holds_write_lock (threads s) = (if writer s then 1 else 0)%nat
  /\ count is_reading (threads s) = readers s.

(** Every caller has returned. *)
Definition all_done (s : state) : Prop :=
  Forall (fun p => is_done p = true) (threads s).

(** The three phases of a run in which request number [k0] is answered
    with the token [tok]: before the request, while it is in flight, and
    once the token is cached (with an expiry after [h]). *)
Definition before_fetch (p : pc) : bool :=
  match p with Idle | Reading | Waiting | Writing => true | _ => false end.




(** The clock stays at or below [h] during the run. *)
Definition before (h : time.Time) (ls : list label) : Prop :=
  Forall (fun l => match l with Tick t => t <= h | Act _ => True end) ls.


End Interleaving.

(** * Data for the examples *)

(** The world after a fetch that got an answer: one more request sent,
    one more reading of the clock. *)
Definition world_after_fetch (o : auth.OAuth2ClientCredentials) (w : World) : World :=
  {| clock := clock w; ticks := S (ticks w); url_error := url_error w;
     server := server w; sent := sent w ++ [Spec.token_request o] |}.

(** An authenticator and a world for the examples: nothing cached, the
    clock at [now] throughout, and an endpoint that answers every request
    with the token "abc" and the given [expires_in]. *)
Definition fresh : auth.OAuth2ClientCredentials :=
  {| auth.clientID := "id"; auth.clientSecret := "secret";
     auth.tokenURL := "https://auth.example.com/token"; auth.scopes := ["read"];
     auth.token := ""; auth.expiry := 0 |}.

Definition answering (now : time.Time) (expires_in : Z) : World :=
  {| clock := fun _ => now; ticks := 0; url_error := fun _ => None;
     server := fun _ _ => Spec.token_response "abc" "Bearer" expires_in;
     sent := [] |}.

(** Ten o'clock on 30 October 2026, in nanoseconds since the zero time. *)
Definition a_time : time.Time := 63929469600 * time.Second.

(** An endpoint that answers every request with a status of 500. *)
Definition refusing (now : time.Time) : World :=
  {| clock := fun _ => now; ticks := 0; url_error := fun _ => None;
     server := fun _ _ =>
       Responds {| http.StatusCode := 500;
                   http.Status := "500 Internal Server Error";
                   http.RespBody := http.Malformed "unexpected end of JSON input" |};
     sent := [] |}.

(** An outbound request that already carries a header. *)
Definition a_request : http.Request :=
  {| http.Method := "GET"; http.URL := "https://api.example.com/data";
     http.Header := <["Accept" := ["*/*"]]> ∅; http.Body := "" |}.

(** Two callers and a token endpoint, for the examples of concurrent
    runs.  Both callers find no token, both queue for the write lock; the
    first fetches while the second is blocked; a second passes; the
    answer arrives; then the second caller takes the lock. *)
Definition answers (rt : RoundTrip) : Interleaving.env :=
  {| Interleaving.endpoint := fun _ => rt;
     Interleaving.new_request_error := None |}.

Definition two_callers : Interleaving.state := Interleaving.init fresh a_time 0 2.

Definition until_second_locks : list Interleaving.label :=
  [Interleaving.Act 0; Interleaving.Act 1; Interleaving.Act 0; Interleaving.Act 1;
   Interleaving.Act 0; Interleaving.Act 0;
   Interleaving.Tick (a_time + time.Second);
   Interleaving.Act 0; Interleaving.Act 1].

(** The second caller finds the token cached and returns it. *)
Definition served_schedule : list Interleaving.label :=
  until_second_locks ++ [Interleaving.Act 1].

(** The second caller finds no valid token, fetches and gets its answer. *)
Definition refetch_schedule : list Interleaving.label :=
  until_second_locks ++ [Interleaving.Act 1; Interleaving.Act 1].


Definition or_start (r : option Interleaving.state) : Interleaving.state :=
  match r with Some s => s | None => two_callers end.

(** Where the three runs end. *)
Definition served : Interleaving.state :=
  Eval vm_compute in
    or_start (Interleaving.run (answers (Spec.token_response "abc" "Bearer" 3600))
                served_schedule two_callers).


Definition fetched_twice : Interleaving.state :=
  Eval vm_compute in
    or_start (Interleaving.run (answers (Spec.token_response "abc" "Bearer" 30))
                refetch_schedule two_callers).

(** * Sequences of calls on a rate limiter *)

(** A call of one of the two methods that use or change the bucket. *)
Inductive Call :=
| CallAllow
| CallSetRate (rateStr : string).

(** The calls of [cs] one after the other on [rl], with what each came
    to. *)
Fixpoint calls (cs : list Call) (rl : ratelimit.RateLimiter)
  : M (list ratelimit.Outcome * ratelimit.RateLimiter) :=
  match cs with
  | [] => ret ([], rl)
  | CallAllow :: cs' =>
      let* (o, rl1) := ratelimit.Allow rl in
      let* (os, rl2) := calls cs' rl1 in
      ret (o :: os, rl2)
  | CallSetRate rateStr :: cs' =>
      let* (err, rl1) := ratelimit.SetRate rl rateStr in
      let* (os, rl2) := calls cs' rl1 in
      ret (ratelimit.Returns err :: os, rl2)
  end.

(** * The header an authenticator writes *)

(** The name [Apply] passes to [req.Header.Set]. *)
Definition header_of (a : auth.Authenticator) : string :=
  match a with
  | auth.Custom c => auth.header c
  | _ => "Authorization"
  end.

(** [req] with its header [key] set to [value]. *)
Definition with_header (req : http.Request) (key value : string) : http.Request :=
  http.with_Header req (http.Header_Set (http.Header req) key value).

(** The number of bytes [c] in [s] ([strings.Count] with a separator of
    one byte). *)
Fixpoint count_byte (c : ascii) (s : string) : nat :=
  match s with
  | EmptyString => 0
  | String d s' => (if Ascii.eqb c d then 1 else 0) + count_byte c s'
  end.

(** * More of package strings, as package main and package response use it *)

Module Strings.

(** [strings.Index(s, substr)]: where [substr] first occurs in [s];
    [None] is the [-1] of Go. *)
Fixpoint Index (s substr : string) : option nat :=
  if strings.HasPrefix s substr then Some O
  else
    match s with
    | EmptyString => None
    | String _ s' => option_map S (Index s' substr)
    end.


(** [s[i:]]. *)
Fixpoint from (i : nat) (s : string) : string :=
  match i, s with
  | O, _ => s
  | S i', String _ s' => from i' s'
  | S _, EmptyString => ""
  end.

(** [s[:i]]. *)
Fixpoint upto (i : nat) (s : string) : string :=
  match i, s with
  | O, _ => ""
  | S i', String c s' => String c (upto i' s')
  | S _, EmptyString => ""
  end.

(** [strings.Count(s, substr)] for a [substr] of at least one byte: the
    occurrences that do not overlap, counted from the left.  [fuel]
    bounds the occurrences; the length of [s] is enough. *)
Fixpoint count_from (fuel : nat) (s substr : string) : nat :=
  match fuel with
  | O => O
  | S fuel' =>
      match Index s substr with
      | None => O
      | Some i => S (count_from fuel' (from (i + String.length substr) s) substr)
      end
  end.

Definition Count (s substr : string) : nat :=
  count_from (String.length s) s substr.

(** The loop of [genSplit]: up to [n] times, cut [s] at the first [sep];
    what is left is the last piece. *)
Fixpoint genSplit (n : nat) (s sep : string) : list string :=
  match n with
  | O => [s]
  | S n' =>
      match Index s sep with
      | None => [s]
      | Some m => upto m s :: genSplit n' (from (m + String.length sep) s) sep
      end
  end.

(** [explode(s, n)], by bytes: up to [n - 1] pieces of one byte, then the
    rest.  (Go cuts after each UTF-8 sequence; the program never splits
    at the empty separator.) *)
Fixpoint explode (n : nat) (s : string) : list string :=
  match n, s with
  | O, _ => [s]
  | _, EmptyString => []
  | S _, String c EmptyString => [s]
  | S n', String c s' => String c "" :: explode n' s'
  end.

(** [strings.SplitN(s, sep, n)]: at most [n] pieces, the last one the
    unsplit remainder; all pieces when [n < 0], none when [n = 0]. *)
Definition SplitN (s sep : string) (n : Z) : list string :=
  if n =? 0 then []
  else
    match sep with
    | EmptyString =>
        let l := Z.of_nat (String.length s) in
        let n := if (n <? 0) || (l <? n) then l else n in
        if n =? 0 then [] else explode (Z.to_nat (n - 1)) s
    | _ =>
        let n := if n <? 0 then Z.of_nat (Count s sep) + 1 else n in
        let n := if Z.of_nat (String.length s) + 1 <? n
                 then Z.of_nat (String.length s) + 1 else n in
        genSplit (Z.to_nat (n - 1)) s sep
    end.

(** The table [asciiSpace]: tab, line feed, vertical tab, form feed,
    carriage return and space. *)
Definition asciiSpace (c : ascii) : bool :=
  let b := byte_of c in
  ((9 <=? b) && (b <=? 13)) || (b =? 32).

(** [utf8.RuneSelf]: bytes below it are the characters of ASCII. *)
Definition RuneSelf : Z := 128.

Section TrimSpace.

(** [strings.TrimFunc(s, unicode.IsSpace)] and
    [strings.TrimRightFunc(s, unicode.IsSpace)], to which [TrimSpace]
    hands a string in which it has met a byte outside ASCII. *)
Variable TrimFunc_IsSpace : string -> string.
Variable TrimRightFunc_IsSpace : string -> string.

(** The second loop of [TrimSpace], from the last byte of [s[start:]]
    down; [r] is that string reversed. *)
Fixpoint trim_stop (r : list ascii) : string :=
  match r with
  | [] => ""
  | c :: r' =>
      if RuneSelf <=? byte_of c
      then TrimRightFunc_IsSpace (string_of_list_ascii (rev r))
      else if asciiSpace c then trim_stop r'
      else string_of_list_ascii (rev r)
  end.

(** [strings.TrimSpace(s)]: the first loop finds the first byte that is
    no ASCII space, the second the last one. *)
Fixpoint TrimSpace (s : string) : string :=
  match s with
  | EmptyString => ""
  | String c s' =>
      if RuneSelf <=? byte_of c then TrimFunc_IsSpace s
      else if asciiSpace c then TrimSpace s'
      else trim_stop (rev (list_ascii_of_string s))
  end.

End TrimSpace.

End Strings.

(** * package main (src/main.go) *)

Module main.

(** [HeaderList], [QueryList] and [FormList] are three names of
    [[]string] with the same two methods, [String] and [Set], through
    which package flag collects a repeated option. *)
Definition HeaderList := list string.

Definition HeaderList_String (h : HeaderList) : string := strings.Join h ", ".

Definition HeaderList_Set (h : HeaderList) (value : string) : error * HeaderList :=
  (None, (h ++ [value])%list).

Definition QueryList := list string.

Definition QueryList_String (q : QueryList) : string := strings.Join q ", ".

Definition QueryList_Set (q : QueryList) (value : string) : error * QueryList :=
  (None, (q ++ [value])%list).

Definition FormList := list string.

Definition FormList_String (f : FormList) : string := strings.Join f ", ".

Definition FormList_Set (f : FormList) (value : string) : error * FormList :=
  (None, (f ++ [value])%list).

Section addHeaders.

Variable TrimFunc_IsSpace : string -> string.
Variable TrimRightFunc_IsSpace : string -> string.

Definition TrimSpace : string -> string :=
  Strings.TrimSpace TrimFunc_IsSpace TrimRightFunc_IsSpace.

(** One turn of the loop of [addHeaders]. *)
Definition addHeader (h : gmap string (list string)) (header : string)
  : gmap string (list string) :=
  match Strings.SplitN header ":" 2 with
  | [key; value] => http.Header_Set h (TrimSpace key) (TrimSpace value)
  | _ => h
  end.

(** [addHeaders(req, headers)]. *)
Definition addHeaders (req : http.Request) (headers : list string) : http.Request :=
  http.with_Header req (fold_left addHeader headers (http.Header req)).

End addHeaders.

(** [url.Values], a [map[string][]string]. *)
Definition Values := gmap string (list string).

(** [v.Add(key, value)]: [v[key] = append(v[key], value)]. *)
Definition Values_Add (v : Values) (key value : string) : Values :=
  <[key := (default [] (v !! key) ++ [value])%list]> v.

(** The keys of [v] as [slices.Sort] leaves them: in byte order. *)
Definition sorted_keys (v : Values) : list string :=
  merge_sort String.le (map fst (map_to_list v)).

(** One turn of the inner loop of [Encode]: an ['&'] unless the buffer is
    empty, then the escaped key, ['='] and the escaped value. *)
Definition write_pair (keyEscaped : string) (buf value : string) : string :=
  (if (0 <? Z.of_nat (String.length buf)) then buf +:+ "&" else buf)
  +:+ keyEscaped +:+ "=" +:+ url.QueryEscape value.

(** [v.Encode()]: the pairs [key=value], escaped, in the order of the
    sorted keys and, under one key, in the order of its values. *)
Definition Values_Encode (v : Values) : string :=
  if (Z.of_nat (size v) =? 0) then ""
  else
    fold_left
      (fun buf k =>
         fold_left (write_pair (url.QueryEscape k)) (default [] (v !! k)) buf)
      (sorted_keys v) "".

(** One turn of the loop of [addQueryParams]. *)
Definition addQueryParam (q : Values) (query : string) : Values :=
  match Strings.SplitN query "=" 2 with
  | [key; value] => Values_Add q key value
  | _ => q
  end.

(** [addQueryParams(req, queries)]: [q] is what [req.URL.Query()]
    returned, the result what is stored in [req.URL.RawQuery]. *)
Definition addQueryParams (q : Values) (queries : list string) : string :=
  Values_Encode (fold_left addQueryParam queries q).

End main.

(** * Header names up to case *)

(** An ASCII letter in lower case; any other byte as it is. *)
Definition lower_byte (c : ascii) : ascii :=
  if textproto.is_upper c then textproto.shift_case c textproto.toLower else c.

(** The two names differ at most in the case of their ASCII letters. *)
Definition same_name (a b : string) : bool :=
  String.eqb (string_of_list_ascii (map lower_byte (list_ascii_of_string a)))
             (string_of_list_ascii (map lower_byte (list_ascii_of_string b))).

(** * package response (src/response/formatter.go) *)

Module response.

(** What the formatters use of an [*http.Response]: its header, and what
    [io.ReadAll(resp.Body)] returns, the bytes read and the error.  A
    [[]byte] is a string; the nil slice is the empty one. *)
Record Response := mkResponse {
  Header : gmap string (list string);
  ReadAll : string * error
}.

(** How the stream of [decoder.Token()] ends: with [io.EOF], or with
    another error. *)
Inductive StreamEnd :=
| EOF
| TokenError (err : string).

Section Formatter.

(** [encoding/json] and [encoding/xml], as far as the formatter calls
    them.  [JSON] is a decoded value ([interface{}]); [Token] an
    [xml.Token]; [Encoder] an [xml.Encoder] together with the buffer it
    writes to. *)
Variable JSON : Type.
Variable json_Unmarshal : string -> JSON + string.
Variable json_MarshalIndent : JSON -> string -> string -> string + string.
Variable Token : Type.
Variable Encoder : Type.
Variable xml_Unmarshal : string -> error.
Variable xml_Tokens : string -> list Token * StreamEnd.
Variable xml_NewEncoder : Encoder.
Variable Encoder_Indent : Encoder -> string -> string -> Encoder.
Variable Encoder_EncodeToken : Encoder -> Token -> Encoder + string.
Variable Encoder_Flush : Encoder -> Encoder + string.
Variable Encoder_Bytes : Encoder -> string.





End Formatter.


End response.

(** * How far the callers of [getValidToken] are from returning *)

(** The steps a caller has still to take, at most. *)
Definition remaining (p : Interleaving.pc) : nat :=
  match p with
  | Interleaving.Idle => 5
  | Interleaving.Reading => 4
  | Interleaving.Waiting => 3
  | Interleaving.Writing => 2
  | Interleaving.Fetching _ => 1
  | Interleaving.Done _ _ => 0
  end.

Fixpoint steps_left (l : list Interleaving.pc) : nat :=
  match l with
  | [] => O
  | p :: l' => (remaining p + steps_left l')%nat
  end.

(** A schedule in which only callers act. *)
Definition only_acts (ls : list Interleaving.label) : Prop :=
  Forall (fun l => match l with Interleaving.Act _ => True | _ => False end) ls.

(** * What a call of [New] returned *)

(** [r] is an enabled limiter whose bucket has the burst [requests] and
    the limit [float64(requests) / float64(seconds)] per second. *)
Definition limits_to (r : ratelimit.RateLimiter + string) (requests seconds : Z)
  : Prop :=
  exists lim,
    r = inl {| ratelimit.limiter := Some lim; ratelimit.enabled := true |}
    /\ rate.burst lim = requests
    /\ rate.limit lim
       = float64.div (float64.of_int requests) (float64.of_int seconds).

(** * Theorems *)

(** ** The library functions on examples *)

Example Atoi_examples :
  strconv.Atoi "10" = Some 10 /\ strconv.Atoi "-10" = Some (-10) /\
  strconv.Atoi "+7" = Some 7 /\ strconv.Atoi "1x" = None /\
  strconv.Atoi "" = None /\ strconv.Atoi "-" = None /\
  strconv.Atoi "9223372036854775807" = Some MaxInt64 /\
  strconv.Atoi "9223372036854775808" = None /\
  strconv.Itoa 1000 = "1000" /\
  strings.Split "100/30s" "/" = ["100"; "30s"] /\
  strings.Split "a/b/c" "/" = ["a"; "b"; "c"] /\
  strings.Split "abc" "/" = ["abc"] /\
  strings.Split "a--b-" "--" = ["a"; "b-"] /\
  strings.Split "/" "/" = [""; ""] /\
  strings.Join ["read"; "write"] " " = "read write".
Proof. vm_compute. repeat split; reflexivity. Qed.

Example ParseDuration_examples :
  time.ParseDuration "30s" = Some (30 * time.Second) /\
  time.ParseDuration "2m30s" = Some (150 * time.Second) /\
  time.ParseDuration "1.5h" = Some (5400 * time.Second) /\
  time.ParseDuration "-5s" = Some (- 5 * time.Second) /\
  time.ParseDuration "0" = Some 0 /\
  time.ParseDuration "100ms" = Some (100 * time.Millisecond) /\
  time.ParseDuration ".5s" = Some (500 * time.Millisecond) /\
  time.ParseDuration "xyz" = None /\
  time.ParseDuration "30" = None /\
  time.ParseDuration "" = None /\
  time.ParseDuration "s" = None /\
  time.ParseDuration "3 s" = None /\
  time.ParseDuration "9223372036854775807ns" = Some MaxInt64 /\
  time.ParseDuration "9223372036854775808ns" = None /\
  time.ParseDuration "2562048h" = None /\
  time.Seconds (30 * time.Second) = float64.of_int 30 /\
  time.Seconds time.Minute = float64.of_int 60.
Proof. vm_compute. repeat split; reflexivity. Qed.

Example library_examples :
  base64.EncodeToString "user:pass" = "dXNlcjpwYXNz" /\
  base64.EncodeToString "a:b" = "YTpi" /\
  base64.EncodeToString "ab" = "YWI=" /\
  base64.EncodeToString "a" = "YQ==" /\
  base64.EncodeToString "Aladdin:open sesame" = "QWxhZGRpbjpvcGVuIHNlc2FtZQ==" /\
  textproto.CanonicalMIMEHeaderKey "x-api-key" = "X-Api-Key" /\
  textproto.CanonicalMIMEHeaderKey "AUTHORIZATION" = "Authorization" /\
  textproto.CanonicalMIMEHeaderKey "bad key" = "bad key" /\
  url.Encode (url.Set_ (url.Set_ (url.Set_ [] "grant_type" "client_credentials")
                          "client_id" "my id") "scope" "read write")
  = "client_id=my+id&grant_type=client_credentials&scope=read+write".
Proof. vm_compute. repeat split; reflexivity. Qed.


(** ** The loop of [ParseDuration] never runs out of fuel *)

Section ParseDurationFuel.

Lemma leadingInt_suffix (s s1 : string) (x v : Z) :
  time.leadingInt x s = Some (v, s1) -> (String.length s1 <= String.length s)%nat.
Proof.
  revert x. induction s as [|c s IH]; intros x H; cbn [time.leadingInt] in H.
  - injection H as _ <-. reflexivity.
  - destruct (strconv.is_digit c).
    + destruct (2 ^ 63 / 10 <? x); [discriminate|].
      destruct (2 ^ 63 <? _); [discriminate|].
      apply IH in H. cbn [String.length]. lia.
    + injection H as _ <-. reflexivity.
Qed.

Lemma leadingFraction_suffix (s s2 : string) (x f : Z) (scale scale' : spec_float)
      (overflow : bool) :
  time.leadingFraction x scale overflow s = (f, scale', s2) ->
  (String.length s2 <= String.length s)%nat.
Proof.
  revert x scale overflow. induction s as [|c s IH]; intros x scale overflow H;
    cbn [time.leadingFraction] in H.
  - injection H as _ _ <-. reflexivity.
  - destruct (strconv.is_digit c).
    + cbn [String.length].
      destruct overflow; [apply IH in H; lia|].
      destruct ((2 ^ 63 - 1) / 10 <? x); [apply IH in H; lia|].
      destruct (2 ^ 63 <? _); apply IH in H; lia.
    + injection H as _ _ <-. reflexivity.
Qed.

Lemma unit_span_length (s u r : string) :
  time.unit_span s = (u, r) ->
  String.length s = (String.length u + String.length r)%nat.
Proof.
  revert u r. induction s as [|c s IH]; intros u r H; cbn [time.unit_span] in H.
  - injection H as <- <-. reflexivity.
  - destruct (time.is_digit_or_dot c).
    + injection H as <- <-. reflexivity.
    + destruct (time.unit_span s) as [u' r'] eqn:E. injection H as <- <-.
      cbn [String.length]. rewrite (IH u' r' eq_refl). reflexivity.
Qed.

Lemma strlen_neq (a b : string) :
  (time.strlen a =? time.strlen b) = false -> String.length a <> String.length b.
Proof. unfold time.strlen. intros H. apply Z.eqb_neq in H. lia. Qed.

(** With at least as much fuel as [s] has bytes the loop gives what it
    gives with any larger amount: a [None] is a refusal of [s], not a
    lack of fuel. *)
Lemma parse_loop_fuel (fuel1 : nat) :
  forall (fuel2 : nat) (d : Z) (s : string),
    (String.length s <= fuel1)%nat -> (String.length s <= fuel2)%nat ->
    time.parse_loop fuel1 d s = time.parse_loop fuel2 d s.
Proof.
  induction fuel1 as [|fuel1 IH]; intros fuel2 d s H1 H2.
  - destruct s; [destruct fuel2; reflexivity|cbn in H1; lia].
  - destruct s as [|c0 s']; [destruct fuel2; reflexivity|].
    destruct fuel2 as [|fuel2]; [cbn in H2; lia|].
    cbn [time.parse_loop].
    remember (String c0 s') as s eqn:Es. clear Es.
    destruct (negb (time.is_digit_or_dot c0)); [reflexivity|].
    destruct (time.leadingInt 0 s) as [[v s1]|] eqn:E1; [|reflexivity].
    pose proof (leadingInt_suffix _ _ _ _ E1) as L1.
    assert (Hfrac : forall s1' f scale s2,
               time.leadingFraction 0 (float64.of_int 1) false s1' = (f, scale, s2) ->
               (String.length s2 <= String.length s1')%nat)
      by (intros; eapply leadingFraction_suffix; eauto).
    set (frac := match s1 with
                 | String "."%char s1' =>
                     let '(f, scale, s2) :=
                       time.leadingFraction 0 (float64.of_int 1) false s1' in
                     (f, scale, s2, negb (time.strlen s1' =? time.strlen s2))
                 | _ => (0, float64.of_int 1, s1, false)
                 end).
    assert (L2 : (String.length (snd (fst frac)) <= String.length s1)%nat).
    { unfold frac. destruct s1 as [|c1 s1']; [reflexivity|].
      destruct (Ascii.eqb_spec c1 "."%char) as [->|Hne].
      - destruct (time.leadingFraction 0 (float64.of_int 1) false s1')
          as [[f scale] s2] eqn:E2.
        cbn [fst snd String.length]. apply Hfrac in E2. lia.
      - destruct c1 as [[] [] [] [] [] [] [] []]; try reflexivity.
        contradiction. }
    destruct frac as [[[f scale] s2] post]. cbn [fst snd] in L2.
    destruct (negb (negb (time.strlen s =? time.strlen s1)) && negb post);
      [reflexivity|].
    destruct (time.unit_span s2) as [u s3] eqn:E3.
    pose proof (unit_span_length _ _ _ E3) as L3.
    destruct (String.eqb_spec u "") as [->|Hu]; [reflexivity|].
    destruct (time.unitMap u) as [unit|]; [|reflexivity].
    destruct (2 ^ 63 / unit <? v); [reflexivity|].
    match goal with |- context [if ?b then None else _] => destruct b end;
      [reflexivity|].
    match goal with |- context [if ?b then None else _] => destruct b end;
      [reflexivity|].
    apply IH.
    + assert (0 < String.length u)%nat by (destruct u; [contradiction|cbn; lia]). lia.
    + assert (0 < String.length u)%nat by (destruct u; [contradiction|cbn; lia]). lia.
Qed.

End ParseDurationFuel.

(** ** The authenticators *)

Section Authenticators.

Import auth.

Lemma nonempty_false (s : string) : nonempty s = false -> s = "".
Proof.
  unfold nonempty. intros H. apply negb_false_iff in H.
  now apply String.eqb_eq.
Qed.

Lemma nonempty_true (s : string) : nonempty s = true -> s <> "".
Proof.
  unfold nonempty. intros H. apply negb_true_iff in H.
  now apply String.eqb_neq.
Qed.

(** Under the guard of [NewAuthenticator] the OAuth2 constructor does
    not fail. *)
Lemma NewOAuth2ClientCredentials_guarded id secret url sc :
  nonempty id && nonempty secret && nonempty url = true ->
  NewOAuth2ClientCredentials id secret url sc
  = (Some {| clientID := id; clientSecret := secret; tokenURL := url;
             scopes := sc; token := ""; expiry := 0 |}, None).
Proof.
  unfold NewOAuth2ClientCredentials, nonempty. intros H.
  apply andb_prop in H as [H Hu]. apply andb_prop in H as [Hi Hs].
  apply negb_true_iff in Hi, Hs, Hu. now rewrite Hi, Hs, Hu.
Qed.

(** C5. For every configuration [NewAuthenticator] returns no error and
    at most one authenticator, whose variant is the first in the order
    Basic, Bearer, OAuth2, CustomHeader whose settings are present (none
    when no variant's settings are), and which carries the settings of
    the configuration. *)
Theorem NewAuthenticator_precedence (config : Config) :
  snd (NewAuthenticator config) = None
  /\ option_map Spec.variant_of (fst (NewAuthenticator config))
     = Spec.precedence config
  /\ match fst (NewAuthenticator config) with
     | Some (Basic b) =>
         username b = Username config /\ password b = Password config
     | Some (Bearer b) => bearer_token b = BearerToken config
     | Some (OAuth2 o) =>
         clientID o = ClientID config /\ clientSecret o = ClientSecret config
         /\ tokenURL o = TokenURL config /\ scopes o = Scopes config
         /\ token o = ""
     | Some (Custom c) =>
         header c = CustomHeader config /\ value c = CustomValue config
     | None => True
     end.
Proof.
  unfold NewAuthenticator, Spec.precedence, Spec.set_.
  fold (nonempty (Username config)) (nonempty (Password config))
       (nonempty (BearerToken config)) (nonempty (ClientID config))
       (nonempty (ClientSecret config)) (nonempty (TokenURL config))
       (nonempty (CustomHeader config)) (nonempty (CustomValue config)).
  destruct (nonempty (Username config) || nonempty (Password config)) eqn:Hb;
    [cbn; auto|].
  destruct (nonempty (BearerToken config)) eqn:Ht; [cbn; auto|].
  destruct (nonempty (ClientID config) && nonempty (ClientSecret config)
            && nonempty (TokenURL config)) eqn:Ho.
  - rewrite (NewOAuth2ClientCredentials_guarded _ _ _ _ Ho). cbn. auto 10.
  - destruct (nonempty (CustomHeader config) && nonempty (CustomValue config));
      cbn; auto.
Qed.


(** What [Header.Get] reads after [CustomAuth] has set its header. *)
Lemma CustomAuth_Apply_Get (c : CustomAuth) (req : http.Request) :
  header c <> "" -> value c <> "" ->
  http.Header_Get (http.Header (snd (CustomAuth_Apply c req))) (header c)
  = value c.
Proof.
  intros Hh Hv. unfold CustomAuth_Apply, nonempty.
  apply String.eqb_neq in Hh, Hv. rewrite Hh, Hv. cbn.
  unfold http.Header_Get, http.Header_Set. now rewrite lookup_insert_eq.
Qed.

End Authenticators.

(** ** The OAuth2 token cache, one caller *)

Section OAuth2.

Import auth.

Ltac run_oauth :=
  unfold OAuth2ClientCredentials_Apply, getValidToken, cached_valid,
    fetchToken, NewRequest, Do, Now, bind, ret.

Lemma token_request_sent (o : OAuth2ClientCredentials) :
  http.with_Header
    {| http.Method := "POST"; http.URL := tokenURL o; http.Header := ∅;
       http.Body := token_request_body o |}
    (http.Header_Set
       (http.Header_Set ∅ "Content-Type" "application/x-www-form-urlencoded")
       "Accept" "application/json")
  = Spec.token_request o.
Proof. reflexivity. Qed.

(** A fetch that fails returns an error and leaves the receiver as it
    was; at most one request has been sent. *)
Lemma fetchToken_fails (o : OAuth2ClientCredentials) (w : World) :
  Spec.fetch_fails (server w (length (sent w)) (Spec.token_request o)) = true ->
  exists e w', fetchToken o w = (("", Some e, o), w')
               /\ clock w' = clock w /\ ticks w' = ticks w.
Proof.
  intros Hf. unfold fetchToken, NewRequest, Do, bind, ret.
  destruct (url_error w (tokenURL o)) as [err|]; [eauto 6|].
  cbn [http.Header]. rewrite token_request_sent.
  destruct (server w (length (sent w)) (Spec.token_request o)) as [err|resp];
    [eauto 6|].
  cbn in Hf. destruct (http.StatusCode resp =? http.StatusOK); cbn in *; [|eauto 6].
  destruct (http.RespBody resp) as [err|tok tt ei]; [eauto 6|].
  rewrite Hf. eauto 6.
Qed.

(** The cache test fails on an absent or expired token. *)
Lemma cached_valid_expired (o : OAuth2ClientCredentials) (w : World) :
  Spec.no_valid_token o w ->
  exists w', cached_valid o w = (false, w')
             /\ clock w' = clock w /\ (ticks w <= ticks w')%nat
             /\ url_error w' = url_error w /\ server w' = server w
             /\ sent w' = sent w.
Proof.
  intros Hv. unfold cached_valid, nonempty, Now, bind, ret.
  destruct (String.eqb (token o) "") eqn:He; cbn.
  - exists w. repeat split; auto.
  - destruct Hv as [Hv|Hv]; [apply String.eqb_neq in He; contradiction|].
    eexists. split; [f_equal|cbn; repeat split; auto].
    unfold time.Before. apply Z.ltb_ge. apply Hv. lia.
Qed.

Lemma no_valid_token_later (o : OAuth2ClientCredentials) (w w' : World) :
  Spec.no_valid_token o w -> clock w' = clock w -> (ticks w <= ticks w')%nat ->
  Spec.no_valid_token o w'.
Proof.
  intros [H|H] Hc Ht; [now left|right]. intros n Hn. rewrite Hc. apply H. lia.
Qed.

(** C2. When no valid token is cached and the fetch fails (a status
    other than 200, a body without a non-empty access token, and also a
    transport error or an undecodable body), [Apply] returns an error
    that starts with "failed to get OAuth2 token: ", the request is
    returned as it was (no header set), and the authenticator, with its
    cached token and expiry, is as before the call. *)
Theorem failed_fetch_changes_nothing
        (o : OAuth2ClientCredentials) (req : http.Request) (w : World) :
  Spec.no_valid_token o w ->
  Spec.fetch_fails (server w (length (sent w)) (Spec.token_request o)) = true ->
  exists e,
    fst (OAuth2ClientCredentials_Apply o req w)
    = (Some ("failed to get OAuth2 token: " +:+ e), o, req).
Proof.
  intros Hv Hf.
  destruct (cached_valid_expired o w Hv) as (w1 & E1 & Hc1 & Ht1 & Hu1 & Hs1 & Hl1).
  assert (Hv1 : Spec.no_valid_token o w1) by (eapply no_valid_token_later; eauto).
  destruct (cached_valid_expired o w1 Hv1) as (w2 & E2 & Hc2 & Ht2 & Hu2 & Hs2 & Hl2).
  assert (Hf2 : Spec.fetch_fails
                  (server w2 (length (sent w2)) (Spec.token_request o)) = true)
    by (rewrite Hs2, Hs1, Hl2, Hl1; exact Hf).
  destruct (fetchToken_fails o w2 Hf2) as (e & w3 & E3 & _).
  exists e. unfold OAuth2ClientCredentials_Apply, getValidToken, bind.
  rewrite E1, E2, E3. reflexivity.
Qed.

(** A fetch returns an error and leaves the receiver alone, or returns
    the token it has just cached. *)
Lemma fetchToken_cases (o : OAuth2ClientCredentials) (w : World) :
  (exists e w', fetchToken o w = (("", Some e, o), w'))
  \/ (exists tok exp w', fetchToken o w = ((tok, None, set_token o tok exp), w')).
Proof.
  unfold fetchToken, NewRequest, Do, Now, bind, ret.
  destruct (url_error w (tokenURL o)); [left; eauto|].
  destruct (server w _ _) as [err|resp]; [left; eauto|].
  destruct (negb _); [left; eauto|].
  destruct (http.RespBody resp) as [err|tok tt ei]; [left; eauto|].
  destruct (String.eqb tok ""); [left; eauto|].
  destruct (0 <? ei); right; eauto.
Qed.

Lemma getValidToken_cases (o : OAuth2ClientCredentials) (w : World) :
  (exists e w', getValidToken o w = (("", Some e, o), w'))
  \/ (exists w', getValidToken o w = ((token o, None, o), w'))
  \/ (exists tok exp w', getValidToken o w = ((tok, None, set_token o tok exp), w')).
Proof.
  unfold getValidToken, bind, ret.
  destruct (cached_valid o w) as [[|] w1]; [right; left; eauto|].
  destruct (cached_valid o w1) as [[|] w2]; [right; left; eauto|].
  destruct (fetchToken_cases o w2) as [(e & w' & E)|(tok & ex & w' & E)];
    rewrite E; [left|right; right]; eauto.
Qed.

Lemma failed_fetch_witness :
  Spec.no_valid_token fresh (refusing a_time)
  /\ Spec.fetch_fails
       (server (refusing a_time) (length (sent (refusing a_time)))
          (Spec.token_request fresh)) = true
  /\ exists e,
      fst (OAuth2ClientCredentials_Apply fresh a_request (refusing a_time))
      = (Some ("failed to get OAuth2 token: " +:+ e), fresh, a_request).
Proof.
  split; [left; reflexivity|]. split; [reflexivity|].
  apply (failed_fetch_changes_nothing fresh a_request (refusing a_time)).
  - left; reflexivity.
  - reflexivity.
Defined.

(** Whatever the cache and the world, an [Apply] that returns an error
    has changed neither the request nor the authenticator, and one that
    returns [nil] has set the header to the token now cached. *)
Lemma Apply_error_changes_nothing
      (o : OAuth2ClientCredentials) (req : http.Request) (w : World) :
  match fst (OAuth2ClientCredentials_Apply o req w) with
  | (Some _, o', req') => o' = o /\ req' = req
  | (None, o', req') =>
      http.Header_Get (http.Header req') "Authorization" = "Bearer " +:+ token o'
  end.
Proof.
  unfold OAuth2ClientCredentials_Apply, bind, ret.
  destruct (getValidToken_cases o w)
    as [(e & w' & E)|[(w' & E)|(tok & ex & w' & E)]]; rewrite E; cbn; auto;
    unfold http.Header_Get, http.Header_Set; now rewrite lookup_insert_eq.
Qed.

End OAuth2.

(** ** The expiry of a fetched token *)

Section Expiry.

Import auth.

(** A successful fetch caches the token of the answer, with the expiry
    computed from the reading of the clock taken after the answer. *)
Lemma fetchToken_success (o : OAuth2ClientCredentials) (w : World)
      (tok tt : string) (ei : Z) :
  url_error w (tokenURL o) = None ->
  server w (length (sent w)) (Spec.token_request o) = Spec.token_response tok tt ei ->
  tok <> "" ->
  fetchToken o w
  = ((tok, None,
      set_token o tok (time.Add (clock w (ticks w)) (Spec.lifetime ei))),
     world_after_fetch o w).
Proof.
  intros Hu Hs Ht. unfold fetchToken, NewRequest, Do, Now, bind, ret, Spec.lifetime.
  rewrite Hu. cbn [http.Header]. rewrite token_request_sent, Hs.
  apply String.eqb_neq in Ht. cbn. rewrite Ht.
  destruct (0 <? ei); reflexivity.
Qed.

Lemma wrap64_small (z : Z) : MinInt64 <= z <= MaxInt64 -> wrap64 z = z.
Proof.
  unfold wrap64, MinInt64, MaxInt64. intros H.
  rewrite Z.mod_small; lia.
Qed.

(** As long as [(expires_in - 60)] seconds fit a [Duration], that is for
    [expires_in] up to 9223372096, the Spec.lifetime is the one the
    specification gives. *)
Lemma lifetime_in_range (now : time.Time) (ei : Z) :
  ei <= 9223372096 ->
  time.Add now (Spec.lifetime ei) = Spec.expiry_after now ei.
Proof.
  intros H. unfold Spec.lifetime, Spec.expiry_after, time.Add, time.mul.
  destruct (0 <? ei) eqn:E.
  - apply Z.ltb_lt in E.
    rewrite (wrap64_small (ei - 60)) by (unfold MinInt64, MaxInt64; lia).
    rewrite wrap64_small; [reflexivity|].
    unfold MinInt64, MaxInt64, time.Second, time.Millisecond,
      time.Microsecond, time.Nanosecond. lia.
  - rewrite wrap64_small; [reflexivity|]. vm_compute. split; discriminate.
Qed.

(** C3. The code at an [expires_in] of 9223372097 seconds: the token is
    cached, but the product [(expires_in - 60) * time.Second] has
    wrapped around and the expiry lies some 292 years before [now], not
    [expires_in - 60] seconds after it. *)
Theorem fetchToken_expiry_wraps_around :
  let '(tok, err, o') := fst (fetchToken fresh (answering a_time 9223372097)) in
  err = None /\ tok = "abc" /\ token o' = "abc"
  /\ expiry o' = a_time - 9223372036709551616
  /\ expiry o' <> Spec.expiry_after a_time 9223372097
  /\ expiry o' < a_time.
Proof. vm_compute. repeat split; discriminate. Qed.

(** C10. After a successful fetch whose answer declares an [expires_in]
    between 1 and 60, the expiry cached is not after the reading of the
    clock the fetch took; so, the clock never running backwards, the
    cache test fails at every later moment and [getValidToken] sends
    another request to the token endpoint (whenever the token URL is
    accepted) instead of returning the cached token. *)
Theorem short_lived_token_is_never_reused
        (o : OAuth2ClientCredentials) (w : World) (tok tt : string) (ei : Z) :
  url_error w (tokenURL o) = None ->
  server w (length (sent w)) (Spec.token_request o) = Spec.token_response tok tt ei ->
  tok <> "" ->
  0 < ei <= 60 ->
  Spec.monotone (clock w) ->
  exists o',
    fetchToken o w = ((tok, None, o'), world_after_fetch o w)
    /\ token o' = tok
    /\ expiry o' <= clock w (ticks w)
    /\ forall w2 : World,
        clock w2 = clock w -> (ticks (world_after_fetch o w) <= ticks w2)%nat ->
        url_error w2 (tokenURL o) = None ->
        fst (cached_valid o' w2) = false
        /\ length (sent (snd (getValidToken o' w2))) = S (length (sent w2)).
Proof.
  intros Hu Hs Ht He Hm.
  eexists. split; [apply (fetchToken_success o w tok tt ei Hu Hs Ht)|].
  set (o' := set_token o tok _).
  assert (Hexp : expiry o' <= clock w (ticks w)).
  { cbn. rewrite lifetime_in_range by lia. unfold Spec.expiry_after, time.Second,
      time.Millisecond, time.Microsecond, time.Nanosecond.
    destruct (0 <? ei) eqn:E; [|apply Z.ltb_ge in E]; lia. }
  split; [reflexivity|]. split; [exact Hexp|].
  intros w2 Hc Hk Hu2.
  assert (Hv : Spec.no_valid_token o' w2).
  { right. intros n Hn. rewrite Hc. etransitivity; [exact Hexp|].
    apply Hm. cbn in Hk. lia. }
  destruct (cached_valid_expired o' w2 Hv) as (w3 & E3 & Hc3 & Hk3 & Hu3 & Hs3 & Hl3).
  split; [now rewrite E3|].
  assert (Hv3 : Spec.no_valid_token o' w3) by (eapply no_valid_token_later; eauto).
  destruct (cached_valid_expired o' w3 Hv3) as (w4 & E4 & Hc4 & Hk4 & Hu4 & Hs4 & Hl4).
  unfold getValidToken, bind. rewrite E3, E4.
  unfold fetchToken, NewRequest, Do, Now, bind, ret.
  replace (tokenURL o') with (tokenURL o) by reflexivity.
  rewrite Hu4, Hu3, Hu2. rewrite <- Hl3, <- Hl4.
  destruct (server w4 _ _) as [err|resp]; cbn; [now rewrite length_app, Nat.add_1_r|].
  repeat match goal with
    | |- context [if ?b then _ else _] => destruct b; cbn
    | |- context [match ?x with http.Malformed _ => _ | _ => _ end] => destruct x; cbn
    end; now rewrite length_app, Nat.add_1_r.
Qed.

Lemma short_lived_token_witness :
  url_error (answering a_time 30) (tokenURL fresh) = None
  /\ 0 < 30 <= 60
  /\ exists o',
      fetchToken fresh (answering a_time 30)
      = (("abc", None, o'), world_after_fetch fresh (answering a_time 30))
      /\ token o' = "abc"
      /\ expiry o' <= clock (answering a_time 30) (ticks (answering a_time 30))
      /\ forall w2 : World,
          clock w2 = clock (answering a_time 30) ->
          (ticks (world_after_fetch fresh (answering a_time 30)) <= ticks w2)%nat ->
          url_error w2 (tokenURL fresh) = None ->
          fst (cached_valid o' w2) = false
          /\ length (sent (snd (getValidToken o' w2))) = S (length (sent w2)).
Proof.
  split; [reflexivity|]. split; [lia|].
  apply (short_lived_token_is_never_reused fresh (answering a_time 30) "abc" "Bearer" 30).
  - reflexivity.
  - reflexivity.
  - discriminate.
  - lia.
  - intros i j _. cbn. lia.
Defined.

End Expiry.

(** ** The rate limiter: construction and reconfiguration *)

Section RateLimiter.

Import ratelimit.

Lemma append_empty (s : string) : s +:+ "" = s.
Proof.
  induction s as [|c s IH]; [reflexivity|].
  change (String c (s +:+ "") = String c s). now rewrite IH.
Qed.

Lemma append_snoc (a b : string) (c : ascii) :
  (a +:+ String c "") +:+ b = a +:+ String c b.
Proof.
  induction a as [|x a IH]; [reflexivity|].
  change (String x ((a +:+ String c "") +:+ b) = String x (a +:+ String c b)).
  now rewrite IH.
Qed.

Lemma contains_slash_cons (c : ascii) (s : string) :
  Spec.contains_slash (String c s)
  = Ascii.eqb "/"%char c || Spec.contains_slash s.
Proof. reflexivity. Qed.

Lemma split_from_slash (cur : string) (c : ascii) (s : string) :
  strings.split_from "/" O cur (String c s)
  = if Ascii.eqb "/"%char c then cur :: strings.split_from "/" O "" s
    else strings.split_from "/" O (cur +:+ String c "") s.
Proof.
  change (strings.split_from "/" O cur (String c s))
    with (if strings.HasPrefix (String c s) "/"
          then cur :: strings.split_from "/" O "" s
          else strings.split_from "/" O (cur +:+ String c "") s).
  replace (strings.HasPrefix (String c s) "/") with (Ascii.eqb "/"%char c);
    [reflexivity|].
  change (strings.HasPrefix (String c s) "/")
    with (Ascii.eqb "/"%char c && strings.HasPrefix s "").
  destruct s; now rewrite andb_true_r.
Qed.

Lemma split_no_separator (s cur : string) :
  Spec.contains_slash s = false ->
  strings.split_from "/" O cur s = [cur +:+ s].
Proof.
  revert cur. induction s as [|c s IH]; intros cur H.
  - cbn [strings.split_from]. now rewrite append_empty.
  - rewrite contains_slash_cons in H. apply orb_false_elim in H as [Hc Hs].
    rewrite split_from_slash, Hc, IH by exact Hs. now rewrite append_snoc.
Qed.

Lemma Split_no_separator (s : string) :
  Spec.contains_slash s = false -> strings.Split s "/" = [s].
Proof. intros H. unfold strings.Split. now rewrite split_no_separator. Qed.

(** What [parseRate] accepts, and what it derives from it. *)
Lemma parseRate_derived (s : string) (limit : rate.Limit) (burst : Z) :
  parseRate s = inl (limit, burst) ->
  exists requestsStr durationStr duration,
    strings.Split s "/" = [requestsStr; durationStr]
    /\ strconv.Atoi requestsStr = Some burst /\ 0 < burst
    /\ parseDuration durationStr = inl duration /\ 0 < duration
    /\ limit = float64.div (float64.of_int burst) (time.Seconds duration).
Proof.
  unfold parseRate. intros H.
  destruct (strings.Split s "/") as [|a [|b [|c l]]] eqn:Hs; try discriminate.
  destruct (strconv.Atoi a) as [requests|] eqn:Ha; [|discriminate].
  destruct (requests <=? 0) eqn:Hr; [discriminate|]. apply Z.leb_gt in Hr.
  destruct (parseDuration b) as [d|err] eqn:Hd; [|discriminate].
  injection H as <- <-. exists a, b, d.
  split; [reflexivity|]. split; [exact Ha|]. split; [exact Hr|].
  split; [exact Hd|]. split; [|reflexivity].
  unfold parseDuration in Hd.
  destruct (String.eqb b "s"); [inversion Hd; subst; reflexivity|].
  destruct (String.eqb b "m"); [inversion Hd; subst; reflexivity|].
  destruct (String.eqb b "h"); [inversion Hd; subst; reflexivity|].
  destruct (time.ParseDuration b) as [d'|]; [|discriminate].
  destruct (d' <=? 0) eqn:E; [discriminate|]. apply Z.leb_gt in E.
  now inversion Hd; subst.
Qed.

(** C8. Construction fails for "0/s", "-10/s", "10/xyz" and for every
    non-empty string without a '/'; it succeeds for "10/s", "100/30s",
    "50/m" and "1000/h", and the limiter it returns is enabled, its
    burst is the requests and its limit the quotient of the requests by
    the seconds in the duration (1, 30, 60 and 3600): 10, 100/30, 50/60
    and 1000/3600 events per second, as binary64 numbers. *)
Theorem New_rate_specifications (s : string) :
  s <> "" ->
  Spec.contains_slash s = false ->
  (exists err, New s = inr err)
  /\ (exists err, New "0/s" = inr err)
  /\ (exists err, New "-10/s" = inr err)
  /\ (exists err, New "10/xyz" = inr err)
  /\ (exists lim,
        New "10/s" = inl {| limiter := Some lim; enabled := true |}
        /\ rate.burst lim = 10
        /\ rate.limit lim = float64.div (float64.of_int 10) (float64.of_int 1)
        /\ rate.limit lim = S754_finite false 5629499534213120 (-49))
  /\ (exists lim,
        New "100/30s" = inl {| limiter := Some lim; enabled := true |}
        /\ rate.burst lim = 100
        /\ rate.limit lim = float64.div (float64.of_int 100) (float64.of_int 30)
        /\ rate.limit lim = S754_finite false 7505999378950827 (-51))
  /\ (exists lim,
        New "50/m" = inl {| limiter := Some lim; enabled := true |}
        /\ rate.burst lim = 50
        /\ rate.limit lim = float64.div (float64.of_int 50) (float64.of_int 60)
        /\ rate.limit lim = S754_finite false 7505999378950827 (-53))
  /\ (exists lim,
        New "1000/h" = inl {| limiter := Some lim; enabled := true |}
        /\ rate.burst lim = 1000
        /\ rate.limit lim = float64.div (float64.of_int 1000) (float64.of_int 3600)
        /\ rate.limit lim = S754_finite false 5003999585967218 (-54)).
Proof.
  intros Hne Hs. split.
  - unfold New, parseRate. apply String.eqb_neq in Hne. rewrite Hne.
    rewrite Split_no_separator by exact Hs. eexists. reflexivity.
  - repeat split; try (eexists; vm_compute; reflexivity);
      (eexists; split; [vm_compute; reflexivity|];
       repeat split; vm_compute; reflexivity).
Qed.

Lemma New_rate_specifications_witness :
  "invalid" <> ""
  /\ Spec.contains_slash "invalid" = false
  /\ (exists err, New "invalid" = inr err)
  /\ (exists err, New "0/s" = inr err)
  /\ (exists err, New "-10/s" = inr err)
  /\ (exists err, New "10/xyz" = inr err)
  /\ (exists lim,
        New "10/s" = inl {| limiter := Some lim; enabled := true |}
        /\ rate.burst lim = 10
        /\ rate.limit lim = float64.div (float64.of_int 10) (float64.of_int 1)
        /\ rate.limit lim = S754_finite false 5629499534213120 (-49))
  /\ (exists lim,
        New "100/30s" = inl {| limiter := Some lim; enabled := true |}
        /\ rate.burst lim = 100
        /\ rate.limit lim = float64.div (float64.of_int 100) (float64.of_int 30)
        /\ rate.limit lim = S754_finite false 7505999378950827 (-51))
  /\ (exists lim,
        New "50/m" = inl {| limiter := Some lim; enabled := true |}
        /\ rate.burst lim = 50
        /\ rate.limit lim = float64.div (float64.of_int 50) (float64.of_int 60)
        /\ rate.limit lim = S754_finite false 7505999378950827 (-53))
  /\ (exists lim,
        New "1000/h" = inl {| limiter := Some lim; enabled := true |}
        /\ rate.burst lim = 1000
        /\ rate.limit lim = float64.div (float64.of_int 1000) (float64.of_int 3600)
        /\ rate.limit lim = S754_finite false 5003999585967218 (-54)).
Proof.
  split; [discriminate|]. split; [reflexivity|].
  apply (New_rate_specifications "invalid"); [discriminate|reflexivity].
Defined.

(** The messages of the rejected specifications. *)
Example New_error_messages :
  New "0/s" = inr "invalid rate format: requests must be a positive integer"
  /\ New "-10/s" = inr "invalid rate format: requests must be a positive integer"
  /\ New "10/xyz" = inr "invalid rate format: invalid duration: duration must be a valid time duration (e.g., 's', '30s', 'm', 'h') or a number followed by a unit"
  /\ New "10/0s" = inr "invalid rate format: invalid duration: duration must be positive"
  /\ New "10/s/s" = inr "invalid rate format: rate must be in format 'requests/duration' (e.g., '10/s', '100/30s')"
  /\ New "" = inl {| limiter := None; enabled := false |}.
Proof. vm_compute. repeat split; reflexivity. Qed.

(** C7. On every limiter, [SetRate("")] returns [nil], leaves the
    [rate.Limiter] with its tokens in place and makes [IsEnabled] false;
    [SetRate("5/s")] after it returns [nil], makes [IsEnabled] true and
    leaves a limiter whose burst is 5 and whose limit is 5 per second. *)
Theorem SetRate_disables_then_enables (rl : RateLimiter) (w : World) :
  let '((err1, rl1), w1) := SetRate rl "" w in
  let '((err2, rl2), w2) := SetRate rl1 "5/s" w1 in
  err1 = None /\ IsEnabled rl1 = false /\ limiter rl1 = limiter rl
  /\ err2 = None /\ IsEnabled rl2 = true
  /\ exists lim, limiter rl2 = Some lim /\ rate.burst lim = 5
                 /\ rate.limit lim = float64.of_int 5.
Proof.
  unfold SetRate at 1. cbn [String.eqb]. unfold ret.
  unfold SetRate. cbn [String.eqb Ascii.eqb Bool.eqb limiter enabled].
  replace (parseRate "5/s") with (@inl _ string (float64.of_int 5, 5))
    by (vm_compute; reflexivity).
  unfold bind, ret, Now. destruct (limiter rl) as [lim|]; cbn.
  - repeat split; eauto.
  - repeat split; eauto.
Qed.

Lemma well_formed_New (s : string) (rl : RateLimiter) :
  New s = inl rl -> Spec.well_formed rl.
Proof.
  unfold New, Spec.well_formed. destruct (String.eqb s "").
  - intros [= <-]. discriminate.
  - destruct (parseRate s) as [[l b]|]; [|discriminate]. intros [= <-]. discriminate.
Qed.

Lemma well_formed_SetRate (s : string) (rl : RateLimiter) (w : World) :
  Spec.well_formed rl -> Spec.well_formed (snd (fst (SetRate rl s w))).
Proof.
  unfold SetRate, Spec.well_formed, bind, ret, Now. intros H.
  destruct (String.eqb s ""); cbn; [discriminate|].
  destruct (parseRate s) as [[l b]|]; cbn; [|exact H].
  destruct (limiter rl); cbn; discriminate.
Qed.

Lemma well_formed_Allow (rl : RateLimiter) (w : World) :
  Spec.well_formed rl -> Spec.well_formed (snd (fst (Allow rl w))).
Proof.
  unfold Allow, Spec.well_formed, bind, ret, Now. intros H.
  destruct (enabled rl) eqn:E; cbn; [|now rewrite E].
  destruct (limiter rl) as [lim|] eqn:El; cbn.
  - destruct (rate.AllowN lim _ 1) as [[|] lim']; cbn; discriminate.
  - intros _. rewrite El. now apply H.
Qed.

(** The statistics of an enabled limiter have no key
    [availableTokens]: the number of tokens is under [tokens]. *)
Lemma Stats_has_no_availableTokens :
  New "10/s" = inl (Spec.limiter_for 10 1)
  /\ IsEnabled (Spec.limiter_for 10 1) = true
  /\ fst (Stats (Spec.limiter_for 10 1) (answering a_time 3600))
       !! "availableTokens" = None
  /\ fst (Stats (Spec.limiter_for 10 1) (answering a_time 3600))
       !! "tokens" = Some (Float64 (float64.of_int 10)).
Proof. vm_compute. repeat split; reflexivity. Qed.

(** C6, amended. For every limiter [Stats] returns a map with the key
    [enabled], bound to the boolean [IsEnabled] returns.  When the limiter
    is enabled the map has three more keys and no others: [limit] (the
    float [Limit()]), [burst] (the integer [Burst()]) and [tokens] (the
    float [Tokens()], the tokens available at the time of the call).  When
    it is disabled [enabled] is the only key. *)
Theorem Stats_keys (rl : RateLimiter) (w : World) :
  Spec.well_formed rl ->
  let stats := fst (Stats rl w) in
  stats !! "enabled" = Some (Bool (IsEnabled rl))
  /\ if IsEnabled rl then
       (exists lim,
           limiter rl = Some lim
           /\ stats !! "limit" = Some (Float64 (rate.limit lim))
           /\ stats !! "burst" = Some (Int (rate.burst lim))
           /\ stats !! "tokens"
              = Some (Float64 (rate.TokensAt lim (clock w (ticks w)))))
       /\ dom stats = {["enabled"; "limit"; "burst"; "tokens"]}
     else dom stats = {["enabled"]}.
Proof.
  intros Hwf. unfold Stats, IsEnabled, bind, ret, Now.
  unfold Spec.well_formed in Hwf.
  destruct (enabled rl) eqn:E.
  - destruct (limiter rl) as [lim|] eqn:El; [|now exfalso; apply Hwf].
    cbn. split; [reflexivity|]. split.
    + exists lim. repeat split; reflexivity.
    + rewrite !dom_insert_L, dom_empty_L. set_solver.
  - destruct (limiter rl) as [lim|]; cbn; split; try reflexivity;
      rewrite dom_insert_L, dom_empty_L; set_solver.
Qed.

Lemma Stats_keys_witness :
  Spec.well_formed (Spec.limiter_for 10 1)
  /\ let rl := Spec.limiter_for 10 1 in
     let w := answering a_time 3600 in
     let stats := fst (Stats rl w) in
     stats !! "enabled" = Some (Bool (IsEnabled rl))
     /\ if IsEnabled rl then
          (exists lim,
              limiter rl = Some lim
              /\ stats !! "limit" = Some (Float64 (rate.limit lim))
              /\ stats !! "burst" = Some (Int (rate.burst lim))
              /\ stats !! "tokens"
                 = Some (Float64 (rate.TokensAt lim (clock w (ticks w)))))
          /\ dom stats = {["enabled"; "limit"; "burst"; "tokens"]}
        else dom stats = {["enabled"]}.
Proof.
  split; [discriminate|].
  apply (Stats_keys (Spec.limiter_for 10 1) (answering a_time 3600)).
  discriminate.
Defined.

End RateLimiter.

(** ** Binary64 arithmetic on the values the limiter computes with

    [SpecFloat] computes on mantissas and exponents; the lemmas below
    relate what it computes to integer arithmetic, for positive numbers
    away from the subnormal range and from overflow. *)

Section Binary64.

Lemma digits2_size (p : positive) : digits2_pos p = Pos.size p.
Proof. induction p; cbn; congruence. Qed.

Lemma digits2_log2 (p : positive) :
  Z.pos (digits2_pos p) = Z.log2 (Z.pos p) + 1.
Proof. rewrite digits2_size. destruct p; cbn [Z.log2 Pos.size]; lia. Qed.

(** A positive number of [d] binary digits lies between [2^(d-1)] and
    [2^d]. *)
Lemma digits2_bounds (p : positive) :
  2 ^ (Z.pos (digits2_pos p) - 1) <= Z.pos p < 2 ^ Z.pos (digits2_pos p).
Proof.
  rewrite digits2_log2. replace (Z.log2 (Z.pos p) + 1 - 1) with (Z.log2 (Z.pos p)) by lia.
  pose proof (Z.log2_spec (Z.pos p)) as H. unfold Z.succ in H. apply H. lia.
Qed.

Lemma digits2_unique (p : positive) (d : Z) :
  2 ^ (d - 1) <= Z.pos p < 2 ^ d -> Z.pos (digits2_pos p) = d.
Proof.
  intros H. rewrite digits2_log2.
  assert (0 <= d - 1).
  { destruct (Z.le_gt_cases 0 (d - 1)) as [|Hn]; [assumption|].
    rewrite (Z.pow_neg_r 2 (d - 1)) in H by lia.
    destruct (Z.eq_dec d 0) as [->|]; [cbn in H; lia|].
    rewrite (Z.pow_neg_r 2 d) in H by lia. lia. }
  rewrite (Z.log2_unique (Z.pos p) (d - 1)); [lia|lia|].
  replace (Z.succ (d - 1)) with d by lia. exact H.
Qed.

Lemma iter_pos_iter {A : Type} (f : A -> A) (p : positive) (x : A) :
  SpecFloat.iter_pos f p x = Pos.iter f x p.
Proof.
  revert x. induction p as [p IH|p IH|]; intros x; cbn.
  - rewrite !IH, !Pos.iter_swap. reflexivity.
  - rewrite !IH. reflexivity.
  - reflexivity.
Qed.

(** One step of a shift to the right: the mantissa is halved, the bit
    that falls off is the rounding bit, the old rounding bit joins the
    sticky bit. *)
Lemma shr_1_spec (m : Z) (r s : bool) :
  0 <= m ->
  shr_1 {| shr_m := m; shr_r := r; shr_s := s |}
  = {| shr_m := m / 2; shr_r := Z.odd m; shr_s := r || s |}.
Proof.
  intros Hm. destruct m as [|[p|p|]|]; try lia; cbn [shr_1].
  - reflexivity.
  - replace (Z.pos p~1 / 2) with (Z.pos p); [reflexivity|].
    rewrite Pos2Z.inj_xI. apply (Z.div_unique _ _ _ 1); lia.
  - replace (Z.pos p~0 / 2) with (Z.pos p); [reflexivity|].
    rewrite Pos2Z.inj_xO. apply (Z.div_unique _ _ _ 0); lia.
  - reflexivity.
Qed.

(** [p] steps: the mantissa is divided by [2^p]; a shift that drops only
    zeros from an exact number leaves it exact. *)
Lemma shr_iter_spec (M : Z) (r s : bool) (p : positive) :
  0 <= M ->
  let res := SpecFloat.iter_pos shr_1 p {| shr_m := M; shr_r := r; shr_s := s |} in
  shr_m res = M / 2 ^ Z.pos p
  /\ (r = false -> s = false -> M mod 2 ^ Z.pos p = 0 ->
      shr_r res = false /\ shr_s res = false).
Proof.
  intros HM. cbv zeta. rewrite iter_pos_iter.
  apply (Pos.iter_ind _ shr_1 {| shr_m := M; shr_r := r; shr_s := s |}
           (fun p a => (shr_m a = M / 2 ^ Z.pos p
                        /\ (r = false -> s = false -> M mod 2 ^ Z.pos p = 0 ->
                            shr_r a = false /\ shr_s a = false)))).
  - rewrite shr_1_spec by assumption. cbn. split; [reflexivity|].
    intros -> -> Hmod. split; [|reflexivity].
    rewrite <- Z.negb_even. rewrite Zeven_mod. change (2 ^ 1) with 2 in Hmod.
    now rewrite Hmod.
  - intros q [m' r' s'] [Hm Hex]. cbn in Hm.
    assert (0 <= m') by (rewrite Hm; apply Z.div_pos; [lia|apply Z.pow_pos_nonneg; lia]).
    rewrite shr_1_spec by assumption. cbn [shr_m shr_r shr_s].
    rewrite Pos2Z.inj_succ, Z.pow_succ_r by lia.
    split.
    + rewrite Hm, Z.div_div by (try lia; apply Z.pow_pos_nonneg; lia).
      f_equal. lia.
    + intros Hr Hs Hmod.
      assert (Hp : 0 < 2 ^ Z.pos q) by (apply Z.pow_pos_nonneg; lia).
      assert (Hmod' : M mod 2 ^ Z.pos q = 0).
      { apply Z.mod_divide in Hmod; [|lia]. apply Z.mod_divide; [lia|].
        destruct Hmod as [c Hc]. exists (c * 2). lia. }
      destruct (Hex Hr Hs Hmod') as [Hr' Hs']. cbn in Hr', Hs'. subst r' s'.
      split; [|reflexivity].
      rewrite Hm. rewrite <- Z.negb_even, Zeven_mod.
      apply Z.mod_divide in Hmod; [|lia]. destruct Hmod as [c Hc].
      replace M with ((c * 2) * 2 ^ Z.pos q) by lia.
      rewrite Z.div_mul by lia. rewrite Z.mod_mul by lia. reflexivity.
Qed.

Lemma fexp_normal (x : Z) :
  -1074 <= x - 53 -> fexp float64.prec float64.emax x = x - 53.
Proof. unfold fexp, emin, float64.prec, float64.emax. lia. Qed.

Lemma round_nearest_even_bounds (m : Z) (l : location) :
  m <= round_nearest_even m l <= m + 1.
Proof. destruct l as [|[]]; cbn; try destruct (Z.even m); lia. Qed.

Lemma pow2_pos (n : Z) : 0 <= n -> 0 < 2 ^ n.
Proof. intros. apply Z.pow_pos_nonneg; lia. Qed.

(** The shift that brings a mantissa of [D >= 53] digits to 53 digits
    divides it by [2^(D-53)]. *)
Lemma shr_fexp_spec (M : positive) (e : Z) (l : location) :
  53 <= Z.pos (digits2_pos M) ->
  -1074 <= e + (Z.pos (digits2_pos M) - 53) ->
  exists mrs,
    shr_fexp float64.prec float64.emax (Z.pos M) e l
    = (mrs, e + (Z.pos (digits2_pos M) - 53))
    /\ shr_m mrs = Z.pos M / 2 ^ (Z.pos (digits2_pos M) - 53)
    /\ (l = loc_Exact -> Z.pos M mod 2 ^ (Z.pos (digits2_pos M) - 53) = 0 ->
        loc_of_shr_record mrs = loc_Exact).
Proof.
  set (D := Z.pos (digits2_pos M)). intros HD He.
  unfold shr_fexp. cbn [Zdigits2]. fold D.
  rewrite fexp_normal by lia.
  replace (D + e - 53 - e) with (D - 53) by lia.
  destruct (D - 53) as [|p|p] eqn:Hn; try lia.
  - cbn [shr]. eexists. split; [f_equal; lia|]. split.
    + destruct l as [|[]]; cbn; now rewrite Z.div_1_r.
    + intros -> _. reflexivity.
  - cbn [shr].
    assert (HM : 0 <= Z.pos M) by lia.
    eexists. split; [reflexivity|].
    destruct l as [|[]]; cbn [shr_record_of_loc];
      match goal with
      | |- context [SpecFloat.iter_pos shr_1 p {| shr_m := _; shr_r := ?r; shr_s := ?s |}] =>
          destruct (shr_iter_spec (Z.pos M) r s p HM) as [Hm Hex]
      end; (split; [exact Hm|]); intros Hl Hmod; try discriminate.
    destruct (Hex eq_refl eq_refl Hmod) as [Hr Hs].
    destruct (SpecFloat.iter_pos shr_1 p _) as [m' r' s']. cbn in Hr, Hs.
    subst r' s'. reflexivity.
Qed.

(** Rounding a positive mantissa of at least 53 digits, away from the
    subnormal range: the result is a normal number, or infinity when the
    exponent is too large.  The value, in units of the last place kept,
    is the mantissa divided by the power of two dropped, or one more; and
    exactly that quotient when only zeros are dropped. *)
Lemma binary_round_aux_gen (M : positive) (e : Z) (l : location) :
  let k := Z.pos (digits2_pos M) - 53 in
  0 <= k -> -1074 <= e + k ->
  exists m2 e2,
    binary_round_aux float64.prec float64.emax false (Z.pos M) e l
    = (if e2 <=? 971 then S754_finite false m2 e2 else S754_infinity false)
    /\ Z.pos (digits2_pos m2) = 53
    /\ e + k <= e2 <= e + k + 1
    /\ Z.pos M / 2 ^ k <= Z.pos m2 * 2 ^ (e2 - (e + k)) <= Z.pos M / 2 ^ k + 1
    /\ (l = loc_Exact -> Z.pos M mod 2 ^ k = 0 ->
        Z.pos m2 = Z.pos M / 2 ^ k /\ e2 = e + k).
Proof.
  intros k Hk He. subst k.
  set (D := Z.pos (digits2_pos M)) in *.
  destruct (shr_fexp_spec M e l) as (mrs & E1 & Hm1 & Hex1); [fold D; lia..|].
  fold D in E1, Hm1, Hex1.
  unfold binary_round_aux. rewrite E1.
  set (m1 := Z.pos M / 2 ^ (D - 53)) in *.
  assert (Hp : 0 < 2 ^ (D - 53)) by (apply pow2_pos; lia).
  assert (Hb : 2 ^ 52 <= m1 < 2 ^ 53).
  { pose proof (digits2_bounds M) as HB. fold D in HB.
    replace (D - 1) with (52 + (D - 53)) in HB by lia.
    replace D with (53 + (D - 53)) in HB at 2 by lia.
    rewrite !Z.pow_add_r in HB by lia.
    unfold m1. split.
    - apply Z.div_le_lower_bound; lia.
    - apply Z.div_lt_upper_bound; lia. }
  set (m2' := round_nearest_even (shr_m mrs) (loc_of_shr_record mrs)).
  assert (Hr : m1 <= m2' <= m1 + 1).
  { unfold m2'. rewrite Hm1. apply round_nearest_even_bounds. }
  assert (Hexact : l = loc_Exact -> Z.pos M mod 2 ^ (D - 53) = 0 -> m2' = m1).
  { intros Hl Hmod. unfold m2'. rewrite (Hex1 Hl Hmod), Hm1. reflexivity. }
  destruct m2' as [|q|q] eqn:Eq; try lia.
  change (float64.emax - float64.prec) with 971.
  destruct (Z.eq_dec (Z.pos q) (2 ^ 53)) as [Hq|Hq].
  - (* the rounding carried into a 54th digit *)
    assert (Hd : Z.pos (digits2_pos q) = 54).
    { apply digits2_unique. rewrite Hq. change (54 - 1) with 53. lia. }
    unfold shr_fexp. cbn [Zdigits2]. rewrite Hd.
    rewrite fexp_normal by lia.
    replace (54 + (e + (D - 53)) - 53 - (e + (D - 53))) with 1 by lia.
    cbn [shr shr_record_of_loc SpecFloat.iter_pos].
    rewrite shr_1_spec by lia. cbn [shr_m].
    rewrite Hq. change (2 ^ 53 / 2) with (Z.pos (2 ^ 52)).
    exists (2 ^ 52)%positive, (e + (D - 53) + 1).
    split; [reflexivity|]. split; [reflexivity|]. split; [lia|]. split.
    + replace (e + (D - 53) + 1 - (e + (D - 53))) with 1 by lia.
      change (Z.pos (2 ^ 52) * 2 ^ 1) with (2 ^ 53). lia.
    + intros Hl Hmod. specialize (Hexact Hl Hmod). lia.
  - assert (Hd : Z.pos (digits2_pos q) = 53).
    { apply digits2_unique. change (53 - 1) with 52. lia. }
    unfold shr_fexp. cbn [Zdigits2]. rewrite Hd.
    rewrite fexp_normal by lia.
    replace (53 + (e + (D - 53)) - 53 - (e + (D - 53))) with 0 by lia.
    cbn [shr shr_record_of_loc shr_m].
    exists q, (e + (D - 53)).
    split; [reflexivity|]. split; [exact Hd|]. split; [lia|]. split.
    + rewrite Z.sub_diag, Z.mul_1_r. lia.
    + intros Hl Hmod. specialize (Hexact Hl Hmod). lia.
Qed.

(** The same away from overflow: the result is a normal number. *)
Lemma binary_round_aux_spec (M : positive) (e : Z) (l : location) :
  let k := Z.pos (digits2_pos M) - 53 in
  0 <= k -> -1074 <= e + k -> e + k + 1 <= 971 ->
  exists m2 e2,
    binary_round_aux float64.prec float64.emax false (Z.pos M) e l
    = S754_finite false m2 e2
    /\ Z.pos (digits2_pos m2) = 53
    /\ e + k <= e2 <= e + k + 1
    /\ Z.pos M / 2 ^ k <= Z.pos m2 * 2 ^ (e2 - (e + k)) <= Z.pos M / 2 ^ k + 1
    /\ (l = loc_Exact -> Z.pos M mod 2 ^ k = 0 ->
        Z.pos m2 = Z.pos M / 2 ^ k /\ e2 = e + k).
Proof.
  intros k Hk He Ho.
  destruct (binary_round_aux_gen M e l Hk He) as (m2 & e2 & E & H).
  exists m2, e2. split; [|exact H].
  rewrite E. destruct H as (_ & He2 & _).
  replace (e2 <=? 971) with true; [reflexivity|].
  symmetry. apply Z.leb_le. fold k in He2. lia.
Qed.

Lemma iter_xO_spec (m d : positive) :
  Z.pos (Pos.iter xO m d) = Z.pos m * 2 ^ Z.pos d.
Proof.
  change (Pos.iter xO m d) with (Zpower.shift_pos d m).
  rewrite Zpower.shift_pos_correct. change (Z.pow_pos 2 d) with (2 ^ Z.pos d). lia.
Qed.

Lemma digits2_shift (m : positive) (d : Z) (q : positive) :
  0 <= d -> Z.pos q = Z.pos m * 2 ^ d ->
  Z.pos (digits2_pos q) = Z.pos (digits2_pos m) + d.
Proof.
  intros Hd Hq. apply digits2_unique. rewrite Hq.
  pose proof (digits2_bounds m) as [Hl Hu].
  pose proof (pow2_pos d Hd).
  replace (Z.pos (digits2_pos m) + d - 1) with (Z.pos (digits2_pos m) - 1 + d) by lia.
  rewrite !Z.pow_add_r by lia. split.
  - apply Z.mul_le_mono_nonneg_r; lia.
  - apply Z.mul_lt_mono_pos_r; lia.
Qed.

(** Normalising a mantissa of at most 53 digits is exact: the mantissa
    is shifted to the left until it has 53 digits. *)
Lemma binary_round_small (M : positive) (e : Z) :
  let D := Z.pos (digits2_pos M) in
  D <= 53 -> -1074 <= e + D - 53 -> e + D - 53 + 1 <= 971 ->
  binary_round float64.prec float64.emax false M e
  = S754_finite false (Z.to_pos (Z.pos M * 2 ^ (53 - D))) (e + D - 53).
Proof.
  intros D HD He Ho. unfold binary_round. fold D.
  rewrite fexp_normal by lia.
  unfold shl_align. replace (D + e - 53 - e) with (D - 53) by lia.
  assert (Hq : exists q : positive,
             Z.pos q = Z.pos M * 2 ^ (53 - D)
             /\ (match D - 53 with Z.neg d => (Pos.iter xO M d, D + e - 53) | _ => (M, e) end)
                = (q, e + D - 53)).
  { destruct (D - 53) as [|p|p] eqn:Hn; try lia.
    - exists M. replace (53 - D) with 0 by lia. split; [lia|f_equal; lia].
    - exists (Pos.iter xO M p). split; [|f_equal; lia].
      rewrite iter_xO_spec. f_equal. f_equal. lia. }
  destruct Hq as (q & Hq & ->).
  assert (Hdq : Z.pos (digits2_pos q) = 53).
  { rewrite (digits2_shift M (53 - D) q) by (try lia; exact Hq). fold D. lia. }
  destruct (binary_round_aux_spec q (e + D - 53) loc_Exact)
    as (m2 & e2 & E & _ & _ & _ & Hex); try (rewrite Hdq; lia).
  rewrite E. rewrite Hdq in Hex. change (2 ^ (53 - 53)) with 1 in Hex.
  destruct (Hex eq_refl (Z.mod_1_r _)) as [Hm ->].
  rewrite Z.div_1_r in Hm. f_equal; [|lia].
  rewrite <- Hq, <- Hm. now rewrite Pos2Z.id.
Qed.

(** Normalising a mantissa of 53 digits or more rounds it. *)
Lemma binary_round_large (M : positive) (e : Z) :
  53 <= Z.pos (digits2_pos M) ->
  binary_round float64.prec float64.emax false M e
  = binary_round_aux float64.prec float64.emax false (Z.pos M) e loc_Exact.
Proof.
  intros HD. unfold binary_round.
  assert (He : fexp float64.prec float64.emax (Z.pos (digits2_pos M) + e) - e >= 0).
  { unfold fexp, emin, float64.prec, float64.emax. lia. }
  unfold shl_align.
  destruct (fexp float64.prec float64.emax (Z.pos (digits2_pos M) + e) - e);
    try reflexivity. lia.
Qed.

Lemma log2_below_53 (n : Z) : 0 < n < 2 ^ 53 -> 0 <= Z.log2 n < 53.
Proof.
  intros H. split; [apply Z.log2_nonneg|].
  apply Z.log2_lt_pow2; lia.
Qed.

Lemma of_int_fl (n : Z) : 0 < n < 2 ^ 53 -> float64.of_int n = fl n.
Proof.
  intros H. pose proof (log2_below_53 n H) as HL.
  destruct n as [|p|p]; try lia.
  unfold float64.of_int, binary_normalize, fl.
  rewrite binary_round_small; rewrite digits2_log2; try lia.
  f_equal; lia.
Qed.

Lemma shl_align_spec (mx : positive) (ex ez : Z) :
  ez <= ex -> Z.pos (fst (shl_align mx ex ez)) = Z.pos mx * 2 ^ (ex - ez).
Proof.
  intros H. unfold shl_align.
  destruct (ez - ex) as [|p|p] eqn:E; try lia.
  - replace (ex - ez) with 0 by lia. cbn [fst]. lia.
  - cbn [fst]. rewrite iter_xO_spec. f_equal. f_equal. lia.
Qed.

(** Sum and difference of two positive numbers: the exact sum or
    difference of the mantissas, aligned at the smaller exponent, is
    normalised. *)
Lemma add_finite (mx my : positive) (ex ey : Z) :
  float64.add (S754_finite false mx ex) (S754_finite false my ey)
  = binary_normalize float64.prec float64.emax
      (Z.pos mx * 2 ^ (ex - Z.min ex ey) + Z.pos my * 2 ^ (ey - Z.min ex ey))
      (Z.min ex ey) false.
Proof.
  unfold float64.add, SFadd. cbn [cond_Zopp].
  rewrite !shl_align_spec by lia. reflexivity.
Qed.

Lemma sub_finite (mx my : positive) (ex ey : Z) :
  float64.sub (S754_finite false mx ex) (S754_finite false my ey)
  = binary_normalize float64.prec float64.emax
      (Z.pos mx * 2 ^ (ex - Z.min ex ey) - Z.pos my * 2 ^ (ey - Z.min ex ey))
      (Z.min ex ey) false.
Proof.
  unfold float64.sub, SFsub. cbn [cond_Zopp].
  rewrite !shl_align_spec by lia. reflexivity.
Qed.

Lemma fl_mantissa (n : Z) :
  0 < n < 2 ^ 53 ->
  Z.pos (Z.to_pos (n * 2 ^ (53 - (Z.log2 n + 1)))) = n * 2 ^ (53 - (Z.log2 n + 1)).
Proof.
  intros H. pose proof (log2_below_53 n H).
  rewrite Z2Pos.id; [reflexivity|].
  apply Z.mul_pos_pos; [lia|apply pow2_pos; lia].
Qed.

(** Withdrawing one token from a whole number of tokens is exact. *)
Lemma sub_one_exact (k : Z) :
  1 <= k < 2 ^ 53 ->
  float64.sub (fl k) (float64.of_int 1) = float64.of_int (k - 1).
Proof.
  intros Hk. pose proof (log2_below_53 k ltac:(lia)) as HL.
  change (float64.of_int 1) with (S754_finite false (2 ^ 52) (-52)).
  unfold fl at 1. rewrite sub_finite.
  rewrite fl_mantissa by lia.
  replace (Z.min (Z.log2 k + 1 - 53) (-52)) with (-52) by lia.
  replace (Z.log2 k + 1 - 53 - -52) with (Z.log2 k) by lia.
  change (-52 - -52) with 0. rewrite Z.pow_0_r, Z.mul_1_r.
  rewrite <- Z.mul_assoc, <- Z.pow_add_r by lia.
  replace (53 - (Z.log2 k + 1) + Z.log2 k) with 52 by lia.
  change (Z.pos (2 ^ 52)) with (2 ^ 52).
  replace (k * 2 ^ 52 - 2 ^ 52) with ((k - 1) * 2 ^ 52) by lia.
  destruct (Z.eq_dec k 1) as [->|Hne]; [reflexivity|].
  assert (Hk1 : 0 < k - 1 < 2 ^ 53) by lia.
  pose proof (log2_below_53 (k - 1) Hk1) as HL1.
  rewrite of_int_fl by lia.
  destruct ((k - 1) * 2 ^ 52) as [|M|M] eqn:EM; try lia.
  assert (HD : Z.pos (digits2_pos M) = Z.log2 (k - 1) + 1 + 52).
  { apply digits2_unique. rewrite <- EM.
    pose proof (Z.log2_spec (k - 1) ltac:(lia)) as [Hlo Hhi]. unfold Z.succ in Hhi.
    replace (Z.log2 (k - 1) + 1 + 52 - 1) with (Z.log2 (k - 1) + 52) by lia.
    rewrite (Z.pow_add_r 2 (Z.log2 (k - 1)) 52), (Z.pow_add_r 2 (Z.log2 (k - 1) + 1) 52) by lia.
    lia. }
  unfold binary_normalize. rewrite binary_round_large by lia.
  destruct (binary_round_aux_spec M (-52) loc_Exact)
    as (m2 & e2 & E & _ & _ & _ & Hex); try (rewrite HD; lia).
  rewrite E. rewrite HD in Hex.
  replace (Z.log2 (k - 1) + 1 + 52 - 53) with (Z.log2 (k - 1)) in Hex by lia.
  assert (Hsplit : Z.pos M = (k - 1) * 2 ^ (52 - Z.log2 (k - 1)) * 2 ^ Z.log2 (k - 1)).
  { rewrite <- EM, <- Z.mul_assoc, <- Z.pow_add_r by lia. do 2 f_equal. lia. }
  destruct (Hex eq_refl) as [Hm ->].
  { rewrite Hsplit. apply Z.mod_mul. pose proof (pow2_pos (Z.log2 (k - 1))). lia. }
  rewrite Hsplit, Z.div_mul in Hm by (pose proof (pow2_pos (Z.log2 (k - 1))); lia).
  unfold fl. f_equal; [|lia].
  apply Pos2Z.inj. rewrite Hm, fl_mantissa by lia. do 2 f_equal. lia.
Qed.

Lemma div_eucl_div_mod (a b : Z) : Z.div_eucl a b = (a / b, a mod b).
Proof. unfold Z.div, Z.modulo. now destruct (Z.div_eucl a b). Qed.

(** Dividing a normal number by one is exact. *)
Lemma div_by_one (mx : positive) (ex : Z) :
  Z.pos (digits2_pos mx) = 53 -> -1073 <= ex <= 970 ->
  float64.div (S754_finite false mx ex) (float64.of_int 1)
  = S754_finite false mx ex.
Proof.
  intros Hd He.
  change (float64.of_int 1) with (S754_finite false (2 ^ 52) (-52)).
  unfold float64.div, SFdiv, SFdiv_core_binary. cbn [Zdigits2 xorb].
  rewrite Hd. change (Z.pos (digits2_pos (2 ^ 52))) with 53.
  rewrite fexp_normal by lia.
  replace (Z.min (53 + ex - (53 + -52) - 53) (ex - -52)) with (ex - 1) by lia.
  replace (ex - -52 - (ex - 1)) with 53 by lia.
  rewrite div_eucl_div_mod, Z.shiftl_mul_pow2 by lia.
  replace (Z.pos mx * 2 ^ 53) with (Z.pos mx~0 * Z.pos (2 ^ 52))
    by (rewrite Pos2Z.inj_xO; change (Z.pos (2 ^ 52)) with (2 ^ 52);
        change (2 ^ 53) with (2 * 2 ^ 52); lia).
  rewrite Z.div_mul, Z.mod_mul by lia.
  change (new_location (Z.pos (2 ^ 52)) 0) with loc_Exact.
  assert (Hd2 : Z.pos (digits2_pos mx~0) = 54) by (cbn [digits2_pos]; lia).
  destruct (binary_round_aux_spec mx~0 (ex - 1) loc_Exact)
    as (m2 & e2 & E & _ & _ & _ & Hex); try (rewrite Hd2; lia).
  rewrite E. rewrite Hd2 in Hex. change (2 ^ (54 - 53)) with 2 in Hex.
  assert (Hmx : Z.pos mx~0 = Z.pos mx * 2) by lia.
  destruct (Hex eq_refl) as [Hm ->].
  { rewrite Hmx. apply Z.mod_mul. lia. }
  rewrite Hmx, Z.div_mul in Hm by lia.
  f_equal; [now apply Pos2Z.inj|lia].
Qed.

Lemma fl_digits (n : Z) :
  0 < n < 2 ^ 53 ->
  Z.pos (digits2_pos (Z.to_pos (n * 2 ^ (53 - (Z.log2 n + 1))))) = 53.
Proof.
  intros H. pose proof (log2_below_53 n H) as HL.
  apply digits2_unique. rewrite fl_mantissa by lia.
  pose proof (Z.log2_spec n ltac:(lia)) as [Hlo Hhi]. unfold Z.succ in Hhi.
  set (c := 53 - (Z.log2 n + 1)).
  assert (H52 : 2 ^ (53 - 1) = 2 ^ Z.log2 n * 2 ^ c)
    by (rewrite <- Z.pow_add_r by lia; f_equal; lia).
  assert (H53 : 2 ^ 53 = 2 ^ (Z.log2 n + 1) * 2 ^ c)
    by (rewrite <- Z.pow_add_r by lia; f_equal; lia).
  rewrite H52, H53.
  pose proof (pow2_pos c ltac:(lia)).
  split; [apply Z.mul_le_mono_nonneg_r|apply Z.mul_lt_mono_pos_r]; lia.
Qed.

(** The limit of "N/s": [float64(N) / 1.0], which is [float64(N)]. *)
Lemma limit_per_second (n : Z) :
  0 < n < 2 ^ 53 ->
  float64.div (float64.of_int n) (time.Seconds time.Second) = fl n.
Proof.
  intros H. pose proof (log2_below_53 n H) as HL.
  change (time.Seconds time.Second) with (float64.of_int 1).
  rewrite of_int_fl by lia. unfold fl.
  apply div_by_one; [now apply fl_digits|lia].
Qed.

(** *** Comparisons *)

Lemma ltb_fl (n j : Z) :
  0 < j <= n -> n < 2 ^ 53 -> float64.ltb (fl n) (fl j) = false.
Proof.
  intros Hj Hn. unfold float64.ltb, SFltb, fl, SFcompare.
  pose proof (Z.log2_le_mono j n ltac:(lia)) as Hlog.
  pose proof (log2_below_53 n ltac:(lia)) as HLn.
  pose proof (log2_below_53 j ltac:(lia)) as HLj.
  destruct (Z.compare_spec (Z.log2 n + 1 - 53) (Z.log2 j + 1 - 53)) as [He|He|He];
    [|lia|reflexivity].
  assert (HL : Z.log2 n = Z.log2 j) by lia.
  rewrite Pos.compare_cont_spec.
  destruct (Pos.compare_spec (Z.to_pos (n * 2 ^ (53 - (Z.log2 n + 1))))
              (Z.to_pos (j * 2 ^ (53 - (Z.log2 j + 1))))) as [Hc|Hc|Hc];
    try reflexivity.
  apply Pos2Z.pos_lt_pos in Hc. rewrite !fl_mantissa in Hc by lia.
  rewrite HL in Hc.
  pose proof (pow2_pos (53 - (Z.log2 j + 1)) ltac:(lia)) as Hp.
  apply Z.mul_lt_mono_pos_r in Hc; lia.
Qed.

(** *** Non-negative numbers *)

Lemma shr_nonneg (mrs : shr_record) (e n : Z) :
  0 <= shr_m mrs -> 0 <= shr_m (fst (shr mrs e n)).
Proof.
  intros H. destruct mrs as [m r s]. destruct n as [|p|p]; cbn [shr fst]; try exact H.
  destruct (shr_iter_spec m r s p H) as [-> _].
  apply Z.div_pos; [exact H|apply pow2_pos; lia].
Qed.

Lemma shr_record_of_loc_m (m : Z) (l : location) : shr_m (shr_record_of_loc m l) = m.
Proof. destruct l as [|[]]; reflexivity. Qed.

Lemma shr_fexp_nonneg (m e : Z) (l : location) :
  0 <= m -> 0 <= shr_m (fst (shr_fexp float64.prec float64.emax m e l)).
Proof.
  intros H. unfold shr_fexp. apply shr_nonneg. now rewrite shr_record_of_loc_m.
Qed.

Lemma nonneg_round_aux (m e : Z) (l : location) :
  0 <= m ->
  float64.nonneg (binary_round_aux float64.prec float64.emax false m e l) = true.
Proof.
  intros H. unfold binary_round_aux.
  pose proof (shr_fexp_nonneg m e l H) as H1.
  destruct (shr_fexp float64.prec float64.emax m e l) as [mrs' e']. cbn [fst] in H1.
  pose proof (round_nearest_even_bounds (shr_m mrs') (loc_of_shr_record mrs')) as H2.
  pose proof (shr_fexp_nonneg
                (round_nearest_even (shr_m mrs') (loc_of_shr_record mrs')) e' loc_Exact
                ltac:(lia)) as H3.
  destruct (shr_fexp float64.prec float64.emax _ e' loc_Exact) as [mrs'' e''].
  cbn [fst] in H3. destruct (shr_m mrs'') as [|q|q]; try lia; [reflexivity|].
  destruct (e'' <=? float64.emax - float64.prec); reflexivity.
Qed.

Lemma nonneg_round (m : positive) (e : Z) :
  float64.nonneg (binary_round float64.prec float64.emax false m e) = true.
Proof.
  unfold binary_round. destruct (shl_align m e _) as [mz ez].
  apply nonneg_round_aux. lia.
Qed.

Lemma nonneg_of_int (z : Z) : 0 <= z -> float64.nonneg (float64.of_int z) = true.
Proof.
  intros H. unfold float64.of_int, binary_normalize.
  destruct z as [|p|p]; try lia; [reflexivity|apply nonneg_round].
Qed.

Lemma nonneg_add (x y : spec_float) :
  float64.nonneg x = true -> float64.nonneg y = true ->
  float64.nonneg (float64.add x y) = true.
Proof.
  destruct x as [[|]|[|]| |[|] mx ex]; try discriminate;
    destruct y as [[|]|[|]| |[|] my ey]; try discriminate; intros _ _;
    try reflexivity.
  rewrite add_finite.
  pose proof (pow2_pos (ex - Z.min ex ey) ltac:(lia)).
  pose proof (pow2_pos (ey - Z.min ex ey) ltac:(lia)).
  destruct (Z.pos mx * 2 ^ (ex - Z.min ex ey) + Z.pos my * 2 ^ (ey - Z.min ex ey))
    as [|p|p] eqn:E; try lia.
  apply nonneg_round.
Qed.

Lemma nonneg_mul (x y : spec_float) :
  float64.nonneg x = true -> float64.nonneg y = true ->
  (exists m e, y = S754_finite false m e) ->
  float64.nonneg (float64.mul x y) = true.
Proof.
  intros Hx _ (m & e & ->).
  destruct x as [[|]|[|]| |[|] mx ex]; try discriminate; try reflexivity.
  unfold float64.mul, SFmul. cbn [xorb]. apply nonneg_round_aux. lia.
Qed.

Lemma nonneg_div (x y : spec_float) :
  float64.nonneg x = true ->
  (exists m e, y = S754_finite false m e) ->
  float64.nonneg (float64.div x y) = true.
Proof.
  intros Hx (m & e & ->).
  destruct x as [[|]|[|]| |[|] mx ex]; try discriminate; try reflexivity.
  unfold float64.div, SFdiv, SFdiv_core_binary. cbn [xorb].
  set (s := _ - _ - _).
  set (m' := match s with Z.pos _ => Z.shiftl (Z.pos mx) s | 0 => Z.pos mx | Z.neg _ => 0 end).
  assert (Hm' : 0 <= m').
  { unfold m'. destruct s; try lia. apply Z.shiftl_nonneg. lia. }
  rewrite div_eucl_div_mod. apply nonneg_round_aux.
  apply Z.div_pos; lia.
Qed.

Lemma nonneg_Seconds (d : time.Duration) :
  0 <= d -> float64.nonneg (time.Seconds d) = true.
Proof.
  intros H. unfold time.Seconds.
  assert (0 < time.Second) by reflexivity.
  apply nonneg_add.
  - apply nonneg_of_int. apply Z.quot_pos; lia.
  - apply nonneg_div.
    + apply nonneg_of_int. apply Z.rem_nonneg; lia.
    + now eexists _, _.
Qed.

Lemma digits2_lower (M : positive) (a : Z) :
  0 <= a -> 2 ^ a <= Z.pos M -> a + 1 <= Z.pos (digits2_pos M).
Proof.
  intros Ha H. pose proof (digits2_bounds M) as [_ Hu].
  assert (2 ^ a < 2 ^ Z.pos (digits2_pos M)) as Hlt by lia.
  apply Z.pow_lt_mono_r_iff in Hlt; lia.
Qed.

(** *** The refill of a full bucket

    Adding a non-negative number of tokens to a full bucket and capping
    the sum at the burst leaves the bucket full: floating-point addition
    does not go below its first argument. *)
Lemma refill_full (n : Z) (delta : spec_float) :
  0 < n < 2 ^ 53 -> float64.nonneg delta = true ->
  (if float64.ltb (fl n) (float64.add (fl n) delta)
   then fl n else float64.add (fl n) delta) = fl n.
Proof.
  intros Hn Hd. pose proof (log2_below_53 n Hn) as HL.
  destruct delta as [[|]|[|]| |[|] my ey]; try discriminate.
  - change (float64.add (fl n) (S754_zero false)) with (fl n).
    now rewrite ltb_fl by lia.
  - reflexivity.
  - pose proof (fl_mantissa n Hn) as Hmx. pose proof (fl_digits n Hn) as Hdx.
    unfold fl in *.
    set (mx := Z.to_pos (n * 2 ^ (53 - (Z.log2 n + 1)))) in *.
    set (ex := Z.log2 n + 1 - 53) in *.
    rewrite add_finite.
    set (ez := Z.min ex ey).
    pose proof (pow2_pos (ex - ez) ltac:(lia)) as Hpx.
    pose proof (pow2_pos (ey - ez) ltac:(lia)) as Hpy.
    pose proof (digits2_bounds mx) as [Hlo _]. rewrite Hdx in Hlo.
    change (53 - 1) with 52 in Hlo.
    destruct (Z.pos mx * 2 ^ (ex - ez) + Z.pos my * 2 ^ (ey - ez))
      as [|M|M] eqn:EM; try lia.
    assert (HM : Z.pos mx * 2 ^ (ex - ez) <= Z.pos M) by lia.
    assert (HD : 53 + (ex - ez) <= Z.pos (digits2_pos M)).
    { replace (53 + (ex - ez)) with (52 + (ex - ez) + 1) by lia.
      apply digits2_lower; [lia|].
      rewrite Z.pow_add_r by lia.
      etransitivity; [|exact HM]. apply Z.mul_le_mono_nonneg_r; lia. }
    unfold binary_normalize. rewrite binary_round_large by lia.
    destruct (binary_round_aux_gen M ez loc_Exact)
      as (m2 & e2 & E & Hd2 & He2 & [Hv _] & _); try lia.
    rewrite E. destruct (e2 <=? 971); [|reflexivity].
    unfold float64.ltb, SFltb, SFcompare.
    set (k := Z.pos (digits2_pos M) - 53) in *.
    destruct (Z.compare_spec ex e2) as [He|He|He]; [|reflexivity|lia].
    assert (Hk : k = ex - ez) by lia.
    rewrite Pos.compare_cont_spec.
    destruct (Pos.compare_spec mx m2) as [Hc|Hc|Hc].
    + subst. reflexivity.
    + reflexivity.
    + exfalso. apply Pos2Z.pos_lt_pos in Hc.
      replace (e2 - (ez + k)) with 0 in Hv by lia. rewrite Z.mul_1_r in Hv.
      assert (Z.pos mx <= Z.pos M / 2 ^ k)
        by (apply Z.div_le_lower_bound; rewrite Hk; lia).
      lia.
Qed.

(** *** The time one token takes *)

(** [1.0 / float64(n)]: the quotient [q] of [2^105] by the mantissa of
    [n], rounded to 53 digits, at the exponent [-(log2 n) - 53]. *)
Lemma reciprocal_spec (n : Z) :
  0 < n < 2 ^ 53 ->
  exists mv ev,
    float64.div (float64.of_int 1) (fl n) = S754_finite false mv ev
    /\ Z.pos (digits2_pos mv) = 53
    /\ - Z.log2 n - 53 <= ev <= - Z.log2 n - 51
    /\ 2 ^ 105 / (n * 2 ^ (52 - Z.log2 n)) <= Z.pos mv * 2 ^ (ev + Z.log2 n + 53)
       <= 2 ^ 105 / (n * 2 ^ (52 - Z.log2 n)) + 2.
Proof.
  intros Hn. pose proof (log2_below_53 n Hn) as HL.
  pose proof (fl_mantissa n Hn) as Hmx. pose proof (fl_digits n Hn) as Hdx.
  change (float64.of_int 1) with (S754_finite false (2 ^ 52) (-52)).
  unfold fl in *. set (L := Z.log2 n) in *.
  replace (53 - (L + 1)) with (52 - L) in * by lia.
  set (mN := Z.to_pos (n * 2 ^ (52 - L))) in *.
  pose proof (digits2_bounds mN) as [HmNlo HmNhi]. rewrite Hdx in HmNlo, HmNhi.
  change (53 - 1) with 52 in HmNlo.
  unfold float64.div, SFdiv, SFdiv_core_binary. cbn [Zdigits2 xorb].
  rewrite Hdx. change (Z.pos (digits2_pos (2 ^ 52))) with 53.
  rewrite fexp_normal by lia.
  replace (Z.min (53 + -52 - (53 + (L + 1 - 53)) - 53) (-52 - (L + 1 - 53)))
    with (- L - 53) by lia.
  replace (-52 - (L + 1 - 53) - (- L - 53)) with 53 by lia.
  change (Z.shiftl (Z.pos (2 ^ 52)) 53) with (2 ^ 105).
  rewrite div_eucl_div_mod, Hmx.
  set (q := 2 ^ 105 / (n * 2 ^ (52 - L))).
  assert (Hq : 2 ^ 52 <= q <= 2 ^ 53).
  { unfold q. rewrite <- Hmx. split.
    - apply Z.div_le_lower_bound; [lia|].
      change (2 ^ 105) with (2 ^ 52 * 2 ^ 53). nia.
    - apply Z.div_le_upper_bound; [lia|].
      change (2 ^ 105) with (2 ^ 52 * 2 ^ 53). nia. }
  destruct q as [|Q|Q] eqn:EQ; try lia.
  assert (HDQ : 53 <= Z.pos (digits2_pos Q) <= 54).
  { split.
    - apply (digits2_lower Q 52); lia.
    - pose proof (digits2_bounds Q) as [Hlo _].
      assert (Hlt : 2 ^ (Z.pos (digits2_pos Q) - 1) < 2 ^ 54) by (change (2 ^ 54) with (2 * 2 ^ 53); lia).
      apply Z.pow_lt_mono_r_iff in Hlt; lia. }
  destruct (binary_round_aux_spec Q (- L - 53)
              (new_location (Z.pos mN) (2 ^ 105 mod (n * 2 ^ (52 - L)))))
    as (mv & ev & E & Hdv & Hev & Hv & _); try lia.
  rewrite Hmx in E. rewrite E. exists mv, ev.
  split; [reflexivity|]. split; [exact Hdv|]. split; [lia|].
  set (k := Z.pos (digits2_pos Q) - 53) in *.
  replace (ev + L + 53) with (ev - (- L - 53 + k) + k) by lia.
  rewrite Z.pow_add_r, Z.mul_assoc by lia.
  destruct (Z.eq_dec k 0) as [Hk|Hk].
  - rewrite Hk in *. change (2 ^ 0) with 1 in *. rewrite Z.div_1_r in Hv. lia.
  - assert (Hk1 : k = 1) by lia. rewrite Hk1 in *. change (2 ^ 1) with 2 in *.
    assert (HQ : Z.pos Q = 2 ^ 53).
    { pose proof (digits2_bounds Q) as [Hlo _].
      replace (Z.pos (digits2_pos Q) - 1) with 53 in Hlo by lia. lia. }
    rewrite HQ in *. change (2 ^ 53 / 2) with (2 ^ 52) in Hv.
    change (2 ^ 53) with (2 ^ 52 * 2). lia.
Qed.

(** At up to [10^9] tokens per second one token takes at least a
    nanosecond: [durationFromTokens], which truncates to nanoseconds, is
    positive. *)
Lemma wait_for_one_token (n : Z) :
  0 < n <= 10 ^ 9 ->
  0 < rate.durationFromTokens (fl n) (float64.of_int 1).
Proof.
  intros Hn.
  destruct (Z.eq_dec n (10 ^ 9)) as [->|Hne]; [vm_compute; reflexivity|].
  assert (Hn53 : 0 < n < 2 ^ 53) by lia.
  pose proof (log2_below_53 n Hn53) as HL.
  assert (HL30 : Z.log2 n < 30) by (apply Z.log2_lt_pow2; lia).
  pose proof (Z.log2_spec n ltac:(lia)) as [Hlo Hhi]. unfold Z.succ in Hhi.
  destruct (reciprocal_spec n Hn53) as (mv & ev & E & Hdv & Hev & Hq & _).
  unfold rate.durationFromTokens.
  change (float64.leb (fl n) rate.zero) with false. cbv iota.
  rewrite E.
  change (float64.of_int time.Second) with (S754_finite false 8388608000000000 (-23)).
  change (float64.of_int MaxInt64) with (S754_finite false (2 ^ 52) 11).
  unfold float64.mul, SFmul. cbn [xorb].
  set (L := Z.log2 n) in *.
  pose proof (digits2_bounds mv) as [Hmvlo Hmvhi]. rewrite Hdv in Hmvlo, Hmvhi.
  change (53 - 1) with 52 in Hmvlo.
  set (P := (mv * 8388608000000000)%positive).
  assert (HP : Z.pos P = Z.pos mv * (10 ^ 9 * 2 ^ 23)) by (unfold P; lia).
  assert (HDP : 105 <= Z.pos (digits2_pos P) <= 106).
  { split.
    - apply (digits2_lower P 104); [lia|]. rewrite HP.
      change (2 ^ 104) with (2 ^ 52 * 2 ^ 52). nia.
    - pose proof (digits2_bounds P) as [Hlo' _].
      assert (Hlt : 2 ^ (Z.pos (digits2_pos P) - 1) < 2 ^ 106).
      { rewrite HP in Hlo'. change (2 ^ 106) with (2 ^ 53 * 2 ^ 53). nia. }
      apply Z.pow_lt_mono_r_iff in Hlt; lia. }
  destruct (binary_round_aux_spec P (ev + -23) loc_Exact)
    as (mr & er & Er & Hdr & Her & [Hv _] & _); try lia.
  rewrite Er.
  set (k := Z.pos (digits2_pos P) - 53) in *.
  unfold float64.ltb, SFltb, SFcompare.
  destruct (Z.compare_spec 11 er) as [Hc|Hc|Hc]; try lia.
  unfold float64.to_int64, float64.trunc.
  replace (0 <=? er) with false by (symmetry; apply Z.leb_gt; lia).
  pose proof (digits2_bounds mr) as [Hmrlo Hmrhi]. rewrite Hdr in Hmrlo, Hmrhi.
  change (53 - 1) with 52 in Hmrlo.
  pose proof (pow2_pos (- er) ltac:(lia)) as Hper.
  assert (Hz : 1 <= Z.pos mr / 2 ^ (- er) < 2 ^ 53).
  { split; [|apply Z.div_lt_upper_bound; nia].
    apply Z.div_le_lower_bound; [lia|]. rewrite Z.mul_1_r.
    (* the mantissa of the quotient, times 10^9, reaches 2^(-ev) *)
    set (q := 2 ^ 105 / (n * 2 ^ (52 - L))) in *.
    pose proof (pow2_pos (52 - L) ltac:(lia)) as HpL.
    assert (Hqn : 2 ^ 105 < q * (10 ^ 9 * 2 ^ (52 - L))).
    { assert (Hdiv : 2 ^ 105 < q * (n * 2 ^ (52 - L)) + n * 2 ^ (52 - L)).
      { unfold q. pose proof (Z.mod_pos_bound (2 ^ 105) (n * 2 ^ (52 - L)) ltac:(nia)).
        pose proof (Z.div_mod (2 ^ 105) (n * 2 ^ (52 - L)) ltac:(nia)). nia. }
      assert (Hq52 : 2 ^ 52 <= q).
      { unfold q. apply Z.div_le_lower_bound; [nia|].
        change (2 ^ 105) with (2 ^ 52 * 2 ^ 53).
        assert (n * 2 ^ (52 - L) < 2 ^ 53).
        { replace 53 with (L + 1 + (52 - L)) by lia.
          rewrite (Z.pow_add_r 2 (L + 1)) by lia. nia. }
        nia. }
      assert (n + 1 <= 10 ^ 9) by lia.
      assert (q * (n * 2 ^ (52 - L)) + q * 2 ^ (52 - L)
              <= q * (10 ^ 9 * 2 ^ (52 - L))) by nia.
      assert (n * 2 ^ (52 - L) <= q * 2 ^ (52 - L)) by nia.
      lia. }
    (* from the quotient to its rounded mantissa *)
    set (a := ev + L + 53) in *.
    pose proof (pow2_pos a ltac:(lia)) as Hpa.
    assert (Hmv9 : 2 ^ (- ev) <= Z.pos mv * 10 ^ 9).
    { assert (H1 : 2 ^ 105 < Z.pos mv * 2 ^ a * (10 ^ 9 * 2 ^ (52 - L))) by nia.
      assert (H2 : 2 ^ 105 = 2 ^ (- ev) * (2 ^ a * 2 ^ (52 - L))).
      { rewrite <- !Z.pow_add_r by lia. f_equal. lia. }
      pose proof (pow2_pos (- ev) ltac:(lia)).
      assert (H3 : 2 ^ (- ev) * (2 ^ a * 2 ^ (52 - L))
                   < (Z.pos mv * 10 ^ 9) * (2 ^ a * 2 ^ (52 - L))) by lia.
      apply Z.mul_lt_mono_pos_r in H3; [lia|nia]. }
    (* from the product to its rounded mantissa *)
    pose proof (pow2_pos k ltac:(lia)) as Hpk.
    assert (HPk : 2 ^ (- (ev + -23 + k)) <= Z.pos P / 2 ^ k).
    { apply Z.div_le_lower_bound; [lia|].
      rewrite <- Z.pow_add_r by lia.
      replace (k + - (ev + -23 + k)) with (- ev + 23) by lia.
      rewrite Z.pow_add_r, HP by lia. nia. }
    set (b := er - (ev + -23 + k)) in *.
    pose proof (pow2_pos b ltac:(lia)) as Hpb.
    assert (H4 : 2 ^ (- er) * 2 ^ b <= Z.pos mr * 2 ^ b).
    { rewrite <- Z.pow_add_r by lia.
      replace (- er + b) with (- (ev + -23 + k)) by lia. lia. }
    apply Z.mul_le_mono_pos_r in H4; lia. }
  replace (in_int64 (Z.pos mr / 2 ^ (- er))) with true; [lia|].
  symmetry. unfold in_int64, MinInt64, MaxInt64. apply andb_true_intro.
  split; apply Z.leb_le; lia.
Qed.

End Binary64.

(** ** Reading back a number written in decimal *)

Section Numerals.

Lemma digits_acc (d : Decimal.uint) (acc : positive) :
  strconv.digits (Z.pos acc) (NilEmpty.string_of_uint d)
  = Some (Z.pos (Pos.of_uint_acc d acc)).
Proof.
  revert acc. induction d; intros acc; cbn [NilEmpty.string_of_uint Pos.of_uint_acc];
    [reflexivity|..];
    cbn [strconv.digits];
    match goal with
    | |- context [strconv.is_digit ?c] => change (strconv.is_digit c) with true
    end; cbv iota;
    match goal with
    | |- strconv.digits ?z _ = _ =>
        match goal with
        | |- _ = Some (Z.pos (Pos.of_uint_acc _ ?p)) =>
            replace z with (Z.pos p) by (unfold byte_of; cbn; lia)
        end
    end; apply IHd.
Qed.

Lemma digits_of_uint (d : Decimal.uint) :
  strconv.digits 0 (NilEmpty.string_of_uint d) = Some (Z.of_N (Pos.of_uint d)).
Proof.
  induction d; cbn [NilEmpty.string_of_uint Pos.of_uint]; [reflexivity|exact IHd|..];
    cbn [strconv.digits];
    match goal with
    | |- context [strconv.is_digit ?c] => change (strconv.is_digit c) with true
    end; cbv iota;
    match goal with
    | |- strconv.digits ?z _ = Some (Z.of_N (N.pos (Pos.of_uint_acc _ ?p))) =>
        change z with (Z.pos p)
    end; apply digits_acc.
Qed.

Lemma digits_no_slash (s : string) (n v : Z) :
  strconv.digits n s = Some v -> Spec.contains_slash s = false.
Proof.
  revert n. induction s as [|c s IH]; intros n H; [reflexivity|].
  cbn [strconv.digits] in H. destruct (strconv.is_digit c) eqn:Hc; [|discriminate].
  rewrite contains_slash_cons, (IH _ H), orb_false_r.
  destruct (Ascii.eqb_spec "/"%char c) as [<-|]; [discriminate|reflexivity].
Qed.

(** [Atoi] reads a positive [int] back from its decimal digits. *)
Lemma Atoi_Itoa (n : Z) :
  0 < n <= MaxInt64 ->
  strconv.Atoi (strconv.Itoa n) = Some n
  /\ Spec.contains_slash (strconv.Itoa n) = false.
Proof.
  intros Hn. destruct n as [|p|p]; try lia. unfold strconv.Itoa.
  pose proof (digits_of_uint (Pos.to_uint p)) as Hd.
  rewrite Unsigned.of_to in Hd. cbn [Z.of_N] in Hd.
  split; [|exact (digits_no_slash _ _ _ Hd)].
  destruct (NilEmpty.string_of_uint (Pos.to_uint p)) as [|c rest] eqn:Es;
    [discriminate|].
  assert (Hc : strconv.is_digit c = true).
  { cbn [strconv.digits] in Hd. destruct (strconv.is_digit c); [reflexivity|discriminate]. }
  unfold strconv.Atoi.
  assert (Hm : Ascii.eqb c "-"%char = false)
    by (destruct (Ascii.eqb_spec c "-"%char) as [->|]; [discriminate|reflexivity]).
  assert (Hp : Ascii.eqb c "+"%char = false)
    by (destruct (Ascii.eqb_spec c "+"%char) as [->|]; [discriminate|reflexivity]).
  rewrite Hm, Hp. cbn [orb]. rewrite Hd.
  replace (in_int64 (Z.pos p)) with true; [reflexivity|].
  symmetry. unfold in_int64, MinInt64, MaxInt64 in *. apply andb_true_intro.
  split; apply Z.leb_le; lia.
Qed.

Lemma split_at_slash (a b cur : string) :
  Spec.contains_slash a = false ->
  strings.split_from "/" O cur (a +:+ String "/" b)
  = (cur +:+ a) :: strings.split_from "/" O "" b.
Proof.
  revert cur. induction a as [|c a IH]; intros cur H.
  - change ("" +:+ String "/" b) with (String "/" b).
    rewrite split_from_slash, append_empty. reflexivity.
  - rewrite contains_slash_cons in H. apply orb_false_elim in H as [Hc Ha].
    change (String c a +:+ String "/" b) with (String c (a +:+ String "/" b)).
    rewrite split_from_slash, Hc, IH by exact Ha. now rewrite append_snoc.
Qed.

(** The limiter [New] builds from the rate specification "N/s". *)
Lemma New_per_second (n : Z) :
  0 < n < 2 ^ 53 ->
  ratelimit.New (strconv.Itoa n +:+ "/s")
  = inl {| ratelimit.limiter := Some (rate.NewLimiter (fl n) n);
           ratelimit.enabled := true |}.
Proof.
  intros Hn.
  destruct (Atoi_Itoa n) as [Ha Hs]; [unfold MaxInt64; lia|].
  unfold ratelimit.New.
  replace (String.eqb (strconv.Itoa n +:+ "/s") "") with false.
  2:{ symmetry. apply String.eqb_neq. destruct (strconv.Itoa n); discriminate. }
  unfold ratelimit.parseRate, strings.Split.
  rewrite split_at_slash by exact Hs.
  change (strings.split_from "/" 0 "" "s") with ["s"].
  change ("" +:+ strconv.Itoa n) with (strconv.Itoa n).
  rewrite Ha. replace (n <=? 0) with false by (symmetry; apply Z.leb_gt; lia).
  change (ratelimit.parseDuration "s") with (@inl time.Duration string time.Second).
  cbv iota. rewrite limit_per_second by exact Hn. reflexivity.
Qed.

End Numerals.

(** ** The bucket, call after call *)

Section Burst.

Import ratelimit.

Variable N : Z.
Hypothesis HN : 0 < N < 2 ^ 53.

Lemma elapsed_nonneg (t last : time.Time) :
  0 <= time.Sub t (if time.Before t last then t else last).
Proof using Type.
  unfold time.Sub, time.Before, time.minDuration, time.maxDuration,
    MinInt64, MaxInt64.
  destruct (t <? last) eqn:E; [|apply Z.ltb_ge in E]; lia.
Qed.

Lemma fl_not_Inf : float64.eqb (fl N) rate.Inf = false.
Proof using HN.
  pose proof (log2_below_53 N HN).
  unfold fl, float64.eqb, SFeqb, rate.Inf, float64.MaxFloat64, SFmax_float, SFcompare.
  change (float64.emax - float64.prec) with 971.
  destruct (Z.compare_spec (Z.log2 N + 1 - 53) 971); try reflexivity; lia.
Qed.

Lemma of_int_nonneg_not_below_zero (j : Z) :
  0 <= j -> float64.ltb (float64.of_int j) rate.zero = false.
Proof using Type.
  intros Hj. pose proof (nonneg_of_int j Hj) as H.
  destruct (float64.of_int j) as [[|]|[|]| |[|] m e]; try discriminate; reflexivity.
Qed.

(** A full bucket is full at any time; a bucket updated at [t] has at [t]
    what it had. *)
Lemma advance_bucket (j : Z) (t : time.Time) (lim : rate.Limiter) :
  0 <= j <= N -> Spec.bucket N j t lim ->
  rate.advance lim t = float64.of_int j.
Proof using HN.
  intros Hj (Hl & Hb & Ht & Hlast).
  unfold rate.advance, rate.tokensFromDuration. rewrite Hl, Hb, Ht.
  change (float64.leb (fl N) rate.zero) with false. cbv iota.
  rewrite (of_int_fl N HN).
  destruct (Z.eq_dec j N) as [->|Hne].
  - rewrite (of_int_fl N HN). apply refill_full; [exact HN|].
    apply nonneg_mul; [apply nonneg_Seconds, elapsed_nonneg|reflexivity|].
    unfold fl. now eexists _, _.
  - destruct Hlast as [|Hlast]; [contradiction|]. rewrite Hlast.
    unfold time.Before. rewrite Z.ltb_irrefl.
    unfold time.Sub. rewrite Z.sub_diag.
    change (Z.max time.minDuration (Z.min time.maxDuration 0)) with 0.
    change (time.Seconds 0) with (S754_zero false).
    change (float64.mul (S754_zero false) (fl N)) with (S754_zero false).
    destruct (Z.eq_dec j 0) as [->|Hj0].
    + reflexivity.
    + rewrite (of_int_fl j) by lia.
      change (float64.add (fl j) (S754_zero false)) with (fl j).
      now rewrite ltb_fl by lia.
Qed.

(** With a token in the bucket [AllowN(t, 1)] succeeds and takes it. *)
Lemma AllowN_takes_a_token (j : Z) (t : time.Time) (lim : rate.Limiter) :
  1 <= j <= N -> Spec.bucket N j t lim ->
  exists lim', rate.AllowN lim t 1 = (true, lim')
               /\ Spec.bucket N (j - 1) t lim'.
Proof using HN.
  intros Hj Hbk. pose proof (advance_bucket j t lim ltac:(lia) Hbk) as Hadv.
  destruct Hbk as (Hl & Hb & Ht & Hlast).
  unfold rate.AllowN, rate.reserveN. rewrite Hl, fl_not_Inf, Hadv, Hb.
  rewrite (of_int_fl j) by lia. rewrite sub_one_exact by lia.
  rewrite of_int_nonneg_not_below_zero by lia.
  replace (1 <=? N) with true by (symmetry; apply Z.leb_le; lia).
  cbn. eexists. split; [reflexivity|].
  repeat split; cbn; auto.
Qed.

(** With an empty bucket [AllowN(t, 1)] goes by the time one token takes,
    truncated to nanoseconds: the call is refused when that is positive,
    and succeeds, overdrawing the bucket, when it is zero. *)
Lemma AllowN_empty (t : time.Time) (lim : rate.Limiter) :
  Spec.bucket N 0 t lim ->
  rate.AllowN lim t 1
  = if rate.durationFromTokens (fl N) (float64.of_int 1) <=? 0
    then (true,
          {| rate.limit := fl N; rate.burst := N;
             rate.tokens := float64.of_int (-1); rate.last := t;
             rate.lastEvent :=
               time.Add t (rate.durationFromTokens (fl N) (float64.of_int 1)) |})
    else (false, lim).
Proof using HN.
  intros Hbk. pose proof (advance_bucket 0 t lim ltac:(lia) Hbk) as Hadv.
  destruct Hbk as (Hl & Hb & Ht & Hlast).
  unfold rate.AllowN, rate.reserveN. rewrite Hl, fl_not_Inf, Hadv, Hb.
  change (float64.sub (float64.of_int 0) (float64.of_int 1))
    with (float64.of_int (-1)).
  change (float64.ltb (float64.of_int (-1)) rate.zero) with true. cbv iota.
  change (float64.opp (float64.of_int (-1))) with (float64.of_int 1).
  replace (1 <=? N) with true by (symmetry; apply Z.leb_le; lia).
  cbn [andb]. destruct (_ <=? 0); reflexivity.
Qed.

Lemma no_time_passes_tick (w : World) (t : time.Time) :
  Spec.no_time_passes w t ->
  Spec.no_time_passes
    {| clock := clock w; ticks := S (ticks w); url_error := url_error w;
       server := server w; sent := sent w |} t.
Proof using Type. intros H i. apply H. Qed.

(** [Allow] on a bucket with a token. *)
Lemma Allow_takes_a_token (j : Z) (t : time.Time) (lim : rate.Limiter) (w : World) :
  1 <= j <= N -> Spec.bucket N j t lim -> Spec.no_time_passes w t ->
  exists lim' w',
    Allow (on lim) w = ((Returns None, on lim'), w')
    /\ Spec.bucket N (j - 1) t lim' /\ Spec.no_time_passes w' t.
Proof using HN.
  intros Hj Hbk Hw.
  destruct (AllowN_takes_a_token j t lim Hj Hbk) as (lim' & E & Hbk').
  unfold Allow, on, bind, ret, Now. cbn [enabled limiter negb].
  rewrite (Hw (ticks w)), E. cbn [negb].
  eexists _, _. split; [reflexivity|]. split; [exact Hbk'|].
  now apply no_time_passes_tick.
Qed.

(** [k] calls in a row on a bucket with at least [k] tokens: every call
    returns [nil] and takes one token. *)
Lemma AllowTimes_within_burst (k : nat) :
  forall (j : Z) (t : time.Time) (lim : rate.Limiter) (w : World),
    Z.of_nat k <= j <= N -> Spec.bucket N j t lim -> Spec.no_time_passes w t ->
    exists lim' w',
      AllowTimes k (on lim) w = ((repeat (Returns None) k, on lim'), w')
      /\ Spec.bucket N (j - Z.of_nat k) t lim' /\ Spec.no_time_passes w' t.
Proof using HN.
  induction k as [|k IH]; intros j t lim w Hj Hbk Hw.
  - exists lim, w. split; [reflexivity|]. split; [|exact Hw].
    now replace (j - Z.of_nat 0) with j by lia.
  - destruct (Allow_takes_a_token j t lim w ltac:(lia) Hbk Hw)
      as (lim1 & w1 & E1 & Hbk1 & Hw1).
    destruct (IH (j - 1) t lim1 w1 ltac:(lia) Hbk1 Hw1)
      as (lim2 & w2 & E2 & Hbk2 & Hw2).
    exists lim2, w2. split; [|split; [|exact Hw2]].
    + cbn [AllowTimes]. unfold bind at 1. rewrite E1.
      unfold bind at 1. rewrite E2. reflexivity.
    + now replace (j - Z.of_nat (S k)) with (j - 1 - Z.of_nat k) by lia.
Qed.

Lemma AllowTimes_S (k : nat) (rl : RateLimiter) (w : World) :
  AllowTimes (S k) rl w
  = (let '((o, rl1), w1) := Allow rl w in
     let '((os, rl2), w2) := AllowTimes k rl1 w1 in
     ((o :: os, rl2), w2)).
Proof using Type.
  cbn [AllowTimes]. unfold bind at 1.
  destruct (Allow rl w) as [[o rl1] w1]. unfold bind, ret.
  destruct (AllowTimes k rl1 w1) as [[os rl2] w2]. reflexivity.
Qed.

Lemma AllowTimes_one_more (k : nat) :
  forall (rl : RateLimiter) (w : World),
    AllowTimes (S k) rl w
    = (let '((os, rl1), w1) := AllowTimes k rl w in
       let '((o, rl2), w2) := Allow rl1 w1 in
       (((os ++ [o])%list, rl2), w2)).
Proof using Type.
  induction k as [|k IH]; intros rl w.
  - rewrite AllowTimes_S. cbn [AllowTimes]. unfold ret.
    destruct (Allow rl w) as [[o rl1] w1]. reflexivity.
  - rewrite AllowTimes_S, (AllowTimes_S k rl w).
    destruct (Allow rl w) as [[o rl1] w1]. rewrite IH.
    destruct (AllowTimes k rl1 w1) as [[os rl2] w2].
    destruct (Allow rl2 w2) as [[o' rl3] w3]. reflexivity.
Qed.

(** The call after the burst is used up. *)
Lemma Allow_on_empty (t : time.Time) (lim : rate.Limiter) (w : World) :
  Spec.bucket N 0 t lim -> Spec.no_time_passes w t ->
  fst (fst (Allow (on lim) w))
  = if rate.durationFromTokens (fl N) (float64.of_int 1) <=? 0
    then Returns None else Returns (Some "rate limit exceeded").
Proof using HN.
  intros Hbk Hw. unfold Allow, on, bind, ret, Now. cbn [enabled limiter negb].
  rewrite (Hw (ticks w)), (AllowN_empty t lim Hbk).
  destruct (_ <=? 0); reflexivity.
Qed.

(** [N + 1] calls in a row on a full bucket. *)
Lemma AllowTimes_past_burst (t : time.Time) (lim : rate.Limiter) (w : World) :
  Spec.bucket N N t lim -> Spec.no_time_passes w t ->
  fst (fst (AllowTimes (S (Z.to_nat N)) (on lim) w))
  = (repeat (Returns None) (Z.to_nat N)
      ++ [if rate.durationFromTokens (fl N) (float64.of_int 1) <=? 0
          then Returns None else Returns (Some "rate limit exceeded")])%list.
Proof using HN.
  intros Hbk Hw. rewrite AllowTimes_one_more.
  destruct (AllowTimes_within_burst (Z.to_nat N) N t lim w)
    as (lim' & w' & E & Hbk' & Hw'); [rewrite Z2Nat.id; lia|exact Hbk|exact Hw|].
  rewrite E. rewrite Z2Nat.id, Z.sub_diag in Hbk' by lia.
  pose proof (Allow_on_empty t lim' w' Hbk' Hw') as H.
  destruct (Allow (on lim') w') as [[o rl2] w2]. cbn [fst] in *. now rewrite H.
Qed.

End Burst.

(** ** The burst of a limiter for "N/s" *)

Section BurstOfNew.

Import ratelimit.

Lemma bucket_NewLimiter (N : Z) (t : time.Time) :
  Spec.bucket N N t (rate.NewLimiter (fl N) N).
Proof. unfold Spec.bucket. cbn. auto. Qed.

(** C1, amended. For every N from 1 to [10^9], the limiter that [New]
    builds from the rate specification "N/s" (N in decimal) admits, with
    no time elapsing, exactly N calls of [Allow] in a row: for every
    [k <= N] the first [k] calls all return [nil] and leave [N - k] tokens
    in the bucket, and the call after the N-th returns the error "rate
    limit exceeded". *)
Theorem Allow_admits_the_burst (N : Z) (t : time.Time) (w : World) :
  0 < N <= 10 ^ 9 ->
  Spec.no_time_passes w t ->
  exists lim,
    New (strconv.Itoa N +:+ "/s") = inl (on lim)
    /\ (forall k, (k <= Z.to_nat N)%nat ->
        exists lim' w',
          AllowTimes k (on lim) w = ((repeat (Returns None) k, on lim'), w')
          /\ rate.tokens lim' = float64.of_int (N - Z.of_nat k))
    /\ fst (fst (AllowTimes (S (Z.to_nat N)) (on lim) w))
       = (repeat (Returns None) (Z.to_nat N)
            ++ [Returns (Some "rate limit exceeded")])%list.
Proof.
  intros HN Hw. assert (HN53 : 0 < N < 2 ^ 53) by lia.
  exists (rate.NewLimiter (fl N) N).
  split; [exact (New_per_second N HN53)|]. split.
  - intros k Hk.
    destruct (AllowTimes_within_burst N HN53 k N t _ w ltac:(lia)
                (bucket_NewLimiter N t) Hw) as (lim' & w' & E & Hbk & _).
    exists lim', w'. split; [exact E|]. apply Hbk.
  - rewrite (AllowTimes_past_burst N HN53 t _ w (bucket_NewLimiter N t) Hw).
    pose proof (wait_for_one_token N HN) as Hwait.
    replace (rate.durationFromTokens (fl N) (float64.of_int 1) <=? 0) with false
      by (symmetry; apply Z.leb_gt; exact Hwait).
    reflexivity.
Qed.

Lemma Allow_admits_the_burst_witness :
  0 < 3 <= 10 ^ 9
  /\ Spec.no_time_passes (answering a_time 3600) a_time
  /\ exists lim,
      New (strconv.Itoa 3 +:+ "/s") = inl (on lim)
      /\ (forall k, (k <= Z.to_nat 3)%nat ->
          exists lim' w',
            AllowTimes k (on lim) (answering a_time 3600)
            = ((repeat (Returns None) k, on lim'), w')
            /\ rate.tokens lim' = float64.of_int (3 - Z.of_nat k))
      /\ fst (fst (AllowTimes (S (Z.to_nat 3)) (on lim) (answering a_time 3600)))
         = (repeat (Returns None) (Z.to_nat 3)
              ++ [Returns (Some "rate limit exceeded")])%list.
Proof.
  split; [lia|]. split; [intros i; reflexivity|].
  apply (Allow_admits_the_burst 3 a_time (answering a_time 3600)).
  - lia.
  - intros i; reflexivity.
Defined.

(** The burst of "3/s", by evaluation. *)
Example Allow_three_per_second :
  New "3/s" = inl (on (rate.NewLimiter (float64.of_int 3) 3))
  /\ fst (fst (AllowTimes 4 (on (rate.NewLimiter (float64.of_int 3) 3))
                 (answering a_time 3600)))
     = [Returns None; Returns None; Returns None;
        Returns (Some "rate limit exceeded")].
Proof. vm_compute. split; reflexivity. Qed.

(** At two thousand million tokens per second one token takes half a
    nanosecond, which [durationFromTokens] truncates to zero: the call
    after the burst is used up is admitted as well. *)
Lemma Allow_admits_more_than_the_burst :
  New "2000000000/s" = inl (on (rate.NewLimiter (fl 2000000000) 2000000000))
  /\ Spec.no_time_passes (answering a_time 3600) a_time
  /\ rate.durationFromTokens (fl 2000000000) (float64.of_int 1) = 0
  /\ fst (fst (AllowTimes (S (Z.to_nat 2000000000))
                 (on (rate.NewLimiter (fl 2000000000) 2000000000))
                 (answering a_time 3600)))
     = (repeat (Returns None) (Z.to_nat 2000000000) ++ [Returns None])%list.
Proof.
  split; [vm_compute; reflexivity|].
  split; [intros i; reflexivity|].
  split; [vm_compute; reflexivity|].
  assert (H53 : 0 < 2000000000 < 2 ^ 53) by lia.
  rewrite (AllowTimes_past_burst 2000000000 H53 a_time _ (answering a_time 3600)
             (bucket_NewLimiter 2000000000 a_time) (fun i => eq_refl)).
  replace (rate.durationFromTokens (fl 2000000000) (float64.of_int 1) <=? 0)
    with true by (vm_compute; reflexivity).
  reflexivity.
Qed.

End BurstOfNew.

(** ** Concurrent callers of the token cache *)

Section Concurrent.

(** The step of the interleaving model that handles the answer of the
    token endpoint computes what the sequential [fetchToken] computes
    from the same answer and the same reading of the clock. *)
Lemma fetchToken_receive (o : auth.OAuth2ClientCredentials) (w : World) :
  url_error w (auth.tokenURL o) = None ->
  fst (auth.fetchToken o w)
  = Interleaving.receive o
      (server w (length (sent w)) (Spec.token_request o))
      (clock w (ticks w)).
Proof.
  intros Hu.
  unfold auth.fetchToken, Interleaving.receive, NewRequest, Do, Now, bind, ret.
  rewrite Hu. cbn [http.Header]. rewrite token_request_sent.
  destruct (server w (length (sent w)) (Spec.token_request o)) as [err|resp];
    [reflexivity|].
  destruct (negb (http.StatusCode resp =? http.StatusOK)); [reflexivity|].
  destruct (http.RespBody resp) as [err|tok tt ei]; [reflexivity|].
  destruct (String.eqb tok ""); [reflexivity|].
  unfold Spec.lifetime. destruct (0 <? ei); reflexivity.
Qed.

Import Interleaving.

Lemma count_insert (f : pc -> bool) (l : list pc) (i : nat) (p q : pc) :
  l !! i = Some q ->
  (count f (<[i := p]> l) + (if f q then 1 else 0)
   = count f l + (if f p then 1 else 0))%nat.
Proof.
  revert i. induction l as [|x l IH]; intros [|i] H; try discriminate.
  - injection H as ->. simpl. lia.
  - simpl in *. specialize (IH i H). lia.
Qed.

Lemma count_le_length (f : pc -> bool) (l : list pc) : (count f l <= length l)%nat.
Proof. induction l as [|x l IH]; cbn; [lia|destruct (f x); lia]. Qed.



Lemma mutex_inv_init (o : auth.OAuth2ClientCredentials) (t : time.Time) (k n : nat) :
  mutex_inv (init o t k n).
Proof.
  unfold mutex_inv, init. cbn. induction n as [|n [IH1 IH2]]; [split; reflexivity|].
  cbn. split; assumption.
Qed.

(** Every step keeps the discipline of the mutex. *)
Lemma mutex_inv_step (e : env) (l : label) (s s' : state) :
  mutex_inv s -> step e l s = Some s' -> mutex_inv s'.
Proof.
  intros [Hw Hr] H. destruct l as [i|t]; cbn in H.
  2:{ destruct (now s <=? t); [|discriminate]. injection H as <-. split; assumption. }
  unfold act in H. destruct (threads s !! i) as [p|] eqn:Ei; [|discriminate].
  pose proof (count_insert holds_write_lock (threads s) i) as Cw.
  pose proof (count_insert is_reading (threads s) i) as Cr.
  destruct p as [| | | |n|tok err].
  - destruct (writer s) eqn:W; [discriminate|]. injection H as <-.
    specialize (Cw Reading _ Ei). specialize (Cr Reading _ Ei).
    unfold mutex_inv, set_thread. cbn in *. lia.
  - injection H as <-. unfold mutex_inv, set_thread. cbn [threads writer readers].
    destruct (valid s).
    + specialize (Cw (Done (auth.token (auth_ s)) None) _ Ei).
      specialize (Cr (Done (auth.token (auth_ s)) None) _ Ei). cbn in *. lia.
    + specialize (Cw Waiting _ Ei). specialize (Cr Waiting _ Ei). cbn in *. lia.
  - destruct (writer s) eqn:W; [discriminate|]. cbn in H.
    destruct (readers s =? 0)%nat; [|discriminate]. injection H as <-.
    specialize (Cw Writing _ Ei). specialize (Cr Writing _ Ei).
    unfold mutex_inv, set_thread. cbn in *. lia.
  - assert (W : writer s = true).
    { destruct (writer s); [reflexivity|]. exfalso.
      pose proof (count_insert holds_write_lock (threads s) i Idle _ Ei) as C.
      cbn in C. lia. }
    rewrite W in Hw.
    destruct (valid s).
    + injection H as <-.
      specialize (Cw (Done (auth.token (auth_ s)) None) _ Ei).
      specialize (Cr (Done (auth.token (auth_ s)) None) _ Ei).
      unfold mutex_inv, set_thread. cbn in *. lia.
    + destruct (new_request_error e) as [err|]; injection H as <-.
      * specialize (Cw (Done "" (Some ("failed to create token request: " +:+ err))) _ Ei).
        specialize (Cr (Done "" (Some ("failed to create token request: " +:+ err))) _ Ei).
        unfold mutex_inv, set_thread. cbn in *. lia.
      * specialize (Cw (Fetching (issued s)) _ Ei).
        specialize (Cr (Fetching (issued s)) _ Ei).
        unfold mutex_inv, set_thread. cbn in *. lia.
  - assert (W : writer s = true).
    { destruct (writer s); [reflexivity|]. exfalso.
      pose proof (count_insert holds_write_lock (threads s) i Idle _ Ei) as C.
      cbn in C. lia. }
    rewrite W in Hw.
    destruct (receive (auth_ s) (endpoint e n) (now s)) as [[tok err] o'].
    injection H as <-.
    specialize (Cw (Done tok err) _ Ei). specialize (Cr (Done tok err) _ Ei).
    unfold mutex_inv, set_thread. cbn in *. lia.
  - discriminate.
Qed.

Lemma mutex_inv_run (e : env) (ls : list label) (s s' : state) :
  mutex_inv s -> run e ls s = Some s' -> mutex_inv s'.
Proof.
  revert s. induction ls as [|l ls IH]; intros s Hs H; cbn in H.
  - now injection H as <-.
  - destruct (step e l s) as [s1|] eqn:E; [|discriminate].
    apply (IH s1); [|exact H]. eapply mutex_inv_step; eauto.
Qed.


Lemma length_threads_step (e : env) (l : label) (s s' : state) :
  step e l s = Some s' -> length (threads s') = length (threads s).
Proof.
  destruct l as [i|t]; cbn.
  2:{ destruct (now s <=? t); [|discriminate]. now intros [= <-]. }
  unfold act. destruct (threads s !! i) as [[| | | |n|tk er]|]; try discriminate.
  - destruct (writer s); [discriminate|]. intros [= <-]. apply length_insert.
  - intros [= <-]. apply length_insert.
  - destruct (_ || _); [discriminate|]. intros [= <-]. apply length_insert.
  - destruct (valid s); [intros [= <-]; apply length_insert|].
    destruct (new_request_error e); intros [= <-]; apply length_insert.
  - destruct (receive _ _ _) as [[? ?] ?]. intros [= <-]. apply length_insert.
Qed.

Lemma length_threads_run (e : env) (ls : list label) (s s' : state) :
  run e ls s = Some s' -> length (threads s') = length (threads s).
Proof.
  revert s. induction ls as [|l ls IH]; intros s H; cbn in H.
  - now injection H as <-.
  - destruct (step e l s) as [s1|] eqn:E; [|discriminate].
    rewrite (IH s1 H). eapply length_threads_step; eauto.
Qed.

End Concurrent.

(** *** One fetch serves all callers, when it succeeds *)

Section SingleFetch.

Import Interleaving.

Variable e : env.
Variable o0 : auth.OAuth2ClientCredentials.
Variables t0 h : time.Time.
Variable k0 : nat.
Variables tok tt : string.
Variable ei : Z.

Hypothesis Hstale : auth.token o0 = "" \/ auth.expiry o0 <= t0.
Hypothesis Hurl : new_request_error e = None.
Hypothesis Hresp : endpoint e k0 = Spec.token_response tok tt ei.
Hypothesis Htok : tok <> "".
Hypothesis Hh : t0 <= h < t0 + Spec.lifetime ei.








End SingleFetch.

(** *** The claim about concurrent callers *)

Section ConcurrentCallers.

Import Interleaving.




(** The run of the witness: the second caller is blocked while the fetch
    is in flight, one request is sent and both callers return "abc". *)
Example served_run :
  (exists s, run (answers (Spec.token_response "abc" "Bearer" 3600))
               (firstn 6 served_schedule) two_callers = Some s
             /\ in_flight s = 1%nat
             /\ threads s !! 1%nat = Some Waiting
             /\ act (answers (Spec.token_response "abc" "Bearer" 3600)) 1 s = None)
  /\ run (answers (Spec.token_response "abc" "Bearer" 3600)) served_schedule
       two_callers = Some served
  /\ before (a_time + 3000 * time.Second) served_schedule
  /\ a_time + 3000 * time.Second < a_time + Spec.lifetime 3600
  /\ issued served = 1%nat
  /\ threads served = [Done "abc" None; Done "abc" None].
Proof.
  split.
  { eexists. split; [vm_compute; reflexivity|]. vm_compute. repeat split; reflexivity. }
  split; [vm_compute; reflexivity|]. split.
  { unfold before, served_schedule, until_second_locks.
    repeat constructor. vm_compute. discriminate. }
  vm_compute. repeat split; reflexivity.
Qed.


End ConcurrentCallers.

(** * Further properties of the rate limiter *)

Section RateLimiterCalls.

Import ratelimit.

(** X1. [SetRate] refuses exactly the rate strings [New] refuses, with the
    same error; a refused [SetRate] leaves the limiter (rate, burst,
    tokens and the enabled flag) as it was and does not read the clock. *)
Theorem SetRate_fails_as_New (rl : RateLimiter) (s : string) (w : World) :
  match New s with
  | inr e => SetRate rl s w = ((Some e, rl), w)
  | inl _ => fst (fst (SetRate rl s w)) = None
  end.
Proof.
  unfold New, SetRate, bind, ret, Now.
  destruct (String.eqb s ""); [reflexivity|].
  destruct (parseRate s) as [[l b]|e]; [|reflexivity].
  destruct (limiter rl); reflexivity.
Qed.

(** The sum [ParseDuration] accumulates never exceeds [1<<63]. *)
Lemma parse_loop_bound (fuel : nat) :
  forall (d : Z) (s : string) (r : Z),
    0 <= d <= 2 ^ 63 -> time.parse_loop fuel d s = Some r -> 0 <= r <= 2 ^ 63.
Proof.
  induction fuel as [|fuel IH]; intros d s r Hd H.
  - destruct s; cbn in H; [injection H as <-; exact Hd|discriminate].
  - destruct s as [|c0 s']; [cbn in H; injection H as <-; exact Hd|].
    cbn [time.parse_loop] in H.
    remember (String c0 s') as s eqn:Es. clear Es.
    destruct (negb (time.is_digit_or_dot c0)); [discriminate|].
    destruct (time.leadingInt 0 s) as [[v s1]|]; [|discriminate].
    set (frac := match s1 with
                 | String "."%char s1' =>
                     let '(f, scale, s2) :=
                       time.leadingFraction 0 (float64.of_int 1) false s1' in
                     (f, scale, s2, negb (time.strlen s1' =? time.strlen s2))
                 | _ => (0, float64.of_int 1, s1, false)
                 end) in H.
    destruct frac as [[[f scale] s2] post].
    destruct (negb (negb (time.strlen s =? time.strlen s1)) && negb post);
      [discriminate|].
    destruct (time.unit_span s2) as [u s3].
    destruct (String.eqb u ""); [discriminate|].
    destruct (time.unitMap u) as [unit|]; [|discriminate].
    destruct (2 ^ 63 / unit <? v); [discriminate|].
    match type of H with
    | (if ?b then None else _) = _ => destruct b; [discriminate|]
    end.
    match type of H with
    | (if 2 ^ 63 <? ?d' then None else _) = _ =>
        destruct (2 ^ 63 <? d') eqn:E; [discriminate|];
        apply Z.ltb_ge in E; apply (IH d' s3 r); [|exact H]
    end.
    split; [|exact E]. unfold wrapU64. apply Z.mod_pos_bound. lia.
Qed.

(** X3. A duration that [parseDuration] accepts is positive (and fits a
    [time.Duration]): "0s", a negative duration or a sum that comes to
    nothing is never returned. *)
Theorem parseDuration_positive (durStr : string) (d : time.Duration) :
  parseDuration durStr = inl d -> 0 < d <= MaxInt64.
Proof.
  unfold parseDuration.
  destruct (String.eqb durStr "s"); [intros [= <-]; vm_compute; split; congruence|].
  destruct (String.eqb durStr "m"); [intros [= <-]; vm_compute; split; congruence|].
  destruct (String.eqb durStr "h"); [intros [= <-]; vm_compute; split; congruence|].
  destruct (time.ParseDuration durStr) as [duration|] eqn:E; [|discriminate].
  destruct (duration <=? 0) eqn:Hp; [discriminate|]. intros [= <-].
  apply Z.leb_gt in Hp. split; [exact Hp|].
  unfold time.ParseDuration in E.
  set (sg := match durStr with
             | String c r =>
                 if Ascii.eqb c "-"%char || Ascii.eqb c "+"%char
                 then (Ascii.eqb c "-"%char, r) else (false, durStr)
             | EmptyString => (false, durStr)
             end) in E.
  destruct sg as [neg s1].
  destruct (String.eqb s1 "0"); [injection E as <-; lia|].
  destruct (String.eqb s1 ""); [discriminate|].
  destruct (time.parse_loop (String.length s1) 0 s1) as [r|] eqn:El; [|discriminate].
  apply parse_loop_bound in El; [|lia].
  destruct neg.
  - injection E as <-. exfalso. revert Hp. unfold wrap64.
    destruct (Z.eq_dec r (2 ^ 63)) as [->|Hne]; [vm_compute; congruence|].
    rewrite (Z.mod_small (r + 2 ^ 63)) by lia.
    replace (r + 2 ^ 63 - 2 ^ 63) with r by lia.
    destruct (Z.eq_dec r 0) as [->|Hr0]; [vm_compute; congruence|].
    replace (- r + 2 ^ 63) with (2 ^ 63 - r) by lia.
    rewrite Z.mod_small by lia. lia.
  - destruct (MaxInt64 <? r) eqn:Hm; [discriminate|]. injection E as <-.
    apply Z.ltb_ge in Hm. exact Hm.
Qed.

Lemma parseDuration_positive_witness :
  parseDuration "30s" = inl (30 * time.Second)
  /\ 0 < 30 * time.Second <= MaxInt64.
Proof.
  split; [reflexivity|].
  apply (parseDuration_positive "30s"). reflexivity.
Defined.

Lemma Allow_well_formed_returns (rl : RateLimiter) (w : World) :
  Spec.well_formed rl -> fst (fst (Allow rl w)) <> Panics.
Proof.
  unfold Allow, Spec.well_formed, bind, ret, Now. intros H.
  destruct (enabled rl); cbn; [|discriminate].
  destruct (limiter rl) as [lim|]; cbn; [|now destruct H].
  destruct (rate.AllowN lim _ 1) as [[|] lim']; cbn; discriminate.
Qed.

Lemma calls_well_formed (cs : list Call) :
  forall (rl : RateLimiter) (w : World),
    Spec.well_formed rl ->
    Forall (fun o => o <> Panics) (fst (fst (calls cs rl w)))
    /\ Spec.well_formed (snd (fst (calls cs rl w))).
Proof.
  induction cs as [|c cs IH]; intros rl w Hwf.
  - cbn. split; [constructor|exact Hwf].
  - destruct c as [|rateStr]; cbn [calls]; unfold bind, ret.
    + pose proof (Allow_well_formed_returns rl w Hwf) as Ho.
      pose proof (well_formed_Allow rl w Hwf) as Hwf1.
      destruct (Allow rl w) as [[o rl1] w1]. cbn [fst snd] in Ho, Hwf1.
      specialize (IH rl1 w1 Hwf1).
      destruct (calls cs rl1 w1) as [[os rl2] w2]. cbn [fst snd] in *.
      destruct IH as [IH1 IH2]. split; [constructor; assumption|exact IH2].
    + pose proof (well_formed_SetRate rateStr rl w Hwf) as Hwf1.
      destruct (SetRate rl rateStr w) as [[err rl1] w1]. cbn [fst snd] in Hwf1.
      specialize (IH rl1 w1 Hwf1).
      destruct (calls cs rl1 w1) as [[os rl2] w2]. cbn [fst snd] in *.
      destruct IH as [IH1 IH2]. split; [constructor; [discriminate|assumption]|exact IH2].
Qed.

(** X4. On a limiter that [New] returned, no sequence of [Allow] and
    [SetRate] calls, with valid or invalid rate strings, makes [Allow]
    call a method of a nil [*rate.Limiter]: whenever the limiter is
    enabled it has a bucket. *)
Theorem calls_never_panic (s : string) (rl : RateLimiter) (cs : list Call)
        (w : World) :
  New s = inl rl ->
  Forall (fun o => o <> Panics) (fst (fst (calls cs rl w))).
Proof.
  intros H. apply calls_well_formed. exact (well_formed_New s rl H).
Qed.

Lemma calls_never_panic_witness :
  Forall (fun o => o <> Panics)
    (fst (fst (calls [CallAllow; CallSetRate "5/s"; CallAllow; CallSetRate "";
                      CallAllow; CallSetRate "x"; CallAllow]
                 {| limiter := None; enabled := false |}
                 (answering a_time 3600)))).
Proof.
  apply (calls_never_panic ""). reflexivity.
Defined.

(** X5. While the limiter is disabled, after [New("")] or after
    [SetRate("")], every call of [Allow] is admitted, however many there
    are; the calls read no clock and leave the bucket, if there is one,
    with the tokens it had. *)
Theorem disabled_limiter_admits_every_call
        (k : nat) (rl : RateLimiter) (w : World) :
  IsEnabled rl = false ->
  AllowTimes k rl w = ((repeat (Returns None) k, rl), w).
Proof.
  unfold IsEnabled. intros H. induction k as [|k IH]; [reflexivity|].
  cbn [AllowTimes repeat]. unfold bind at 1. unfold Allow at 1. rewrite H. cbn.
  unfold bind, ret. rewrite IH. reflexivity.
Qed.

Lemma disabled_limiter_witness :
  let rl := snd (fst (SetRate (on (rate.NewLimiter (float64.of_int 2) 2)) ""
                        (answering a_time 3600))) in
  AllowTimes 7 rl (answering a_time 3600)
  = ((repeat (Returns None) 7, rl), answering a_time 3600).
Proof.
  apply (disabled_limiter_admits_every_call 7). reflexivity.
Defined.

End RateLimiterCalls.

(** ** The bucket after the burst *)

Section AfterTheBurst.

Import ratelimit.

Lemma AllowTimes_add (a : nat) :
  forall (b : nat) (rl : RateLimiter) (w : World),
    AllowTimes (a + b) rl w
    = (let '((os1, rl1), w1) := AllowTimes a rl w in
       let '((os2, rl2), w2) := AllowTimes b rl1 w1 in
       (((os1 ++ os2)%list, rl2), w2)).
Proof.
  induction a as [|a IH]; intros b rl w.
  - cbn. destruct (AllowTimes b rl w) as [[os2 rl2] w2]. reflexivity.
  - cbn [Nat.add AllowTimes]. unfold bind, ret.
    destruct (Allow rl w) as [[o rl1] w1]. rewrite IH.
    destruct (AllowTimes a rl1 w1) as [[os1 rl2] w2].
    destruct (AllowTimes b rl2 w2) as [[os2 rl3] w3]. reflexivity.
Qed.

(** On an empty bucket for up to [10^9] tokens per second a call is
    refused and the bucket stays as it is. *)
Lemma Allow_refused (N : Z) (t : time.Time) (lim : rate.Limiter) (w : World) :
  0 < N <= 10 ^ 9 -> Spec.bucket N 0 t lim -> Spec.no_time_passes w t ->
  exists w',
    Allow (on lim) w = ((Returns (Some "rate limit exceeded"), on lim), w')
    /\ Spec.no_time_passes w' t.
Proof.
  intros HN Hbk Hw. assert (HN53 : 0 < N < 2 ^ 53) by lia.
  pose proof (AllowN_empty N HN53 t lim Hbk) as E.
  pose proof (wait_for_one_token N HN) as Hwait.
  replace (rate.durationFromTokens (fl N) (float64.of_int 1) <=? 0) with false
    in E by (symmetry; apply Z.leb_gt; exact Hwait).
  unfold Allow, on, bind, ret, Now. cbn [enabled limiter negb].
  rewrite (Hw (ticks w)), E. cbn [negb].
  eexists. split; [reflexivity|]. now apply no_time_passes_tick.
Qed.

Lemma AllowTimes_empty (N : Z) (t : time.Time) (lim : rate.Limiter) (k : nat) :
  0 < N <= 10 ^ 9 -> Spec.bucket N 0 t lim ->
  forall w : World,
    Spec.no_time_passes w t ->
    exists w',
      AllowTimes k (on lim) w
      = ((repeat (Returns (Some "rate limit exceeded")) k, on lim), w')
      /\ Spec.no_time_passes w' t.
Proof.
  intros HN Hbk.
  induction k as [|k IH]; intros w Hw.
  - exists w. split; [reflexivity|exact Hw].
  - rewrite AllowTimes_S.
    destruct (Allow_refused N t lim w HN Hbk Hw) as (w1 & E1 & Hw1).
    rewrite E1. destruct (IH w1 Hw1) as (w2 & E2 & Hw2). rewrite E2.
    exists w2. split; [reflexivity|exact Hw2].
Qed.

(** X6. Once the [N] tokens of the limiter that [New("N/s")] builds are
    used up ([N] up to [10^9]), every further [Allow] at the same instant
    is refused with "rate limit exceeded", however many follow; the
    refused calls take nothing from the bucket, which stays at zero
    tokens. *)
Theorem Allow_is_refused_until_time_passes
        (N : Z) (t : time.Time) (w : World) (k : nat) :
  0 < N <= 10 ^ 9 ->
  Spec.no_time_passes w t ->
  exists lim lim',
    New (strconv.Itoa N +:+ "/s") = inl (on lim)
    /\ fst (AllowTimes (Z.to_nat N + k) (on lim) w)
       = ((repeat (Returns None) (Z.to_nat N)
             ++ repeat (Returns (Some "rate limit exceeded")) k)%list,
          on lim')
    /\ rate.tokens lim' = float64.of_int 0.
Proof.
  intros HN Hw. assert (HN53 : 0 < N < 2 ^ 53) by lia.
  destruct (AllowTimes_within_burst N HN53 (Z.to_nat N) N t _ w ltac:(lia)
              (bucket_NewLimiter N t) Hw) as (lim' & w' & E & Hbk & Hw').
  exists (rate.NewLimiter (fl N) N), lim'.
  split; [exact (New_per_second N HN53)|].
  rewrite AllowTimes_add.
  rewrite E. replace (N - Z.of_nat (Z.to_nat N)) with 0 in Hbk by lia.
  destruct (AllowTimes_empty N t lim' k HN Hbk w' Hw') as (w2 & E2 & _).
  rewrite E2. split; [reflexivity|apply Hbk].
Qed.

Lemma Allow_is_refused_witness :
  exists lim lim',
    New (strconv.Itoa 2 +:+ "/s") = inl (on lim)
    /\ fst (AllowTimes (Z.to_nat 2 + 3) (on lim) (answering a_time 3600))
       = ((repeat (Returns None) (Z.to_nat 2)
             ++ repeat (Returns (Some "rate limit exceeded")) 3)%list,
          on lim')
    /\ rate.tokens lim' = float64.of_int 0.
Proof.
  apply (Allow_is_refused_until_time_passes 2 a_time).
  - lia.
  - intros i. reflexivity.
Defined.

Lemma parseRate_per_second (N : Z) :
  0 < N < 2 ^ 53 -> parseRate (strconv.Itoa N +:+ "/s") = inl (fl N, N).
Proof.
  intros HN. pose proof (New_per_second N HN) as H. unfold New in H.
  destruct (String.eqb (strconv.Itoa N +:+ "/s") "") eqn:E; [discriminate|].
  destruct (parseRate (strconv.Itoa N +:+ "/s")) as [[l b]|err]; [|discriminate].
  now injection H as -> ->.
Qed.

(** [SetRate] to the rate a bucket has leaves the bucket with the tokens
    it holds. *)
Lemma SetRate_same_rate (N j : Z) (t : time.Time) (lim : rate.Limiter) (w : World) :
  0 < N < 2 ^ 53 -> 0 <= j <= N ->
  Spec.bucket N j t lim -> Spec.no_time_passes w t ->
  exists lim' w',
    SetRate (on lim) (strconv.Itoa N +:+ "/s") w = ((None, on lim'), w')
    /\ Spec.bucket N j t lim' /\ Spec.no_time_passes w' t.
Proof.
  intros HN Hj Hbk Hw. unfold SetRate.
  replace (String.eqb (strconv.Itoa N +:+ "/s") "") with false
    by (symmetry; apply String.eqb_neq; destruct (strconv.Itoa N); discriminate).
  rewrite (parseRate_per_second N HN). unfold on at 1. cbn [limiter].
  unfold bind, ret, Now. cbn [clock ticks]. rewrite !(Hw _).
  pose proof (advance_bucket N HN j t lim Hj Hbk) as Ha.
  assert (Hbk1 : Spec.bucket N j t (rate.SetLimitAt lim t (fl N))).
  { unfold rate.SetLimitAt, Spec.bucket. cbn. rewrite Ha.
    destruct Hbk as (_ & Hb & _). auto. }
  pose proof (advance_bucket N HN j t _ Hj Hbk1) as Ha1.
  eexists _, _. split; [reflexivity|]. split.
  - unfold rate.SetBurstAt, Spec.bucket.
    cbn [rate.limit rate.burst rate.tokens rate.last]. rewrite Ha1.
    repeat split; auto.
  - intros i. apply Hw.
Qed.

(** X2. [SetRate] fills a bucket only where there was none.  On the
    limiter that [New("")] returns, [SetRate(s)] gives what [New(s)]
    gives; on a limiter whose [N] tokens were used up ([N] up to [10^9]),
    [SetRate] to the same rate ["N/s"] at the same instant returns [nil]
    and leaves the bucket empty: every [Allow] that follows is refused. *)
Theorem SetRate_fills_only_a_new_bucket
        (s : string) (N : Z) (t : time.Time) (w : World) (k : nat) :
  0 < N <= 10 ^ 9 ->
  Spec.no_time_passes w t ->
  (exists rl0,
      New "" = inl rl0
      /\ SetRate rl0 s w
         = (match New s with
            | inl rl => (None, rl)
            | inr e => (Some e, rl0)
            end, w))
  /\ exists lim rl1 w1 rl2 w2,
      New (strconv.Itoa N +:+ "/s") = inl (on lim)
      /\ AllowTimes (Z.to_nat N) (on lim) w
         = ((repeat (Returns None) (Z.to_nat N), rl1), w1)
      /\ SetRate rl1 (strconv.Itoa N +:+ "/s") w1 = ((None, rl2), w2)
      /\ fst (AllowTimes k rl2 w2)
         = (repeat (Returns (Some "rate limit exceeded")) k, rl2).
Proof.
  intros HN Hw. assert (HN53 : 0 < N < 2 ^ 53) by lia. split.
  - eexists. split; [reflexivity|].
    unfold New, SetRate, bind, ret. cbn [limiter enabled].
    destruct (String.eqb s "") eqn:E; [reflexivity|].
    destruct (parseRate s) as [[l b]|e]; reflexivity.
  - destruct (AllowTimes_within_burst N HN53 (Z.to_nat N) N t _ w ltac:(lia)
                (bucket_NewLimiter N t) Hw) as (lim1 & w1 & E1 & Hbk1 & Hw1).
    replace (N - Z.of_nat (Z.to_nat N)) with 0 in Hbk1 by lia.
    destruct (SetRate_same_rate N 0 t lim1 w1 HN53 ltac:(lia) Hbk1 Hw1)
      as (lim2 & w2 & E2 & Hbk2 & Hw2).
    destruct (AllowTimes_empty N t lim2 k HN Hbk2 w2 Hw2) as (w3 & E3 & _).
    exists (rate.NewLimiter (fl N) N), (on lim1), w1, (on lim2), w2.
    split; [exact (New_per_second N HN53)|].
    split; [exact E1|]. split; [exact E2|]. now rewrite E3.
Qed.

Lemma SetRate_fills_only_a_new_bucket_witness :
  (exists rl0,
      New "" = inl rl0
      /\ SetRate rl0 "5/s" (answering a_time 3600)
         = (match New "5/s" with
            | inl rl => (None, rl)
            | inr e => (Some e, rl0)
            end, answering a_time 3600))
  /\ exists lim rl1 w1 rl2 w2,
      New (strconv.Itoa 2 +:+ "/s") = inl (on lim)
      /\ AllowTimes (Z.to_nat 2) (on lim) (answering a_time 3600)
         = ((repeat (Returns None) (Z.to_nat 2), rl1), w1)
      /\ SetRate rl1 (strconv.Itoa 2 +:+ "/s") w1 = ((None, rl2), w2)
      /\ fst (AllowTimes 3 rl2 w2)
         = (repeat (Returns (Some "rate limit exceeded")) 3, rl2).
Proof.
  apply (SetRate_fills_only_a_new_bucket "5/s" 2 a_time).
  - lia.
  - intros i. reflexivity.
Defined.

Lemma mul_one (mx : positive) (ex : Z) :
  Z.pos (digits2_pos mx) = 53 -> -1074 <= ex <= 970 ->
  float64.mul (float64.of_int 1) (S754_finite false mx ex)
  = S754_finite false mx ex.
Proof.
  intros Hd He.
  change (float64.of_int 1) with (S754_finite false 4503599627370496 (-52)).
  unfold float64.mul, SFmul. cbn [xorb].
  assert (HM : Z.pos (4503599627370496 * mx) = Z.pos mx * 2 ^ 52)
    by (rewrite Pos2Z.inj_mul; change (Z.pos 4503599627370496) with (2 ^ 52); lia).
  assert (HD : Z.pos (digits2_pos (4503599627370496 * mx)) = 105).
  { rewrite (digits2_shift mx 52 _ ltac:(lia) HM). lia. }
  destruct (binary_round_aux_spec (4503599627370496 * mx) (-52 + ex) loc_Exact)
    as (m2 & e2 & E & _ & _ & _ & Hex); rewrite ?HD; try lia.
  rewrite E. rewrite HD in Hex.
  destruct Hex as [Hm2 He2]; [reflexivity| |].
  - rewrite HM. replace (105 - 53) with 52 by lia. apply Z.mod_mul. lia.
  - rewrite HM in Hm2. replace (105 - 53) with 52 in Hm2 by lia.
    rewrite Z.div_mul in Hm2 by lia.
    f_equal; [|lia]. now apply Pos2Z.inj.
Qed.

(** One second after an empty bucket was last updated it is full. *)
Lemma advance_one_second (N : Z) (t : time.Time) (lim : rate.Limiter) :
  0 < N < 2 ^ 53 -> Spec.bucket N 0 t lim ->
  rate.advance lim (time.Add t time.Second) = float64.of_int N.
Proof.
  intros HN (Hl & Hb & Ht & Hlast). pose proof (log2_below_53 N HN) as HL.
  destruct Hlast as [Hlast|Hlast]; [lia|].
  unfold rate.advance, rate.tokensFromDuration. rewrite Hl, Hb, Ht, Hlast.
  change (float64.leb (fl N) rate.zero) with false. cbv iota.
  unfold time.Before, time.Add.
  replace (t + time.Second <? t) with false
    by (symmetry; apply Z.ltb_ge; unfold time.Second, time.Millisecond,
        time.Microsecond, time.Nanosecond; lia).
  unfold time.Sub. replace (t + time.Second - t) with time.Second by lia.
  change (Z.max time.minDuration (Z.min time.maxDuration time.Second))
    with time.Second.
  change (time.Seconds time.Second) with (float64.of_int 1).
  assert (Hmul : float64.mul (float64.of_int 1) (fl N) = fl N)
    by (unfold fl; apply mul_one; [now apply fl_digits|lia]).
  rewrite !Hmul. change (float64.add (float64.of_int 0) (fl N)) with (fl N).
  rewrite (of_int_fl N HN). now rewrite ltb_fl by lia.
Qed.

(** [AllowN(t, 1)] on a bucket that holds [N] tokens at [t]. *)
Lemma AllowN_of_advance (N : Z) (t : time.Time) (lim : rate.Limiter) :
  0 < N < 2 ^ 53 ->
  rate.limit lim = fl N -> rate.burst lim = N ->
  rate.advance lim t = float64.of_int N ->
  rate.AllowN lim t 1
  = (true, {| rate.limit := fl N; rate.burst := N;
              rate.tokens := float64.of_int (N - 1); rate.last := t;
              rate.lastEvent := time.Add t 0 |}).
Proof.
  intros HN Hl Hb Hadv.
  unfold rate.AllowN, rate.reserveN.
  rewrite Hl, (fl_not_Inf N HN), Hadv, Hb.
  rewrite (of_int_fl N) by lia. rewrite sub_one_exact by lia.
  rewrite of_int_nonneg_not_below_zero by lia.
  replace (1 <=? N) with true by (symmetry; apply Z.leb_le; lia).
  reflexivity.
Qed.

(** X7. One second after the burst of the limiter that [New("N/s")]
    builds was used up ([N] up to [10^9]) the bucket is full again: of
    the calls of [Allow] at that instant exactly the first [N] are
    admitted.  [w1] gives the clock while the burst is used up, [w2] one
    second later. *)
Theorem bucket_is_full_after_one_second
        (N : Z) (t : time.Time) (w1 w2 : World) :
  0 < N <= 10 ^ 9 ->
  Spec.no_time_passes w1 t ->
  Spec.no_time_passes w2 (time.Add t time.Second) ->
  exists lim,
    New (strconv.Itoa N +:+ "/s") = inl (on lim)
    /\ fst (fst (AllowTimes (S (Z.to_nat N))
                   (snd (fst (AllowTimes (S (Z.to_nat N)) (on lim) w1))) w2))
       = (repeat (Returns None) (Z.to_nat N)
            ++ [Returns (Some "rate limit exceeded")])%list.
Proof.
  intros HN Hw1 Hw2. assert (HN53 : 0 < N < 2 ^ 53) by lia.
  set (t' := time.Add t time.Second) in *.
  exists (rate.NewLimiter (fl N) N).
  split; [exact (New_per_second N HN53)|].
  replace (S (Z.to_nat N)) with (Z.to_nat N + 1)%nat at 2 by lia.
  rewrite AllowTimes_add.
  destruct (AllowTimes_within_burst N HN53 (Z.to_nat N) N t _ w1 ltac:(lia)
              (bucket_NewLimiter N t) Hw1) as (lim0 & w' & E & Hbk & Hw').
  rewrite E. replace (N - Z.of_nat (Z.to_nat N)) with 0 in Hbk by lia.
  destruct (AllowTimes_empty N t lim0 1 HN Hbk w' Hw') as (w'' & E2 & _).
  rewrite E2. cbn [fst snd].
  pose proof (wait_for_one_token N HN) as Hwait.
  assert (Hfirst : Allow (on lim0) w2
                   = Allow (on (rate.NewLimiter (fl N) N)) w2).
  { unfold Allow, on, bind, ret, Now. cbn [enabled limiter negb].
    rewrite (Hw2 (ticks w2)).
    rewrite (AllowN_of_advance N t' lim0 HN53);
      [|apply Hbk|apply Hbk|exact (advance_one_second N t lim0 HN53 Hbk)].
    rewrite (AllowN_of_advance N t' _ HN53);
      [reflexivity|reflexivity|reflexivity|].
    exact (advance_bucket N HN53 N t' _ ltac:(lia) (bucket_NewLimiter N t')). }
  assert (Hall : AllowTimes (S (Z.to_nat N)) (on lim0) w2
                 = AllowTimes (S (Z.to_nat N)) (on (rate.NewLimiter (fl N) N)) w2).
  { cbn [AllowTimes]. unfold bind at 1 3. now rewrite Hfirst. }
  rewrite Hall.
  rewrite (AllowTimes_past_burst N HN53 t' _ w2 (bucket_NewLimiter N t') Hw2).
  replace (rate.durationFromTokens (fl N) (float64.of_int 1) <=? 0) with false
    by (symmetry; apply Z.leb_gt; exact Hwait).
  reflexivity.
Qed.

Lemma bucket_is_full_after_one_second_witness :
  exists lim,
    New (strconv.Itoa 2 +:+ "/s") = inl (on lim)
    /\ fst (fst (AllowTimes (S (Z.to_nat 2))
                   (snd (fst (AllowTimes (S (Z.to_nat 2)) (on lim)
                                (answering a_time 3600))))
                   (answering (time.Add a_time time.Second) 3600)))
       = (repeat (Returns None) (Z.to_nat 2)
            ++ [Returns (Some "rate limit exceeded")])%list.
Proof.
  apply (bucket_is_full_after_one_second 2 a_time).
  - lia.
  - intros i. reflexivity.
  - intros i. reflexivity.
Defined.

(** X8. The statistics of the limiter that [New("N/s")] returns, read at
    any time before the first call of [Allow]: it is enabled, its limit
    is [N] per second, its burst is [N] and it holds [N] tokens. *)
Theorem Stats_of_New (N : Z) (w : World) :
  0 < N < 2 ^ 53 ->
  exists rl,
    New (strconv.Itoa N +:+ "/s") = inl rl
    /\ fst (Stats rl w)
       = <["tokens" := Float64 (float64.of_int N)]>
           (<["burst" := Int N]>
              (<["limit" := Float64 (float64.of_int N)]>
                 (<["enabled" := Bool true]> ∅))).
Proof.
  intros HN. eexists. split; [exact (New_per_second N HN)|].
  unfold Stats, bind, ret, Now, rate.TokensAt. cbn [limiter enabled fst].
  rewrite (advance_bucket N HN N _ _ ltac:(lia) (bucket_NewLimiter N _)).
  cbn [rate.NewLimiter rate.limit rate.burst].
  now rewrite (of_int_fl N HN).
Qed.

Lemma Stats_of_New_witness :
  exists rl,
    New (strconv.Itoa 10 +:+ "/s") = inl rl
    /\ fst (Stats rl (answering a_time 3600))
       = <["tokens" := Float64 (float64.of_int 10)]>
           (<["burst" := Int 10]>
              (<["limit" := Float64 (float64.of_int 10)]>
                 (<["enabled" := Bool true]> ∅))).
Proof.
  apply (Stats_of_New 10). lia.
Defined.

End AfterTheBurst.

(** * Further properties of the authenticators *)

Section TokenCache.

Import auth.

Lemma Header_Get_with_header (req : http.Request) (v : string) :
  http.Header_Get (http.Header (with_header req "Authorization" v)) "Authorization"
  = v.
Proof.
  unfold with_header, http.Header_Get, http.Header_Set.
  cbn [http.Header http.with_Header]. now rewrite lookup_insert_eq.
Qed.

(** While the cached token has not expired [Apply] uses it: the clock is
    read once and nothing is sent. *)
Lemma Apply_cached (o : OAuth2ClientCredentials) (req : http.Request) (w : World) :
  token o <> "" -> clock w (ticks w) < expiry o ->
  exists w',
    OAuth2ClientCredentials_Apply o req w
    = ((None, o, with_header req "Authorization" ("Bearer " +:+ token o)), w')
    /\ sent w' = sent w.
Proof.
  intros Ht He.
  unfold OAuth2ClientCredentials_Apply, getValidToken, cached_valid, nonempty,
    Now, bind, ret.
  apply String.eqb_neq in Ht. rewrite Ht. cbn [negb].
  unfold time.Before. apply Z.ltb_lt in He. rewrite He.
  eexists. split; reflexivity.
Qed.

(** X9. A new authenticator fetches its token with the first [Apply],
    sending one request to the token endpoint; when the answer declares
    an [expires_in] above 60 (and up to 9223372096), every later [Apply]
    before the reading of the clock taken at the fetch plus
    [expires_in - 60] seconds sets the same bearer token and sends
    nothing. *)
Theorem token_is_fetched_once_and_reused
        (o : OAuth2ClientCredentials) (req1 req2 : http.Request) (w : World)
        (tok tt : string) (ei : Z) :
  token o = "" ->
  url_error w (tokenURL o) = None ->
  server w (length (sent w)) (Spec.token_request o) = Spec.token_response tok tt ei ->
  tok <> "" ->
  60 < ei <= 9223372096 ->
  exists o1 w1,
    OAuth2ClientCredentials_Apply o req1 w
    = ((None, o1, with_header req1 "Authorization" ("Bearer " +:+ tok)), w1)
    /\ sent w1 = (sent w ++ [Spec.token_request o])%list
    /\ http.Header_Get
         (http.Header (snd (fst (OAuth2ClientCredentials_Apply o req1 w))))
         "Authorization" = "Bearer " +:+ tok
    /\ forall w2 : World,
        clock w2 (ticks w2) < clock w (ticks w) + (ei - 60) * time.Second ->
        exists w3,
          OAuth2ClientCredentials_Apply o1 req2 w2
          = ((None, o1, with_header req2 "Authorization" ("Bearer " +:+ tok)), w3)
          /\ sent w3 = sent w2
          /\ http.Header_Get
               (http.Header (snd (fst (OAuth2ClientCredentials_Apply o1 req2 w2))))
               "Authorization" = "Bearer " +:+ tok.
Proof.
  intros H0 Hu Hs Ht He.
  exists (set_token o tok (time.Add (clock w (ticks w)) (Spec.lifetime ei))),
    (world_after_fetch o w).
  assert (E1 : OAuth2ClientCredentials_Apply o req1 w
               = ((None,
                   set_token o tok (time.Add (clock w (ticks w)) (Spec.lifetime ei)),
                   with_header req1 "Authorization" ("Bearer " +:+ tok)),
                  world_after_fetch o w)).
  { unfold OAuth2ClientCredentials_Apply, getValidToken, cached_valid, nonempty,
      bind at 1 2 3, ret at 1 2.
    rewrite H0. cbn [String.eqb negb]. unfold bind at 1, ret at 1.
    rewrite (fetchToken_success o w tok tt ei Hu Hs Ht). reflexivity. }
  split; [exact E1|]. split; [reflexivity|]. split.
  - rewrite E1. cbn [fst snd]. apply Header_Get_with_header.
  - intros w2 Hw2.
    destruct (Apply_cached (set_token o tok
                              (time.Add (clock w (ticks w)) (Spec.lifetime ei)))
                req2 w2) as (w3 & E3 & Hs3); [exact Ht| |].
    + cbn [expiry set_token]. rewrite lifetime_in_range by lia.
      unfold Spec.expiry_after.
      replace (0 <? ei) with true by (symmetry; apply Z.ltb_lt; lia).
      exact Hw2.
    + exists w3. split; [exact E3|]. split; [exact Hs3|].
      rewrite E3. cbn [fst snd token set_token]. apply Header_Get_with_header.
Qed.

Lemma token_is_fetched_once_witness :
  exists o1 w1,
    OAuth2ClientCredentials_Apply fresh a_request (answering a_time 3600)
    = ((None, o1, with_header a_request "Authorization" ("Bearer " +:+ "abc")), w1)
    /\ sent w1 = (sent (answering a_time 3600) ++ [Spec.token_request fresh])%list
    /\ http.Header_Get
         (http.Header (snd (fst (OAuth2ClientCredentials_Apply fresh a_request
                                   (answering a_time 3600)))))
         "Authorization" = "Bearer " +:+ "abc"
    /\ forall w2 : World,
        clock w2 (ticks w2)
        < clock (answering a_time 3600) (ticks (answering a_time 3600))
          + (3600 - 60) * time.Second ->
        exists w3,
          OAuth2ClientCredentials_Apply o1 a_request w2
          = ((None, o1, with_header a_request "Authorization" ("Bearer " +:+ "abc")), w3)
          /\ sent w3 = sent w2
          /\ http.Header_Get
               (http.Header (snd (fst (OAuth2ClientCredentials_Apply o1 a_request w2))))
               "Authorization" = "Bearer " +:+ "abc".
Proof.
  apply (token_is_fetched_once_and_reused fresh a_request a_request
           (answering a_time 3600) "abc" "Bearer" 3600).
  - reflexivity.
  - reflexivity.
  - reflexivity.
  - discriminate.
  - lia.
Defined.

(** X10. An expired token is never sent: when no valid token is cached
    and [Apply] returns no error, the bearer token it sets, and caches,
    is the non-empty access token of the answer with status 200 that the
    token endpoint gave to the one request sent. *)
Theorem expired_token_is_never_sent
        (o o' : OAuth2ClientCredentials) (req req' : http.Request) (w : World) :
  Spec.no_valid_token o w ->
  fst (OAuth2ClientCredentials_Apply o req w) = (None, o', req') ->
  exists resp tok tt ei,
    server w (length (sent w)) (Spec.token_request o) = Responds resp
    /\ http.StatusCode resp = http.StatusOK
    /\ http.RespBody resp = http.Object tok tt ei
    /\ tok <> ""
    /\ token o' = tok
    /\ req' = with_header req "Authorization" ("Bearer " +:+ tok)
    /\ http.Header_Get (http.Header req') "Authorization" = "Bearer " +:+ tok
    /\ sent (snd (OAuth2ClientCredentials_Apply o req w))
       = (sent w ++ [Spec.token_request o])%list.
Proof.
  intros Hv H.
  destruct (cached_valid_expired o w Hv) as (w3 & E3 & Hc3 & Hk3 & Hu3 & Hs3 & Hl3).
  assert (Hv3 : Spec.no_valid_token o w3) by (eapply no_valid_token_later; eauto).
  destruct (cached_valid_expired o w3 Hv3) as (w4 & E4 & Hc4 & Hk4 & Hu4 & Hs4 & Hl4).
  assert (Eg : getValidToken o w = fetchToken o w4)
    by (unfold getValidToken, bind; now rewrite E3, E4).
  revert H. unfold OAuth2ClientCredentials_Apply, bind. rewrite Eg.
  unfold fetchToken, NewRequest, Do, Now, bind, ret.
  destruct (url_error w4 (tokenURL o)); [discriminate|].
  cbn [http.Header]. rewrite token_request_sent, Hs4, Hs3, Hl4, Hl3.
  destruct (server w (length (sent w)) (Spec.token_request o)) as [err|resp];
    [discriminate|].
  destruct (http.StatusCode resp =? http.StatusOK) eqn:Est; cbn [negb];
    [|discriminate].
  destruct (http.RespBody resp) as [err|tok tt ei] eqn:Ebody; [discriminate|].
  destruct (String.eqb tok "") eqn:Etok; [discriminate|].
  apply String.eqb_neq in Etok. apply Z.eqb_eq in Est.
  destruct (0 <? ei); cbn; intros [= <- <-];
    exists resp, tok, tt, ei; repeat split; auto;
    apply (Header_Get_with_header req).
Qed.

Lemma expired_token_witness :
  exists resp tok tt ei,
    server (answering a_time 3600) (length (sent (answering a_time 3600)))
      (Spec.token_request fresh) = Responds resp
    /\ http.StatusCode resp = http.StatusOK
    /\ http.RespBody resp = http.Object tok tt ei
    /\ tok <> ""
    /\ token (snd (fst (fst (OAuth2ClientCredentials_Apply fresh a_request
                                (answering a_time 3600))))) = tok
    /\ snd (fst (OAuth2ClientCredentials_Apply fresh a_request
                   (answering a_time 3600)))
       = with_header a_request "Authorization" ("Bearer " +:+ tok)
    /\ http.Header_Get
         (http.Header (snd (fst (OAuth2ClientCredentials_Apply fresh a_request
                                   (answering a_time 3600)))))
         "Authorization" = "Bearer " +:+ tok
    /\ sent (snd (OAuth2ClientCredentials_Apply fresh a_request
                    (answering a_time 3600)))
       = (sent (answering a_time 3600) ++ [Spec.token_request fresh])%list.
Proof.
  apply (expired_token_is_never_sent fresh _ a_request _ (answering a_time 3600)).
  - left. reflexivity.
  - reflexivity.
Defined.

(** X22. [Apply] of an [OAuth2ClientCredentials] never sets an empty
    bearer token: when it returns no error, the header it sets is
    ["Bearer "] followed by a non-empty token, the one the authenticator
    holds after the call; when it returns an error, request and
    authenticator are as before. *)
Theorem OAuth2_Apply_sets_a_token
        (o : OAuth2ClientCredentials) (req : http.Request) (w : World) :
  match fst (OAuth2ClientCredentials_Apply o req w) with
  | (None, o', req') =>
      token o' <> ""
      /\ req' = with_header req "Authorization" ("Bearer " +:+ token o')
      /\ http.Header_Get (http.Header req') "Authorization"
         = "Bearer " +:+ token o'
  | (Some e, o', req') => o' = o /\ req' = req
  end.
Proof.
  unfold OAuth2ClientCredentials_Apply, getValidToken, cached_valid, nonempty,
    bind, ret, Now.
  assert (Hf : forall w0,
             match fst (fetchToken o w0) with
             | (tok, None, o') => tok <> "" /\ token o' = tok
             | (_, Some _, o') => o' = o
             end).
  { intros w0. unfold fetchToken, NewRequest, Do, Now, bind, ret.
    destruct (url_error w0 (tokenURL o)); [reflexivity|].
    destruct (server w0 _ _) as [err|resp]; [reflexivity|].
    destruct (negb _); [reflexivity|].
    destruct (http.RespBody resp) as [err|tok tt ei]; [reflexivity|].
    destruct (String.eqb tok "") eqn:E; [reflexivity|].
    apply String.eqb_neq in E. destruct (0 <? ei); cbn; split; auto. }
  destruct (String.eqb (token o) "") eqn:E0; cbn [negb].
  - specialize (Hf w).
    destruct (fetchToken o w) as [[[tok [e|]] o'] w']; cbn [fst] in *.
    + split; [exact Hf|reflexivity].
    + destruct Hf as [Hne <-].
      split; [exact Hne|split; [reflexivity|apply Header_Get_with_header]].
  - apply String.eqb_neq in E0.
    destruct (time.Before (clock w (ticks w)) (expiry o)); cbn [fst];
      [split; [exact E0|split; [reflexivity|apply Header_Get_with_header]]|].
    cbn [clock ticks].
    destruct (time.Before (clock w (S (ticks w))) (expiry o)); cbn [fst];
      [split; [exact E0|split; [reflexivity|apply Header_Get_with_header]]|].
    match goal with
    | |- context [fetchToken o ?w0] =>
        specialize (Hf w0); destruct (fetchToken o w0) as [[[tok [e|]] o'] w']
    end; cbn [fst] in *.
    + split; [exact Hf|reflexivity].
    + destruct Hf as [Hne <-].
      split; [exact Hne|split; [reflexivity|apply Header_Get_with_header]].
Qed.

End TokenCache.

Section TokenRequest.

Import auth.

Lemma token_request_body_form_eq (o : OAuth2ClientCredentials) :
  token_request_body o
  = "client_id=" +:+ url.QueryEscape (clientID o)
    +:+ "&client_secret=" +:+ url.QueryEscape (clientSecret o)
    +:+ "&grant_type=client_credentials"
    +:+ match scopes o with
        | [] => ""
        | _ :: _ => "&scope=" +:+ url.QueryEscape (strings.Join (scopes o) " ")
        end.
Proof.
  unfold token_request_body. destruct (scopes o) as [|s l]; reflexivity.
Qed.

(** X11. The body of the token request is the form
    [client_id=..&client_secret=..&grant_type=client_credentials], with
    [&scope=..] after it exactly when there are scopes, joined by one
    space; the keys come in byte order, not in the order the code sets
    them, and every value is query-escaped. *)
Theorem token_request_body_form (o : OAuth2ClientCredentials) :
  token_request_body o
  = "client_id=" +:+ url.QueryEscape (clientID o)
    +:+ "&client_secret=" +:+ url.QueryEscape (clientSecret o)
    +:+ "&grant_type=client_credentials"
    +:+ match scopes o with
        | [] => ""
        | _ :: _ => "&scope=" +:+ url.QueryEscape (strings.Join (scopes o) " ")
        end.
Proof.
  unfold token_request_body, url.Encode.
  destruct (scopes o) as [|s l]; cbn [length Z.of_nat Z.ltb Z.compare];
    reflexivity.
Qed.

Lemma count_byte_app (c : ascii) (a b : string) :
  count_byte c (a +:+ b) = (count_byte c a + count_byte c b)%nat.
Proof.
  induction a as [|d a IH]; [reflexivity|].
  change (String d a +:+ b) with (String d (a +:+ b)).
  cbn [count_byte]. rewrite IH. lia.
Qed.

Lemma hexdigit_unreserved (c : ascii) :
  url.unreserved (url.hexdigit (Z.shiftr (byte_of c) 4)) = true
  /\ url.unreserved (url.hexdigit (Z.land (byte_of c) 15)) = true.
Proof. destruct c as [[] [] [] [] [] [] [] []]; vm_compute; split; reflexivity. Qed.

(** A byte that [QueryEscape] writes is unreserved, ['+'] or ['%']. *)
Lemma QueryEscape_bytes (c : ascii) (s : string) :
  url.unreserved c = false -> c <> "+"%char -> c <> "%"%char ->
  count_byte c (url.QueryEscape s) = 0%nat.
Proof.
  intros Hu Hplus Hpct.
  assert (Hne : forall d, url.unreserved d = true -> Ascii.eqb c d = false).
  { intros d Hd. apply Ascii.eqb_neq. intros ->. congruence. }
  apply Ascii.eqb_neq in Hplus, Hpct.
  induction s as [|d s IH]; [reflexivity|].
  cbn [url.QueryEscape].
  destruct (url.unreserved d) eqn:Ed.
  - cbn [count_byte]. now rewrite (Hne d Ed), IH.
  - destruct (Ascii.eqb d " "%char).
    + cbn [count_byte]. now rewrite Hplus, IH.
    + destruct (hexdigit_unreserved d) as [H1 H2].
      cbn [count_byte]. now rewrite Hpct, (Hne _ H1), (Hne _ H2), IH.
Qed.

(** X12. Whatever bytes the client id, the client secret and the scopes
    hold, the body of the token request has two ['&'] and three ['=']
    without scopes and three ['&'] and four ['='] with scopes: a value
    with ['&'] or ['='] in it cannot add or change a field of the form. *)
Theorem token_request_body_fields (o : OAuth2ClientCredentials) :
  let n := match scopes o with [] => 0%nat | _ :: _ => 1%nat end in
  count_byte "&" (token_request_body o) = (2 + n)%nat
  /\ count_byte "=" (token_request_body o) = (3 + n)%nat.
Proof.
  cbv zeta. rewrite token_request_body_form_eq.
  rewrite !count_byte_app.
  rewrite !(QueryEscape_bytes "&") by (reflexivity || discriminate).
  rewrite !(QueryEscape_bytes "=") by (reflexivity || discriminate).
  destruct (scopes o) as [|s l].
  - split; reflexivity.
  - rewrite !count_byte_app.
    rewrite (QueryEscape_bytes "&"), (QueryEscape_bytes "=")
      by (reflexivity || discriminate).
    split; reflexivity.
Qed.

End TokenRequest.

Section AppliedRequest.

Import auth.

(** X13. The header [BasicAuth.Apply] sets is ["Basic "] followed by what
    [EncodeCredentials] returns: the two methods agree on the encoding
    of the credentials. *)
Theorem BasicAuth_Apply_EncodeCredentials (b : BasicAuth) (req : http.Request) :
  username b <> "" \/ password b <> "" ->
  BasicAuth_Apply b req
  = (None, with_header req "Authorization" ("Basic " +:+ EncodeCredentials b))
  /\ http.Header_Get (http.Header (snd (BasicAuth_Apply b req))) "Authorization"
     = "Basic " +:+ EncodeCredentials b.
Proof.
  intros H.
  assert (E : nonempty (username b) || nonempty (password b) = true).
  { unfold nonempty. destruct H as [H|H]; apply String.eqb_neq in H; rewrite H;
      [reflexivity|apply orb_true_r]. }
  unfold BasicAuth_Apply. rewrite E. split; [reflexivity|].
  cbn [snd]. unfold http.SetBasicAuth, http.Header_Get, http.Header_Set.
  cbn [http.Header http.with_Header]. now rewrite lookup_insert_eq.
Qed.

Lemma BasicAuth_Apply_witness :
  BasicAuth_Apply (NewBasicAuth "Aladdin" "open sesame") a_request
  = (None, with_header a_request "Authorization"
             ("Basic " +:+ EncodeCredentials (NewBasicAuth "Aladdin" "open sesame")))
  /\ http.Header_Get
       (http.Header (snd (BasicAuth_Apply (NewBasicAuth "Aladdin" "open sesame")
                            a_request))) "Authorization"
     = "Basic " +:+ EncodeCredentials (NewBasicAuth "Aladdin" "open sesame").
Proof.
  apply (BasicAuth_Apply_EncodeCredentials (NewBasicAuth "Aladdin" "open sesame")).
  left. discriminate.
Defined.

(** What [Apply] does to the request: nothing, or one [Header.Set] under
    the name of the authenticator. *)
Lemma Apply_request (a : Authenticator) (req : http.Request) (w : World) :
  snd (fst (Apply a req w)) = req
  \/ exists v, snd (fst (Apply a req w)) = with_header req (header_of a) v.
Proof.
  destruct a as [b|b|o|c]; cbn [Apply header_of].
  - unfold BasicAuth_Apply, ret.
    destruct (nonempty (username b) || nonempty (password b));
      [right; eexists; reflexivity|left; reflexivity].
  - unfold BearerAuth_Apply, ret.
    destruct (nonempty (bearer_token b));
      [right; eexists; reflexivity|left; reflexivity].
  - unfold OAuth2ClientCredentials_Apply, bind, ret.
    destruct (getValidToken o w) as [[[tok [e|]] o'] w'];
      [left; reflexivity|right; eexists; reflexivity].
  - unfold CustomAuth_Apply, ret.
    destruct (nonempty (header c) && nonempty (value c));
      [right; eexists; reflexivity|left; reflexivity].
Qed.

(** X14. [Apply] of any of the four authenticators leaves the method,
    the URL and the body of the request as they are, and every header
    other than its own ([Authorization], or the header of a
    [CustomAuth]; names compared in canonical form). *)
Theorem Apply_touches_one_header
        (a : Authenticator) (req : http.Request) (w : World) (key : string) :
  textproto.CanonicalMIMEHeaderKey key
  <> textproto.CanonicalMIMEHeaderKey (header_of a) ->
  let req' := snd (fst (Apply a req w)) in
  http.Method req' = http.Method req
  /\ http.URL req' = http.URL req
  /\ http.Body req' = http.Body req
  /\ http.Header req' !! textproto.CanonicalMIMEHeaderKey key
     = http.Header req !! textproto.CanonicalMIMEHeaderKey key
  /\ http.Header_Get (http.Header req') key = http.Header_Get (http.Header req) key.
Proof.
  intros Hk. cbv zeta.
  destruct (Apply_request a req w) as [->|(v & ->)]; [repeat split|].
  unfold with_header, http.Header_Get, http.Header_Set.
  cbn [http.Method http.URL http.Body http.Header http.with_Header].
  rewrite lookup_insert_ne by congruence. repeat split.
Qed.

Lemma Apply_touches_one_header_witness :
  let req' :=
    snd (fst (Apply (Custom (NewCustomAuth "X-API-Key" "k")) a_request
                (answering a_time 3600))) in
  http.Method req' = http.Method a_request
  /\ http.URL req' = http.URL a_request
  /\ http.Body req' = http.Body a_request
  /\ http.Header req' !! textproto.CanonicalMIMEHeaderKey "accept"
     = http.Header a_request !! textproto.CanonicalMIMEHeaderKey "accept"
  /\ http.Header_Get (http.Header req') "accept"
     = http.Header_Get (http.Header a_request) "accept".
Proof.
  apply (Apply_touches_one_header (Custom (NewCustomAuth "X-API-Key" "k"))).
  vm_compute. discriminate.
Defined.

(** X15. [Apply] sends at most one request, the token request of an
    [OAuth2ClientCredentials]; the other three authenticators send
    nothing and read no clock. *)
Theorem Apply_sends_at_most_the_token_request
        (a : Authenticator) (req : http.Request) (w : World) :
  match a with
  | OAuth2 o =>
      sent (snd (Apply a req w)) = sent w
      \/ sent (snd (Apply a req w)) = (sent w ++ [Spec.token_request o])%list
  | _ => snd (Apply a req w) = w
  end.
Proof.
  destruct a as [b|b|o|c]; cbn [Apply].
  - unfold ret. now destruct (BasicAuth_Apply b req).
  - unfold ret. now destruct (BearerAuth_Apply b req).
  - unfold OAuth2ClientCredentials_Apply, getValidToken, cached_valid, bind, ret, Now.
    assert (Hf : forall w0, sent (snd (fetchToken o w0)) = sent w0
                            \/ sent (snd (fetchToken o w0))
                               = (sent w0 ++ [Spec.token_request o])%list).
    { intros w0. unfold fetchToken, NewRequest, Do, Now, bind, ret.
      destruct (url_error w0 (tokenURL o)); [left; reflexivity|].
      cbn [http.Header]. rewrite token_request_sent.
      destruct (server w0 _ _) as [err|resp]; [right; reflexivity|].
      destruct (negb _); [right; reflexivity|].
      destruct (http.RespBody resp) as [err|tok tt ei]; [right; reflexivity|].
      destruct (String.eqb tok ""); [right; reflexivity|].
      destruct (0 <? ei); right; reflexivity. }
    destruct (nonempty (token o)).
    + destruct (time.Before (clock w (ticks w)) (expiry o)); [left; reflexivity|].
      cbn [ticks clock].
      destruct (time.Before (clock w (S (ticks w))) (expiry o)); [left; reflexivity|].
      match goal with
      | |- context [fetchToken o ?w0] =>
          specialize (Hf w0); destruct (fetchToken o w0) as [[[tok [e|]] o'] w']
      end; exact Hf.
    + specialize (Hf w). destruct (fetchToken o w) as [[[tok [e|]] o'] w']; exact Hf.
  - unfold ret. now destruct (CustomAuth_Apply c req).
Qed.

End AppliedRequest.

(** * package main: the options [-H] and [-q] *)

Section SplitAtFirst.

Lemma HasPrefix_byte (c d : ascii) (s : string) :
  strings.HasPrefix (String d s) (String c "") = Ascii.eqb c d.
Proof. cbn. destruct (Ascii.eqb c d), s; reflexivity. Qed.

Lemma Index_absent (c : ascii) (s : string) :
  count_byte c s = 0%nat -> Strings.Index s (String c "") = None.
Proof.
  induction s as [|d s IH]; intros H; [reflexivity|].
  cbn [count_byte] in H. cbn [Strings.Index]. rewrite HasPrefix_byte.
  destruct (Ascii.eqb c d); [discriminate|]. now rewrite IH.
Qed.

Lemma Index_first (c : ascii) (k v : string) :
  count_byte c k = 0%nat ->
  Strings.Index (k +:+ String c v) (String c "") = Some (String.length k).
Proof.
  induction k as [|d k IH]; intros H.
  - change ("" +:+ String c v) with (String c v).
    cbn [Strings.Index]. rewrite HasPrefix_byte. now rewrite Ascii.eqb_refl.
  - cbn [count_byte] in H. change (String d k +:+ String c v) with (String d (k +:+ String c v)).
    cbn [Strings.Index]. rewrite HasPrefix_byte.
    destruct (Ascii.eqb c d); [discriminate|]. now rewrite IH.
Qed.

Lemma upto_app (k r : string) : Strings.upto (String.length k) (k +:+ r) = k.
Proof.
  induction k as [|d k IH]; [now destruct r|].
  change (String d k +:+ r) with (String d (k +:+ r)). cbn. now rewrite IH.
Qed.

Lemma from_app (k r : string) : Strings.from (String.length k) (k +:+ r) = r.
Proof.
  induction k as [|d k IH]; [reflexivity|].
  change (String d k +:+ r) with (String d (k +:+ r)). cbn. exact IH.
Qed.

Lemma length_app_string (a b : string) :
  String.length (a +:+ b) = (String.length a + String.length b)%nat.
Proof.
  induction a as [|d a IH]; [reflexivity|].
  change (String d a +:+ b) with (String d (a +:+ b)). cbn. now rewrite IH.
Qed.

(** [SplitN(s, sep, 2)] for a separator of one byte: a string without
    the separator is one piece, any other is cut at the first one. *)
Lemma SplitN_absent (c : ascii) (s : string) :
  count_byte c s = 0%nat -> Strings.SplitN s (String c "") 2 = [s].
Proof.
  intros H. unfold Strings.SplitN. cbn [Z.eqb Z.ltb Z.compare].
  destruct (_ <? 2).
  - destruct (Z.to_nat _); cbn [Strings.genSplit]; [reflexivity|].
    now rewrite Index_absent.
  - change (Z.to_nat (2 - 1)) with 1%nat. cbn [Strings.genSplit].
    now rewrite Index_absent.
Qed.

Lemma SplitN_first (c : ascii) (k v : string) :
  count_byte c k = 0%nat ->
  Strings.SplitN (k +:+ String c v) (String c "") 2 = [k; v].
Proof.
  intros H. unfold Strings.SplitN. cbn [Z.eqb Z.ltb Z.compare].
  replace (_ <? 2) with false.
  2:{ symmetry. apply Z.ltb_ge. rewrite length_app_string. cbn [String.length]. lia. }
  change (Z.to_nat (2 - 1)) with 1%nat. cbn [Strings.genSplit].
  rewrite (Index_first c k v H), upto_app.
  change (String.length (String c "")) with 1%nat.
  replace (String.length k + 1)%nat with (String.length (k +:+ String c "")).
  2:{ rewrite length_app_string. reflexivity. }
  replace (k +:+ String c v) with ((k +:+ String c "") +:+ v).
  2:{ clear H. induction k as [|d k IH]; [reflexivity|].
      change (String d k +:+ String c "") with (String d (k +:+ String c "")).
      change (String d (k +:+ String c "") +:+ v)
        with (String d ((k +:+ String c "") +:+ v)).
      now rewrite IH. }
  now rewrite from_app.
Qed.

End SplitAtFirst.

Section HeaderOption.

Variable TrimFunc_IsSpace : string -> string.
Variable TrimRightFunc_IsSpace : string -> string.

(** X16. [addHeaders] cuts an entry at its first colon, trims both
    parts and sets the header: after the call, the header named by the
    last entry holds the trimmed rest of that entry, colons included,
    whatever the earlier entries and the request had under that name. *)
Theorem addHeaders_sets_the_last_entry
        (req : http.Request) (headers : list string) (key value : string) :
  count_byte ":" key = 0%nat ->
  http.Header_Get
    (http.Header (main.addHeaders TrimFunc_IsSpace TrimRightFunc_IsSpace req
          (headers ++ [key +:+ ":" +:+ value])))
    (main.TrimSpace TrimFunc_IsSpace TrimRightFunc_IsSpace key)
  = main.TrimSpace TrimFunc_IsSpace TrimRightFunc_IsSpace value.
Proof using Type.
  intros Hk. unfold main.addHeaders. cbn [http.Header http.with_Header].
  rewrite fold_left_app. cbn [fold_left]. unfold main.addHeader at 1.
  change (key +:+ ":" +:+ value) with (key +:+ String ":" value).
  rewrite (SplitN_first ":" key value Hk).
  unfold http.Header_Get, http.Header_Set. now rewrite lookup_insert_eq.
Qed.

(** X17. An entry without a colon is passed over: the request is left
    as it would be without that entry, and no error is raised. *)
Theorem addHeaders_skips_entries_without_colon
        (req : http.Request) (before after : list string) (entry : string) :
  count_byte ":" entry = 0%nat ->
  main.addHeaders TrimFunc_IsSpace TrimRightFunc_IsSpace req
    (before ++ entry :: after)
  = main.addHeaders TrimFunc_IsSpace TrimRightFunc_IsSpace req (before ++ after).
Proof using Type.
  intros He. unfold main.addHeaders. f_equal.
  rewrite !fold_left_app. cbn [fold_left]. f_equal.
  unfold main.addHeader. now rewrite (SplitN_absent ":" entry He).
Qed.

End HeaderOption.

Lemma addHeaders_sets_the_last_entry_witness :
  http.Header_Get
    (http.Header
       (main.addHeaders id id a_request
          (["Accept: text/html"] ++ ["accept" +:+ ":" +:+ " application/json "])))
    (main.TrimSpace id id "accept")
  = main.TrimSpace id id " application/json ".
Proof.
  apply (addHeaders_sets_the_last_entry id id a_request). reflexivity.
Defined.

Lemma addHeaders_skips_witness :
  main.addHeaders id id a_request (["Accept: text/html"] ++ "no colon" :: ["X-Id: 7"])
  = main.addHeaders id id a_request (["Accept: text/html"] ++ ["X-Id: 7"]).
Proof.
  apply (addHeaders_skips_entries_without_colon id id a_request). reflexivity.
Defined.

Section TrimSpaceASCII.

Variable TrimFunc_IsSpace : string -> string.
Variable TrimRightFunc_IsSpace : string -> string.

Lemma trim_stop_ascii (r : list ascii) :
  Forall (fun c => byte_of c < Strings.RuneSelf) r ->
  exists sp rest,
    r = (sp ++ rest)%list
    /\ forallb Strings.asciiSpace sp = true
    /\ Strings.trim_stop TrimRightFunc_IsSpace r = string_of_list_ascii (rev rest)
    /\ (forall c, hd_error rest = Some c -> Strings.asciiSpace c = false).
Proof using Type.
  induction r as [|c r IH]; intros Ha.
  - exists [], []. repeat split; try reflexivity. discriminate.
  - inversion Ha as [|? ? Hc Hr]; subst. cbn [Strings.trim_stop].
    replace (Strings.RuneSelf <=? byte_of c) with false
      by (symmetry; apply Z.leb_gt; exact Hc).
    destruct (Strings.asciiSpace c) eqn:Es.
    + destruct (IH Hr) as (sp & rest & -> & Hsp & E & Hh).
      exists (c :: sp), rest. repeat split; auto. cbn. now rewrite Es, Hsp.
    + exists [], (c :: r). repeat split; auto. now intros ? [= <-].
Qed.

(** X18. On a string of ASCII bytes the [TrimSpace] that [addHeaders]
    applies to the two parts of an entry returns the string
    without the tabs, line feeds, vertical tabs, form feeds, carriage
    returns and spaces at its two ends, and without any other change:
    the result neither starts nor ends with one of these, and what was
    cut off at either end consists of them. *)
Theorem TrimSpace_ascii (s : string) :
  Forall (fun c => byte_of c < Strings.RuneSelf) (list_ascii_of_string s) ->
  let t := list_ascii_of_string
             (main.TrimSpace TrimFunc_IsSpace TrimRightFunc_IsSpace s) in
  exists pre post,
    list_ascii_of_string s = (pre ++ t ++ post)%list
    /\ forallb Strings.asciiSpace pre = true
    /\ forallb Strings.asciiSpace post = true
    /\ (forall c, hd_error t = Some c -> Strings.asciiSpace c = false)
    /\ (forall c, hd_error (rev t) = Some c -> Strings.asciiSpace c = false).
Proof using Type.
  cbv zeta. unfold main.TrimSpace. induction s as [|c s IH]; intros Ha.
  - exists [], []. repeat split; try reflexivity; discriminate.
  - cbn [list_ascii_of_string] in Ha. inversion Ha as [|? ? Hc Hs]; subst.
    cbn [Strings.TrimSpace].
    replace (Strings.RuneSelf <=? byte_of c) with false
      by (symmetry; apply Z.leb_gt; exact Hc).
    destruct (Strings.asciiSpace c) eqn:Es.
    + destruct (IH Hs) as (pre & post & E & Hpre & Hpost & Hh & Hl).
      exists (c :: pre), post. repeat split; auto.
      * cbn [list_ascii_of_string]. rewrite E at 1. reflexivity.
      * cbn. now rewrite Es, Hpre.
    + destruct (trim_stop_ascii (rev (list_ascii_of_string (String c s))))
        as (sp & rest & E & Hsp & Et & Hh).
      { apply Forall_rev. exact Ha. }
      rewrite Et, list_ascii_of_string_of_list_ascii.
      assert (E' : list_ascii_of_string (String c s) = (rev rest ++ rev sp)%list).
      { rewrite <- rev_app_distr, <- E. now rewrite rev_involutive. }
      exists [], (rev sp). repeat split.
      * exact E'.
      * rewrite forallb_forall in *. intros x Hx. apply Hsp.
        now apply in_rev.
      * intros x Hx. cbn [list_ascii_of_string] in E'.
        destruct (rev rest) as [|y l].
        -- discriminate.
        -- cbn in Hx, E'. injection Hx as <-. injection E' as <- _. exact Es.
      * intros x Hx. rewrite rev_involutive in Hx. now apply Hh.
Qed.

End TrimSpaceASCII.

Lemma TrimSpace_ascii_witness :
  let t := list_ascii_of_string (main.TrimSpace id id "  Bearer a:b ") in
  exists pre post,
    list_ascii_of_string "  Bearer a:b " = (pre ++ t ++ post)%list
    /\ forallb Strings.asciiSpace pre = true
    /\ forallb Strings.asciiSpace post = true
    /\ (forall c, hd_error t = Some c -> Strings.asciiSpace c = false)
    /\ (forall c, hd_error (rev t) = Some c -> Strings.asciiSpace c = false).
Proof.
  apply (TrimSpace_ascii id id "  Bearer a:b ").
  repeat (constructor; [reflexivity|]). constructor.
Defined.

(** * package main: the query parameters *)

Section QueryOption.


(** X19. An entry of [-q] without ['='] is passed over: the query is
    the one the other entries give. *)
Theorem addQueryParams_skips_entries_without_equals
        (q : main.Values) (before after : list string) (entry : string) :
  count_byte "=" entry = 0%nat ->
  main.addQueryParams q (before ++ entry :: after)
  = main.addQueryParams q (before ++ after).
Proof.
  intros He. unfold main.addQueryParams. f_equal.
  rewrite !fold_left_app. cbn [fold_left]. f_equal.
  unfold main.addQueryParam. now rewrite (SplitN_absent "=" entry He).
Qed.

Lemma addQueryParams_skips_witness :
  main.addQueryParams ∅ (["a=1"] ++ "flag" :: ["b=2"])
  = main.addQueryParams ∅ (["a=1"] ++ ["b=2"]).
Proof.
  apply (addQueryParams_skips_entries_without_equals ∅). reflexivity.
Defined.



Lemma append_assoc_string (a b c : string) : (a +:+ b) +:+ c = a +:+ b +:+ c.
Proof.
  induction a as [|d a IH]; [reflexivity|].
  change (String d a +:+ b) with (String d (a +:+ b)).
  change (String d (a +:+ b) +:+ c) with (String d ((a +:+ b) +:+ c)).
  now rewrite IH.
Qed.

Lemma write_pairs (ke : string) (l : list string) :
  forall buf : string,
    buf <> "" -> l <> [] ->
    fold_left (main.write_pair ke) l buf
    = buf +:+ "&"
      +:+ strings.Join (map (fun v => ke +:+ "=" +:+ url.QueryEscape v) l) "&".
Proof.
  induction l as [|v l IH]; intros buf Hb Hl; [contradiction|].
  cbn [fold_left]. unfold main.write_pair at 2.
  replace (0 <? Z.of_nat (String.length buf)) with true
    by (symmetry; apply Z.ltb_lt; destruct buf; [contradiction|cbn; lia]).
  destruct l as [|v' l].
  - cbn [fold_left map strings.Join]. apply append_assoc_string.
  - rewrite IH; [|destruct buf; discriminate|discriminate].
    cbn [map strings.Join]. rewrite !append_assoc_string. reflexivity.
Qed.

Lemma fold_addQueryParam_same_key (k : string) (vs : list string) :
  count_byte "=" k = 0%nat ->
  forall (q : main.Values) (l : list string),
    fold_left main.addQueryParam (map (fun v => k +:+ "=" +:+ v) vs) (<[k := l]> q)
    = <[k := (l ++ vs)%list]> q.
Proof.
  intros Hk. induction vs as [|v vs IH]; intros q l.
  - cbn. now rewrite app_nil_r.
  - cbn [map fold_left]. unfold main.addQueryParam at 2.
    change (k +:+ "=" +:+ v) with (k +:+ String "=" v).
    rewrite (SplitN_first "=" k v Hk). unfold main.Values_Add, main.Values in *.
    rewrite lookup_insert_eq, insert_insert_eq. cbn [default].
    rewrite IH. now rewrite <- app_assoc.
Qed.

(** X21. On a URL without a query, entries of [-q] with one key give
    the query [key=v1&key=v2&..]: the values in the order given, the key
    and the values escaped, each entry cut at its first ['='], so that a
    value may hold further ['='] signs. *)
Theorem addQueryParams_same_key (k : string) (vs : list string) :
  count_byte "=" k = 0%nat ->
  main.addQueryParams ∅ (map (fun v => k +:+ "=" +:+ v) vs)
  = strings.Join
      (map (fun v => url.QueryEscape k +:+ "=" +:+ url.QueryEscape v) vs) "&".
Proof.
  intros Hk. unfold main.addQueryParams.
  destruct vs as [|v vs]; [reflexivity|].
  cbn [map fold_left]. unfold main.addQueryParam at 2.
  change (k +:+ "=" +:+ v) with (k +:+ String "=" v).
  rewrite (SplitN_first "=" k v Hk). unfold main.Values_Add, main.Values.
  rewrite lookup_empty. cbn [default app].
  rewrite (fold_addQueryParam_same_key k vs Hk ∅ [v]). cbn [app].
  unfold main.Values_Encode, main.sorted_keys, main.Values.
  rewrite insert_empty, map_size_singleton, map_to_list_singleton.
  cbn [Z.of_nat Z.eqb Pos.of_succ_nat map fst]. 
  change (merge_sort String.le [k]) with [k]. cbn [fold_left].
  rewrite lookup_singleton_eq.
  change (Z.of_nat 1 =? 0) with false. cbv iota. unfold id. cbn [default fold_left].
  unfold main.write_pair at 2. cbn [String.length Z.of_nat Z.ltb Z.compare].
  change ("" +:+ url.QueryEscape k +:+ "=" +:+ url.QueryEscape v)
    with (url.QueryEscape k +:+ "=" +:+ url.QueryEscape v).
  destruct vs as [|v' vs]; [reflexivity|].
  rewrite write_pairs; [reflexivity| |discriminate].
  destruct (url.QueryEscape k); discriminate.
Qed.

Lemma addQueryParams_same_key_witness :
  main.addQueryParams ∅ (map (fun v => "tag" +:+ "=" +:+ v) ["a b"; "x=y"])
  = strings.Join
      (map (fun v => url.QueryEscape "tag" +:+ "=" +:+ url.QueryEscape v)
           ["a b"; "x=y"]) "&".
Proof.
  apply (addQueryParams_same_key "tag"). reflexivity.
Defined.

End QueryOption.

(** * Rate specifications in general *)

Section RateSpecifications.

Import ratelimit.

Lemma digits_grow (s : string) :
  forall x v : Z, 0 <= x -> strconv.digits x s = Some v -> x <= v.
Proof.
  induction s as [|c s IH]; intros x v Hx H; cbn [strconv.digits] in H.
  - injection H as <-. lia.
  - destruct (strconv.is_digit c) eqn:Hc; [|discriminate].
    unfold strconv.is_digit in Hc. apply andb_prop in Hc as [H1 H2].
    apply Z.leb_le in H1, H2. apply IH in H; lia.
Qed.

(** [leadingInt] reads the digits [strconv.digits] reads, up to the
    first byte that is no digit. *)
Lemma leadingInt_digits (ds rest : string) :
  (forall c r, rest = String c r -> strconv.is_digit c = false) ->
  forall x v : Z,
    0 <= x -> strconv.digits x ds = Some v -> v <= 2 ^ 63 / 10 ->
    time.leadingInt x (ds +:+ rest) = Some (v, rest).
Proof.
  intros Hrest. induction ds as [|c ds IH]; intros x v Hx H Hv.
  - cbn [strconv.digits] in H. injection H as <-.
    change ("" +:+ rest) with rest.
    destruct rest as [|c r]; [reflexivity|].
    cbn [time.leadingInt]. now rewrite (Hrest c r eq_refl).
  - change (String c ds +:+ rest) with (String c (ds +:+ rest)).
    cbn [strconv.digits] in H. cbn [time.leadingInt].
    destruct (strconv.is_digit c) eqn:Hc; [|discriminate].
    pose proof Hc as Hc'. unfold strconv.is_digit in Hc'.
    apply andb_prop in Hc' as [H1 H2]. apply Z.leb_le in H1, H2.
    assert (Hg : x * 10 + (byte_of c - 48) <= v)
      by (apply (digits_grow ds); [lia|exact H]).
    assert (H63 : 2 ^ 63 / 10 = 922337203685477580) by reflexivity.
    replace (2 ^ 63 / 10 <? x) with false by (symmetry; apply Z.ltb_ge; lia).
    replace (x * 10 + byte_of c - 48) with (x * 10 + (byte_of c - 48)) by lia.
    unfold wrapU64. rewrite Z.mod_small by lia.
    replace (2 ^ 63 <? x * 10 + (byte_of c - 48)) with false
      by (symmetry; apply Z.ltb_ge; lia).
    apply IH; [lia|exact H|exact Hv].
Qed.

Lemma digits_of_Itoa (k : Z) :
  0 < k ->
  strconv.digits 0 (strconv.Itoa k) = Some k
  /\ exists c r, strconv.Itoa k = String c r /\ strconv.is_digit c = true.
Proof.
  intros Hk. destruct k as [|p|p]; try lia. unfold strconv.Itoa.
  pose proof (digits_of_uint (Pos.to_uint p)) as Hd.
  rewrite Unsigned.of_to in Hd. cbn [Z.of_N] in Hd. split; [exact Hd|].
  destruct (NilEmpty.string_of_uint (Pos.to_uint p)) as [|c rest] eqn:Es;
    [discriminate|].
  exists c, rest. split; [reflexivity|].
  cbn [strconv.digits] in Hd. destruct (strconv.is_digit c); [reflexivity|discriminate].
Qed.

Lemma contains_slash_app (a b : string) :
  Spec.contains_slash (a +:+ b) = Spec.contains_slash a || Spec.contains_slash b.
Proof.
  induction a as [|c a IH]; [reflexivity|].
  change (String c a +:+ b) with (String c (a +:+ b)).
  rewrite !contains_slash_cons, IH. now rewrite orb_assoc.
Qed.

(** [time.ParseDuration] on a whole number of seconds. *)
Lemma ParseDuration_seconds (k : Z) :
  0 < k <= 9223372036 ->
  time.ParseDuration (strconv.Itoa k +:+ "s") = Some (k * time.Second).
Proof.
  intros Hk. destruct (digits_of_Itoa k ltac:(lia)) as (Hd & c & r & Ei & Hc).
  assert (Hlead : time.leadingInt 0 (strconv.Itoa k +:+ "s") = Some (k, "s")).
  { apply leadingInt_digits; try lia; [|exact Hd|].
    - intros c' r' [= <- <-]. reflexivity.
    - change (2 ^ 63 / 10) with 922337203685477580. lia. }
  assert (Hsec : time.Second = 1000000000) by reflexivity.
  assert (Hsign : Ascii.eqb c "-"%char || Ascii.eqb c "+"%char = false).
  { destruct (Ascii.eqb_spec c "-"%char) as [->|]; [discriminate|].
    destruct (Ascii.eqb_spec c "+"%char) as [->|]; [discriminate|reflexivity]. }
  unfold time.ParseDuration. rewrite Ei in *.
  change (String c r +:+ "s") with (String c (r +:+ "s")) in *.
  cbv iota. rewrite Hsign. cbv iota beta.
  replace (String.eqb (String c (r +:+ "s")) "0") with false.
  2:{ symmetry. apply String.eqb_neq. intros [= -> H]. destruct r; discriminate. }
  cbn [String.eqb String.length time.parse_loop].
  replace (negb (time.is_digit_or_dot c)) with false
    by (unfold time.is_digit_or_dot; rewrite Hc; now rewrite orb_true_r).
  rewrite Hlead.
  replace (negb (time.strlen (String c (r +:+ "s")) =? time.strlen "s")) with true.
  2:{ symmetry. apply negb_true_iff, Z.eqb_neq. unfold time.strlen.
      cbn [String.length]. rewrite length_app_string. cbn [String.length]. lia. }
  cbn [negb andb time.unit_span].
  change (time.is_digit_or_dot "s") with false. cbv iota beta.
  change (String.eqb "s" "") with false. cbv iota.
  change (time.unitMap "s") with (Some time.Second). cbv iota beta.
  change (2 ^ 63 / time.Second) with 9223372036.
  replace (9223372036 <? k) with false by (symmetry; apply Z.ltb_ge; lia).
  change (0 <? 0) with false. cbn [andb]. cbv iota.
  unfold wrapU64. rewrite Hsec.
  rewrite (Z.mod_small (k * 1000000000)) by lia.
  rewrite (Z.mod_small (0 + k * 1000000000)) by lia.
  replace (2 ^ 63 <? 0 + k * 1000000000) with false
    by (symmetry; apply Z.ltb_ge; lia).
  destruct (String.length (r +:+ "s")); cbn [time.parse_loop];
    (replace (MaxInt64 <? 0 + k * 1000000000) with false
      by (symmetry; apply Z.ltb_ge; unfold MaxInt64; lia));
    f_equal; lia.
Qed.

Lemma Seconds_whole (k : Z) :
  0 < k -> time.Seconds (k * time.Second) = float64.of_int k.
Proof.
  intros Hk. unfold time.Seconds.
  assert (Hsec : time.Second = 1000000000) by reflexivity. rewrite Hsec.
  rewrite Z.quot_mul, Z.rem_mul by lia.
  change (float64.div (float64.of_int 0) (float64.of_int 1000000000))
    with (S754_zero false).
  pose proof (nonneg_of_int k ltac:(lia)) as Hn.
  destruct (float64.of_int k) as [[|]|[|]| |[|] m e]; try discriminate; reflexivity.
Qed.

Lemma New_requests_per_duration_eq (N K : Z) :
  0 < N <= MaxInt64 -> 0 < K <= 9223372036 ->
  New (strconv.Itoa N +:+ "/" +:+ strconv.Itoa K +:+ "s") = inl (Spec.limiter_for N K)
  /\ New (strconv.Itoa N +:+ "/s") = inl (Spec.limiter_for N 1)
  /\ New (strconv.Itoa N +:+ "/m") = inl (Spec.limiter_for N 60)
  /\ New (strconv.Itoa N +:+ "/h") = inl (Spec.limiter_for N 3600).
Proof.
  intros HN HK. destruct (Atoi_Itoa N HN) as [Ha Hs].
  destruct (digits_of_Itoa K ltac:(lia)) as (Hd & c & r & Ei & Hc).
  assert (Hpre : forall d : string,
             Spec.contains_slash d = false ->
             parseRate (strconv.Itoa N +:+ "/" +:+ d)
             = match parseDuration d with
               | inl duration =>
                   inl (float64.div (float64.of_int N) (time.Seconds duration), N)
               | inr err => inr ("invalid duration: " +:+ err)
               end).
  { intros d Hdn. unfold parseRate, strings.Split.
    change (strconv.Itoa N +:+ "/" +:+ d) with (strconv.Itoa N +:+ String "/" d).
    rewrite split_at_slash by exact Hs.
    rewrite split_no_separator by exact Hdn.
    change ("" +:+ strconv.Itoa N) with (strconv.Itoa N).
    change ("" +:+ d) with d.
    rewrite Ha. now replace (N <=? 0) with false by (symmetry; apply Z.leb_gt; lia). }
  assert (Hnew : forall d : string,
             New (strconv.Itoa N +:+ "/" +:+ d)
             = match parseRate (strconv.Itoa N +:+ "/" +:+ d) with
               | inl (limit, burst) =>
                   inl {| limiter := Some (rate.NewLimiter limit burst);
                          enabled := true |}
               | inr err => inr ("invalid rate format: " +:+ err)
               end).
  { intros d. unfold New.
    replace (String.eqb (strconv.Itoa N +:+ "/" +:+ d) "") with false; [reflexivity|].
    symmetry. apply String.eqb_neq. destruct (strconv.Itoa N); discriminate. }
  repeat split.
  - rewrite Hnew, Hpre.
    2:{ rewrite contains_slash_app.
        rewrite (digits_no_slash _ _ _ Hd). reflexivity. }
    unfold parseDuration.
    assert (Hlen : forall u : string,
               String.length u = 1%nat ->
               String.eqb (strconv.Itoa K +:+ "s") u = false).
    { intros u Hu. apply String.eqb_neq. intros H.
      apply (f_equal String.length) in H.
      rewrite length_app_string, Ei, Hu in H. cbn in H. lia. }
    rewrite !Hlen by reflexivity.
    rewrite (ParseDuration_seconds K HK).
    replace (K * time.Second <=? 0) with false
      by (symmetry; apply Z.leb_gt; change time.Second with 1000000000; lia).
    rewrite Seconds_whole by lia. reflexivity.
  - change (strconv.Itoa N +:+ "/s") with (strconv.Itoa N +:+ "/" +:+ "s").
    rewrite Hnew, Hpre by reflexivity. reflexivity.
  - change (strconv.Itoa N +:+ "/m") with (strconv.Itoa N +:+ "/" +:+ "m").
    rewrite Hnew, Hpre by reflexivity. reflexivity.
  - change (strconv.Itoa N +:+ "/h") with (strconv.Itoa N +:+ "/" +:+ "h").
    rewrite Hnew, Hpre by reflexivity. reflexivity.
Qed.

Lemma limits_to_limiter_for (r : RateLimiter + string) (N K : Z) :
  r = inl (Spec.limiter_for N K) -> limits_to r N K.
Proof. intros ->. eexists. split; [reflexivity|]. split; reflexivity. Qed.

(** X23. What the rate specifications mean: for positive [N] and [K]
    (up to 9223372036 seconds), [New("N/Ks")] returns an enabled limiter
    with a burst of [N] and a limit of [float64(N) / float64(K)] events
    per second, and [New("N/s")], [New("N/m")] and [New("N/h")] the same
    with [K] one, sixty and 3600. *)
Theorem New_requests_per_duration (N K : Z) :
  0 < N <= MaxInt64 -> 0 < K <= 9223372036 ->
  (New (strconv.Itoa N +:+ "/" +:+ strconv.Itoa K +:+ "s") = inl (Spec.limiter_for N K)
   /\ New (strconv.Itoa N +:+ "/s") = inl (Spec.limiter_for N 1)
   /\ New (strconv.Itoa N +:+ "/m") = inl (Spec.limiter_for N 60)
   /\ New (strconv.Itoa N +:+ "/h") = inl (Spec.limiter_for N 3600))
  /\ limits_to (New (strconv.Itoa N +:+ "/" +:+ strconv.Itoa K +:+ "s")) N K
  /\ limits_to (New (strconv.Itoa N +:+ "/s")) N 1
  /\ limits_to (New (strconv.Itoa N +:+ "/m")) N 60
  /\ limits_to (New (strconv.Itoa N +:+ "/h")) N 3600.
Proof.
  intros HN HK.
  pose proof (New_requests_per_duration_eq N K HN HK) as H.
  split; [exact H|]. destruct H as (H1 & H2 & H3 & H4).
  repeat split; now apply limits_to_limiter_for.
Qed.

Lemma New_requests_per_duration_witness :
  (New (strconv.Itoa 100 +:+ "/" +:+ strconv.Itoa 30 +:+ "s")
   = inl (Spec.limiter_for 100 30)
   /\ New (strconv.Itoa 100 +:+ "/s") = inl (Spec.limiter_for 100 1)
   /\ New (strconv.Itoa 100 +:+ "/m") = inl (Spec.limiter_for 100 60)
   /\ New (strconv.Itoa 100 +:+ "/h") = inl (Spec.limiter_for 100 3600))
  /\ limits_to (New (strconv.Itoa 100 +:+ "/" +:+ strconv.Itoa 30 +:+ "s")) 100 30
  /\ limits_to (New (strconv.Itoa 100 +:+ "/s")) 100 1
  /\ limits_to (New (strconv.Itoa 100 +:+ "/m")) 100 60
  /\ limits_to (New (strconv.Itoa 100 +:+ "/h")) 100 3600.
Proof.
  apply (New_requests_per_duration 100 30); unfold MaxInt64; lia.
Defined.

End RateSpecifications.

(** * The encoding of the credentials *)

Section Base64.

Lemma lor_disjoint (x y k : Z) :
  0 <= k -> 0 <= y < 2 ^ k -> Z.lor (x * 2 ^ k) y = x * 2 ^ k + y.
Proof.
  intros Hk Hy.
  assert (H0 : Z.land (x * 2 ^ k) y = 0).
  { apply Z.bits_inj'. intros n Hn. rewrite Z.land_spec, Z.bits_0.
    destruct (Z.lt_ge_cases n k) as [Hlt|Hge].
    - now rewrite Z.mul_pow2_bits_low.
    - destruct (Z.eq_dec y 0) as [->|Hy0]; [now rewrite Z.bits_0, andb_false_r|].
      rewrite (Z.bits_above_log2 y n); [apply andb_false_r|lia|].
      apply Z.log2_lt_pow2; [lia|].
      apply Z.lt_le_trans with (2 ^ k); [lia|].
      apply Z.pow_le_mono_r; lia. }
  rewrite <- Z.lxor_lor by exact H0. symmetry. now apply Z.add_nocarry_lxor.
Qed.

Lemma byte_of_range (c : ascii) : 0 <= byte_of c < 256.
Proof. destruct c as [[] [] [] [] [] [] [] []]; vm_compute; split; congruence. Qed.

Lemma byte_of_inj (c d : ascii) : byte_of c = byte_of d -> c = d.
Proof.
  unfold byte_of. intros H. apply N2Z.inj in H.
  rewrite <- (ascii_N_embedding c), <- (ascii_N_embedding d). now rewrite H.
Qed.

(** The value of a block of three bytes. *)
Lemma block_value (a b c : ascii) :
  Z.lor (Z.lor (Z.shiftl (byte_of a) 16) (Z.shiftl (byte_of b) 8)) (byte_of c)
  = byte_of a * 65536 + byte_of b * 256 + byte_of c.
Proof.
  pose proof (byte_of_range a). pose proof (byte_of_range b).
  pose proof (byte_of_range c).
  rewrite !Z.shiftl_mul_pow2 by lia.
  rewrite (lor_disjoint (byte_of a) (byte_of b * 2 ^ 8) 16) by lia.
  replace (byte_of a * 2 ^ 16 + byte_of b * 2 ^ 8)
    with ((byte_of a * 256 + byte_of b) * 2 ^ 8) by lia.
  rewrite lor_disjoint by lia. lia.
Qed.

Lemma block_value2 (a b : ascii) :
  Z.lor (Z.shiftl (byte_of a) 16) (Z.shiftl (byte_of b) 8)
  = byte_of a * 65536 + byte_of b * 256.
Proof.
  pose proof (byte_of_range a). pose proof (byte_of_range b).
  rewrite !Z.shiftl_mul_pow2 by lia.
  rewrite (lor_disjoint (byte_of a) (byte_of b * 2 ^ 8) 16) by lia. lia.
Qed.

(** The character of a value is that of its low six bits; different
    sextets have different characters, none of them the padding. *)
Lemma enc_sextet (v : Z) :
  base64.enc v = base64.enc (v mod 64) /\ 0 <= v mod 64 < 64.
Proof.
  split; [|apply Z.mod_pos_bound; lia].
  unfold base64.enc. change 63 with (Z.ones 6).
  rewrite !Z.land_ones by lia. now rewrite Z.mod_mod by lia.
Qed.

Lemma sextet_listed (i : Z) : 0 <= i < 64 -> In i (map Z.of_nat (seq 0 64)).
Proof.
  intros H. apply in_map_iff. exists (Z.to_nat i). split; [lia|].
  apply in_seq. lia.
Qed.

Lemma enc_inj (i j : Z) :
  0 <= i < 64 -> 0 <= j < 64 -> base64.enc i = base64.enc j -> i = j.
Proof.
  intros Hi Hj H.
  assert (Hall : forallb
                   (fun i => forallb
                               (fun j => implb (Ascii.eqb (base64.enc i) (base64.enc j))
                                               (i =? j))
                               (map Z.of_nat (seq 0 64)))
                   (map Z.of_nat (seq 0 64)) = true) by (vm_compute; reflexivity).
  rewrite forallb_forall in Hall. specialize (Hall i (sextet_listed i Hi)).
  rewrite forallb_forall in Hall. specialize (Hall j (sextet_listed j Hj)).
  rewrite H, Ascii.eqb_refl in Hall. now apply Z.eqb_eq.
Qed.

Lemma enc_not_pad (v : Z) : base64.enc v <> "="%char.
Proof.
  destruct (enc_sextet v) as [-> Hr].
  assert (Hall : forallb (fun i => negb (Ascii.eqb (base64.enc i) "="%char))
                         (map Z.of_nat (seq 0 64)) = true) by (vm_compute; reflexivity).
  rewrite forallb_forall in Hall. specialize (Hall _ (sextet_listed _ Hr)).
  apply negb_true_iff in Hall. now apply Ascii.eqb_neq.
Qed.

Lemma enc_eq_sextet (v w : Z) :
  base64.enc v = base64.enc w -> v mod 64 = w mod 64.
Proof.
  intros H. destruct (enc_sextet v) as [Ev Hv], (enc_sextet w) as [Ew Hw].
  apply enc_inj; [exact Hv|exact Hw|]. now rewrite <- Ev, <- Ew.
Qed.

Lemma list3_ind {A : Type} (P : list A -> Prop) :
  P [] -> (forall a, P [a]) -> (forall a b, P [a; b]) ->
  (forall a b c rest, P rest -> P (a :: b :: c :: rest)) ->
  forall l, P l.
Proof.
  intros H0 H1 H2 H3. fix IH 1.
  intros [|a [|b [|c rest]]]; [exact H0|apply H1|apply H2|apply H3, IH].
Qed.

Lemma Encode_inj (l1 : list ascii) :
  forall l2 : list ascii, base64.Encode l1 = base64.Encode l2 -> l1 = l2.
Proof.
  induction l1 as [|a|a b|a b c rest IH] using list3_ind;
    intros [|a' [|b' [|c' rest']]] H; cbn [base64.Encode] in H; cbv zeta in H;
    try discriminate H; try reflexivity;
    rewrite ?block_value, ?block_value2, ?Z.shiftl_mul_pow2, ?Z.shiftr_div_pow2
      in H by lia;
    injection H; clear H; intros;
    try (exfalso;
         match goal with
         | H : "="%char = base64.enc _ |- _ => exact (enc_not_pad _ (eq_sym H))
         | H : base64.enc _ = "="%char |- _ => exact (enc_not_pad _ H)
         end);
    repeat match goal with
      | H : base64.enc _ = base64.enc _ |- _ => apply enc_eq_sextet in H
      | H : base64.Encode rest = base64.Encode _ |- _ => apply IH in H; subst
      end;
    repeat match goal with
      | x : ascii |- _ =>
          lazymatch goal with
          | _ : 0 <= byte_of x < 256 |- _ => fail
          | _ => pose proof (byte_of_range x)
          end
      end;
    change (2 ^ 16) with 65536 in *; change (2 ^ 18) with 262144 in *;
    change (2 ^ 12) with 4096 in *; change (2 ^ 6) with 64 in *.
  - f_equal. apply byte_of_inj. Z.div_mod_to_equations. lia.
  - assert (byte_of a = byte_of a' /\ byte_of b = byte_of b')
      as [Ea Eb] by (Z.div_mod_to_equations; lia).
    apply byte_of_inj in Ea, Eb. now subst.
  - assert (byte_of a = byte_of a' /\ byte_of b = byte_of b'
            /\ byte_of c = byte_of c')
      as (Ea & Eb & Ec) by (Z.div_mod_to_equations; lia).
    apply byte_of_inj in Ea, Eb, Ec. now subst.
Qed.

End Base64.

Section Credentials.

Import auth.

Lemma list_ascii_of_string_inj (s t : string) :
  list_ascii_of_string s = list_ascii_of_string t -> s = t.
Proof.
  intros H. rewrite <- (string_of_list_ascii_of_string s),
    <- (string_of_list_ascii_of_string t). now rewrite H.
Qed.

(** A string is cut at its first colon in one way only. *)
Lemma cut_at_first (c : ascii) (u1 : string) :
  forall u2 p1 p2 : string,
    count_byte c u1 = 0%nat -> count_byte c u2 = 0%nat ->
    u1 +:+ String c p1 = u2 +:+ String c p2 -> u1 = u2 /\ p1 = p2.
Proof.
  induction u1 as [|x u1 IH]; intros [|y u2] p1 p2 H1 H2 H.
  - now injection H as <-.
  - exfalso. change (String y u2 +:+ String c p2) with (String y (u2 +:+ String c p2)) in H.
    injection H as <- _. cbn [count_byte] in H2. now rewrite Ascii.eqb_refl in H2.
  - exfalso. change (String x u1 +:+ String c p1) with (String x (u1 +:+ String c p1)) in H.
    injection H as -> _. cbn [count_byte] in H1. now rewrite Ascii.eqb_refl in H1.
  - change (String x u1 +:+ String c p1) with (String x (u1 +:+ String c p1)) in H.
    change (String y u2 +:+ String c p2) with (String y (u2 +:+ String c p2)) in H.
    injection H as <- H. cbn [count_byte] in H1, H2.
    destruct (IH u2 p1 p2) as [<- <-]; [| |exact H|split; reflexivity].
    + destruct (Ascii.eqb c x); [discriminate|exact H1].
    + destruct (Ascii.eqb c x); [discriminate|exact H2].
Qed.

(** X24. [EncodeCredentials] loses nothing: two [BasicAuth] values with
    the same encoding hold the same [username:password] string, and,
    when neither username has a colon in it, the same username and the
    same password. *)
Theorem EncodeCredentials_injective (b1 b2 : BasicAuth) :
  EncodeCredentials b1 = EncodeCredentials b2 ->
  username b1 +:+ ":" +:+ password b1 = username b2 +:+ ":" +:+ password b2
  /\ (count_byte ":" (username b1) = 0%nat ->
      count_byte ":" (username b2) = 0%nat -> b1 = b2).
Proof.
  unfold EncodeCredentials, base64.EncodeToString. intros H.
  apply Encode_inj, list_ascii_of_string_inj in H. split; [exact H|].
  intros H1 H2. destruct b1 as [u1 p1], b2 as [u2 p2]. cbn [username password] in *.
  destruct (cut_at_first ":" u1 u2 p1 p2 H1 H2 H) as [-> ->]. reflexivity.
Qed.

Lemma EncodeCredentials_injective_witness :
  username (NewBasicAuth "Aladdin" "open sesame") +:+ ":"
    +:+ password (NewBasicAuth "Aladdin" "open sesame")
  = username (NewBasicAuth "Aladdin" "open sesame") +:+ ":"
    +:+ password (NewBasicAuth "Aladdin" "open sesame")
  /\ (count_byte ":" (username (NewBasicAuth "Aladdin" "open sesame")) = 0%nat ->
      count_byte ":" (username (NewBasicAuth "Aladdin" "open sesame")) = 0%nat ->
      NewBasicAuth "Aladdin" "open sesame" = NewBasicAuth "Aladdin" "open sesame").
Proof.
  apply (EncodeCredentials_injective (NewBasicAuth "Aladdin" "open sesame")
           (NewBasicAuth "Aladdin" "open sesame")).
  reflexivity.
Defined.

End Credentials.

(** * The token request can be read back *)

Section BodyReadBack.

Import auth.

Lemma ascii_listed (c : ascii) : In c (map ascii_of_nat (seq 0 256)).
Proof.
  apply in_map_iff. exists (nat_of_ascii c). split; [apply ascii_nat_embedding|].
  apply in_seq. pose proof (nat_ascii_bounded c). lia.
Qed.

(** Two bytes with the same two hexadecimal digits are the same byte. *)
Lemma hexdigits_inj (c d : ascii) :
  url.hexdigit (Z.shiftr (byte_of c) 4) = url.hexdigit (Z.shiftr (byte_of d) 4) ->
  url.hexdigit (Z.land (byte_of c) 15) = url.hexdigit (Z.land (byte_of d) 15) ->
  c = d.
Proof.
  intros H1 H2.
  assert (Hall :
    forallb
      (fun c =>
         forallb
           (fun d =>
              implb (Ascii.eqb (url.hexdigit (Z.shiftr (byte_of c) 4))
                               (url.hexdigit (Z.shiftr (byte_of d) 4))
                     && Ascii.eqb (url.hexdigit (Z.land (byte_of c) 15))
                                  (url.hexdigit (Z.land (byte_of d) 15)))
                    (Ascii.eqb c d))
           (map ascii_of_nat (seq 0 256)))
      (map ascii_of_nat (seq 0 256)) = true) by (vm_compute; reflexivity).
  rewrite forallb_forall in Hall. specialize (Hall c (ascii_listed c)).
  rewrite forallb_forall in Hall. specialize (Hall d (ascii_listed d)).
  rewrite H1, H2, !Ascii.eqb_refl in Hall. now apply Ascii.eqb_eq.
Qed.

(** [QueryEscape] can be undone: different strings have different
    escaped forms. *)
Lemma QueryEscape_inj (s : string) :
  forall t : string, url.QueryEscape s = url.QueryEscape t -> s = t.
Proof.
  induction s as [|c s IH]; intros [|d t] H; cbn [url.QueryEscape] in H.
  - reflexivity.
  - destruct (url.unreserved d); [discriminate|].
    destruct (Ascii.eqb d " "%char); discriminate.
  - destruct (url.unreserved c); [discriminate|].
    destruct (Ascii.eqb c " "%char); discriminate.
  - destruct (url.unreserved c) eqn:Uc, (url.unreserved d) eqn:Ud.
    + injection H as <- H. f_equal. now apply IH.
    + destruct (Ascii.eqb d " "%char); injection H as -> _; discriminate.
    + destruct (Ascii.eqb c " "%char); injection H as <- _; discriminate.
    + destruct (Ascii.eqb_spec c " "%char) as [->|Hc],
        (Ascii.eqb_spec d " "%char) as [->|Hd].
      * injection H as H. f_equal. now apply IH.
      * discriminate.
      * discriminate.
      * injection H as H1 H2 H. rewrite (hexdigits_inj c d H1 H2).
        f_equal. now apply IH.
Qed.

(** X25. The body of the token request determines the client id, the
    client secret and the scope parameter: two authenticators with the
    same body have the same client id and secret, both have scopes or
    both have none, and the space-joined scopes agree. *)
Theorem token_request_body_determines_the_credentials
        (o1 o2 : OAuth2ClientCredentials) :
  token_request_body o1 = token_request_body o2 ->
  clientID o1 = clientID o2
  /\ clientSecret o1 = clientSecret o2
  /\ (scopes o1 = [] <-> scopes o2 = [])
  /\ strings.Join (scopes o1) " " = strings.Join (scopes o2) " ".
Proof.
  rewrite !token_request_body_form_eq. intros H.
  injection H as H.
  apply cut_at_first in H;
    [|apply QueryEscape_bytes; reflexivity || discriminate ..].
  destruct H as [Hid H]. apply QueryEscape_inj in Hid.
  injection H as H.
  apply cut_at_first in H;
    [|apply QueryEscape_bytes; reflexivity || discriminate ..].
  destruct H as [Hsec H]. apply QueryEscape_inj in Hsec.
  injection H as H.
  split; [exact Hid|]. split; [exact Hsec|].
  destruct (scopes o1) as [|s1 l1], (scopes o2) as [|s2 l2].
  - split; reflexivity.
  - discriminate.
  - discriminate.
  - injection H as H. apply QueryEscape_inj in H. split; [|exact H].
    split; discriminate.
Qed.

Lemma token_request_body_witness :
  clientID fresh = clientID fresh
  /\ clientSecret fresh = clientSecret fresh
  /\ (scopes fresh = [] <-> scopes fresh = [])
  /\ strings.Join (scopes fresh) " " = strings.Join (scopes fresh) " ".
Proof.
  apply (token_request_body_determines_the_credentials fresh fresh). reflexivity.
Defined.

End BodyReadBack.

(** * Header names are not case-sensitive *)

Section HeaderNames.

Import auth.

Lemma canonical_byte (c d : ascii) (upper : bool) :
  lower_byte c = lower_byte d ->
  textproto.validHeaderFieldByte c = true ->
  textproto.validHeaderFieldByte d = true
  /\ (if upper && textproto.is_lower c
      then textproto.shift_case c (- textproto.toLower)
      else if negb upper && textproto.is_upper c
           then textproto.shift_case c textproto.toLower else c)
     = (if upper && textproto.is_lower d
        then textproto.shift_case d (- textproto.toLower)
        else if negb upper && textproto.is_upper d
             then textproto.shift_case d textproto.toLower else d).
Proof.
  intros Hl Hv.
  assert (Hall :
    forallb
      (fun c =>
         forallb
           (fun d =>
              implb (Ascii.eqb (lower_byte c) (lower_byte d)
                     && textproto.validHeaderFieldByte c)
                    (textproto.validHeaderFieldByte d
                     && forallb
                          (fun upper =>
                             Ascii.eqb
                               (if upper && textproto.is_lower c
                                then textproto.shift_case c (- textproto.toLower)
                                else if negb upper && textproto.is_upper c
                                     then textproto.shift_case c textproto.toLower
                                     else c)
                               (if upper && textproto.is_lower d
                                then textproto.shift_case d (- textproto.toLower)
                                else if negb upper && textproto.is_upper d
                                     then textproto.shift_case d textproto.toLower
                                     else d))
                          [true; false]))
           (map ascii_of_nat (seq 0 256)))
      (map ascii_of_nat (seq 0 256)) = true) by (vm_compute; reflexivity).
  rewrite forallb_forall in Hall. specialize (Hall c (ascii_listed c)).
  rewrite forallb_forall in Hall. specialize (Hall d (ascii_listed d)).
  rewrite Hl, Ascii.eqb_refl, Hv in Hall. cbn [andb implb] in Hall.
  apply andb_prop in Hall as [Hd Hu]. split; [exact Hd|].
  rewrite forallb_forall in Hu. apply Ascii.eqb_eq, Hu.
  destruct upper; cbn; auto.
Qed.

Lemma canonicalize_same_name (a : string) :
  forall (b : string) (upper : bool),
    map lower_byte (list_ascii_of_string a) = map lower_byte (list_ascii_of_string b) ->
    forallb textproto.validHeaderFieldByte (list_ascii_of_string a) = true ->
    forallb textproto.validHeaderFieldByte (list_ascii_of_string b) = true
    /\ textproto.canonicalize upper a = textproto.canonicalize upper b.
Proof.
  induction a as [|c a IH]; intros [|d b] upper Hl Hv; try discriminate.
  - split; reflexivity.
  - cbn [list_ascii_of_string map] in Hl. injection Hl as Hc Hl.
    cbn [list_ascii_of_string forallb] in Hv. apply andb_prop in Hv as [Hvc Hva].
    destruct (canonical_byte c d upper Hc Hvc) as [Hvd Hcd].
    cbn [list_ascii_of_string forallb textproto.canonicalize]. rewrite Hvd, Hcd.
    destruct (IH b (Ascii.eqb
                      (if upper && textproto.is_lower d
                       then textproto.shift_case d (- textproto.toLower)
                       else if negb upper && textproto.is_upper d
                            then textproto.shift_case d textproto.toLower else d)
                      "-"%char) Hl Hva) as [Hvb ->].
    split; [exact Hvb|reflexivity].
Qed.

(** X26. The header a [CustomAuth] sets can be read under any
    capitalisation of its name: when the name consists of token bytes,
    [Header.Get] with a name that differs from it at most in the case of
    letters returns the value. *)
Theorem CustomAuth_header_any_case
        (c : CustomAuth) (req : http.Request) (name : string) :
  header c <> "" -> value c <> "" ->
  forallb textproto.validHeaderFieldByte (list_ascii_of_string (header c)) = true ->
  same_name name (header c) = true ->
  http.Header_Get (http.Header (snd (CustomAuth_Apply c req))) name = value c.
Proof.
  intros Hh Hv Hvalid Hname.
  assert (Hl : map lower_byte (list_ascii_of_string (header c))
               = map lower_byte (list_ascii_of_string name)).
  { unfold same_name in Hname. apply String.eqb_eq in Hname.
    apply (f_equal list_ascii_of_string) in Hname.
    now rewrite !list_ascii_of_string_of_list_ascii in Hname. }
  destruct (canonicalize_same_name (header c) name true Hl Hvalid) as [Hvn Hcan].
  unfold CustomAuth_Apply, nonempty.
  apply String.eqb_neq in Hh, Hv. rewrite Hh, Hv. cbn [negb andb snd].
  unfold http.Header_Get, http.Header_Set. cbn [http.Header http.with_Header].
  unfold textproto.CanonicalMIMEHeaderKey. rewrite Hvalid, Hvn, Hcan.
  now rewrite lookup_insert_eq.
Qed.

Lemma CustomAuth_header_any_case_witness :
  http.Header_Get
    (http.Header (snd (CustomAuth_Apply (NewCustomAuth "X-API-Key" "k") a_request)))
    "x-api-key"
  = value (NewCustomAuth "X-API-Key" "k").
Proof.
  apply (CustomAuth_header_any_case (NewCustomAuth "X-API-Key" "k")).
  - discriminate.
  - discriminate.
  - reflexivity.
  - reflexivity.
Defined.

End HeaderNames.

(** * package response: the formatters *)

Section Formatters.

Variable JSON : Type.
Variable json_Unmarshal : string -> JSON + string.
Variable json_MarshalIndent : JSON -> string -> string -> string + string.
Variable Token : Type.
Variable Encoder : Type.
Variable xml_Unmarshal : string -> error.
Variable xml_Tokens : string -> list Token * response.StreamEnd.
Variable xml_NewEncoder : Encoder.
Variable Encoder_Indent : Encoder -> string -> string -> Encoder.
Variable Encoder_EncodeToken : Encoder -> Token -> Encoder + string.
Variable Encoder_Flush : Encoder -> Encoder + string.
Variable Encoder_Bytes : Encoder -> string.


End Formatters.

(** * package main: the repeated options *)

Section RepeatedOptions.

Lemma Join_snoc (h : list string) (value sep : string) :
  strings.Join (h ++ [value]) sep
  = match h with
    | [] => value
    | _ :: _ => strings.Join h sep +:+ sep +:+ value
    end.
Proof.
  induction h as [|a h IH]; [reflexivity|].
  destruct h as [|b h]; [reflexivity|].
  change ((a :: b :: h) ++ [value])%list with (a :: ((b :: h) ++ [value]))%list.
  change (strings.Join (a :: (b :: h) ++ [value]) sep)
    with (a +:+ sep +:+ strings.Join ((b :: h) ++ [value]) sep).
  rewrite IH.
  change (strings.Join (a :: b :: h) sep)
    with (a +:+ sep +:+ strings.Join (b :: h) sep).
  now rewrite !append_assoc_string.
Qed.

(** X28. A repeated option keeps its values in the order given: [Set]
    never fails and appends, so after [Set] was called with each of
    [values] a [HeaderList], [QueryList] or [FormList] that was empty
    holds [values], and [String] shows the old text, [", "] and the new
    value (the new value alone on an empty list). *)
Theorem repeated_option_collects_in_order (values h : list string) (value : string) :
  fold_left (fun h v => snd (main.HeaderList_Set h v)) values [] = values
  /\ fold_left (fun q v => snd (main.QueryList_Set q v)) values [] = values
  /\ fold_left (fun f v => snd (main.FormList_Set f v)) values [] = values
  /\ fst (main.HeaderList_Set h value) = None
  /\ fst (main.QueryList_Set h value) = None
  /\ fst (main.FormList_Set h value) = None
  /\ main.HeaderList_String (snd (main.HeaderList_Set h value))
     = match h with
       | [] => value
       | _ :: _ => main.HeaderList_String h +:+ ", " +:+ value
       end
  /\ main.QueryList_String (snd (main.QueryList_Set h value))
     = match h with
       | [] => value
       | _ :: _ => main.QueryList_String h +:+ ", " +:+ value
       end
  /\ main.FormList_String (snd (main.FormList_Set h value))
     = match h with
       | [] => value
       | _ :: _ => main.FormList_String h +:+ ", " +:+ value
       end.
Proof.
  assert (Hfold : forall acc : list string,
             fold_left (fun h v => (h ++ [v])%list) values acc = (acc ++ values)%list).
  { induction values as [|v vs IH]; intros acc; cbn [fold_left].
    - now rewrite app_nil_r.
    - rewrite IH. now rewrite <- app_assoc. }
  repeat split; try exact (Hfold []);
    unfold main.HeaderList_String, main.QueryList_String, main.FormList_String;
    cbn [snd main.HeaderList_Set main.QueryList_Set main.FormList_Set];
    apply Join_snoc.
Qed.

End RepeatedOptions.

(** * Concurrent callers: no deadlock, and a bound on the requests *)

Section Progress.

Import Interleaving.

Lemma steps_left_insert (l : list pc) (i : nat) (p q : pc) :
  l !! i = Some q ->
  (steps_left (<[i := p]> l) + remaining q = steps_left l + remaining p)%nat.
Proof.
  revert i. induction l as [|x l IH]; intros [|i] H; try discriminate.
  - injection H as ->. cbn [steps_left]. simpl. lia.
  - simpl in H. specialize (IH i H). simpl. cbn [steps_left]. lia.
Qed.

Lemma steps_left_done (l : list pc) :
  steps_left l = 0%nat -> Forall (fun p => is_done p = true) l.
Proof.
  induction l as [|p l IH]; intros H; [constructor|].
  cbn [steps_left] in H. constructor; [|apply IH; lia].
  destruct p; cbn in H; try lia. reflexivity.
Qed.

Lemma count_positive (f : pc -> bool) (l : list pc) :
  (0 < count f l)%nat -> exists i p, l !! i = Some p /\ f p = true.
Proof.
  induction l as [|x l IH]; cbn [count]; intros H; [lia|].
  destruct (f x) eqn:E.
  - exists 0%nat, x. split; [reflexivity|exact E].
  - destruct IH as (i & p & Hi & Hp); [lia|]. exists (S i), p. split; assumption.
Qed.

Lemma steps_left_positive (l : list pc) :
  (0 < steps_left l)%nat -> exists i p, l !! i = Some p /\ is_done p = false.
Proof.
  induction l as [|x l IH]; cbn [steps_left]; intros H; [lia|].
  destruct (is_done x) eqn:E.
  - destruct IH as (i & p & Hi & Hp).
    + destruct x; try discriminate. cbn in H. lia.
    + exists (S i), p. split; assumption.
  - exists 0%nat, x. split; [reflexivity|exact E].
Qed.

(** Under the discipline of the mutex, some caller that has not returned
    can take its next step, and the step brings the callers closer to
    returning. *)
Lemma some_caller_can_act (e : env) (s : state) :
  mutex_inv s -> (0 < steps_left (threads s))%nat ->
  exists i s',
    act e i s = Some s'
    /\ (steps_left (threads s') < steps_left (threads s))%nat.
Proof.
  intros [Hw Hr] Hpos.
  assert (Hact : forall i p,
             threads s !! i = Some p ->
             match p with
             | Idle => writer s = false
             | Waiting => writer s = false /\ readers s = 0%nat
             | Done _ _ => False
             | _ => True
             end ->
             exists s', act e i s = Some s'
                        /\ (steps_left (threads s') < steps_left (threads s))%nat).
  { intros i p Hi Hp. unfold act. rewrite Hi.
    destruct p as [| | | |n|tok err].
    - rewrite Hp. eexists. split; [reflexivity|]. cbn [threads]. unfold set_thread.
      pose proof (steps_left_insert (threads s) i Reading Idle Hi). cbn in *. lia.
    - eexists. split; [reflexivity|]. cbn [threads]. unfold set_thread.
      destruct (valid s).
      + pose proof (steps_left_insert (threads s) i
                      (Done (auth.token (auth_ s)) None) Reading Hi). cbn in *. lia.
      + pose proof (steps_left_insert (threads s) i Waiting Reading Hi). cbn in *. lia.
    - destruct Hp as [-> ->]. cbn [orb negb Nat.eqb].
      eexists. split; [reflexivity|]. cbn [threads]. unfold set_thread.
      pose proof (steps_left_insert (threads s) i Writing Waiting Hi). cbn in *. lia.
    - destruct (valid s); [|destruct (new_request_error e)];
        (eexists; split; [reflexivity|]); cbn [threads]; unfold set_thread;
        match goal with
        | |- context [<[i := ?q]> _] =>
            pose proof (steps_left_insert (threads s) i q Writing Hi)
        end; cbn in *; lia.
    - destruct (receive (auth_ s) (endpoint e n) (now s)) as [[tok err] o'].
      eexists. split; [reflexivity|]. cbn [threads]. unfold set_thread.
      pose proof (steps_left_insert (threads s) i (Done tok err) (Fetching n) Hi).
      cbn in *. lia.
    - contradiction. }
  destruct (writer s) eqn:Ew.
  - destruct (count_positive holds_write_lock (threads s)) as (i & p & Hi & Hp);
      [lia|].
    exists i. apply (Hact i p Hi). destruct p; try discriminate; exact I.
  - destruct (Nat.eq_dec (readers s) 0%nat) as [Hr0|Hr0].
    + destruct (steps_left_positive (threads s) Hpos) as (i & p & Hi & Hp).
      exists i. apply (Hact i p Hi). destruct p; try discriminate; auto.
    + destruct (count_positive is_reading (threads s)) as (i & p & Hi & Hp);
        [lia|].
      exists i. apply (Hact i p Hi). destruct p; try discriminate; exact I.
Qed.

Lemma callers_can_finish (e : env) (m : nat) :
  forall s : state,
    mutex_inv s -> (steps_left (threads s) <= m)%nat ->
    exists ls s',
      only_acts ls /\ (length ls <= m)%nat
      /\ run e ls s = Some s' /\ all_done s'.
Proof.
  induction m as [|m IH]; intros s Hinv Hm.
  - exists [], s. repeat split; [constructor|cbn; lia|].
    apply steps_left_done. lia.
  - destruct (Nat.eq_dec (steps_left (threads s)) 0%nat) as [H0|H0].
    + exists [], s. repeat split; [constructor|cbn; lia|].
      now apply steps_left_done.
    + destruct (some_caller_can_act e s Hinv ltac:(lia)) as (i & s1 & Ha & Hlt).
      destruct (IH s1) as (ls & s' & Hacts & Hlen & Hrun & Hdone).
      * apply (mutex_inv_step e (Act i) s s1 Hinv Ha).
      * lia.
      * exists (Act i :: ls), s'. repeat split.
        -- constructor; [exact I|exact Hacts].
        -- cbn [length]. lia.
        -- cbn [run step]. now rewrite Ha.
        -- exact Hdone.
Qed.

(** X29. The callers of [getValidToken] never deadlock: from every
    state that [n] concurrent callers can reach, whatever the
    interleaving, the answers of the endpoint and the clock so far, the
    callers can go on, without any help from the clock, until all of
    them have returned, in at most [5 * n] further steps. *)
Theorem callers_never_deadlock
        (e : env) (o : auth.OAuth2ClientCredentials) (t : time.Time) (k n : nat)
        (ls : list label) (s : state) :
  run e ls (init o t k n) = Some s ->
  exists ls' s',
    only_acts ls' /\ (length ls' <= 5 * n)%nat
    /\ run e ls' s = Some s' /\ all_done s'.
Proof.
  intros Hrun.
  apply callers_can_finish.
  - exact (mutex_inv_run e ls _ s (mutex_inv_init o t k n) Hrun).
  - assert (Hb : forall l : list pc, (steps_left l <= 5 * length l)%nat).
    { induction l as [|p l IHl]; cbn [steps_left length]; [lia|].
      destruct p; cbn [remaining]; lia. }
    rewrite <- (repeat_length Idle n).
    change (repeat Idle n) with (threads (init o t k n)).
    rewrite <- (length_threads_run e ls _ s Hrun). apply Hb.
Qed.

Lemma callers_never_deadlock_witness :
  exists ls' s',
    only_acts ls' /\ (length ls' <= 5 * 2)%nat
    /\ run (answers (Spec.token_response "abc" "Bearer" 3600)) ls'
         (or_start (run (answers (Spec.token_response "abc" "Bearer" 3600))
                      until_second_locks two_callers))
       = Some s'
    /\ all_done s'.
Proof.
  apply (callers_never_deadlock (answers (Spec.token_response "abc" "Bearer" 3600))
           fresh a_time 0 2 until_second_locks).
  reflexivity.
Defined.

(** What [act] does to the count of requests and to the callers that
    may still send one. *)
Lemma issued_step (e : env) (l : label) (s s' : state) :
  step e l s = Some s' ->
  (issued s' + count before_fetch (threads s')
   <= issued s + count before_fetch (threads s))%nat.
Proof.
  destruct l as [i|t]; cbn [step].
  - unfold act. destruct (threads s !! i) as [p|] eqn:Hi; [|discriminate].
    destruct p as [| | | |n|tok err].
    + destruct (writer s); [discriminate|]. intros [= <-]. cbn [issued threads].
      unfold set_thread.
      pose proof (count_insert before_fetch (threads s) i Reading Idle Hi).
      cbn in *. lia.
    + intros [= <-]. cbn [issued threads]. unfold set_thread.
      destruct (valid s).
      * pose proof (count_insert before_fetch (threads s) i
                      (Done (auth.token (auth_ s)) None) Reading Hi). cbn in *. lia.
      * pose proof (count_insert before_fetch (threads s) i Waiting Reading Hi).
        cbn in *. lia.
    + destruct (writer s || negb (readers s =? 0)%nat); [discriminate|].
      intros [= <-]. cbn [issued threads]. unfold set_thread.
      pose proof (count_insert before_fetch (threads s) i Writing Waiting Hi).
      cbn in *. lia.
    + destruct (valid s); [|destruct (new_request_error e)];
        intros [= <-]; cbn [issued threads]; unfold set_thread;
        match goal with
        | |- context [<[i := ?q]> _] =>
            pose proof (count_insert before_fetch (threads s) i q Writing Hi)
        end; cbn in *; lia.
    + destruct (receive (auth_ s) (endpoint e n) (now s)) as [[tok err] o'].
      intros [= <-]. cbn [issued threads]. unfold set_thread.
      pose proof (count_insert before_fetch (threads s) i (Done tok err)
                    (Fetching n) Hi). cbn in *. lia.
    + discriminate.
  - destruct (now s <=? t); [|discriminate]. intros [= <-]. cbn. lia.
Qed.

(** X30. [n] concurrent callers of [getValidToken] send at most [n]
    requests to the token endpoint, whatever the endpoint answers and
    however the clock moves: a caller sends at most one. *)
Theorem callers_send_at_most_one_request_each
        (e : env) (o : auth.OAuth2ClientCredentials) (t : time.Time) (k n : nat)
        (ls : list label) (s : state) :
  run e ls (init o t k n) = Some s ->
  (k <= issued s <= k + n)%nat.
Proof.
  intros Hrun.
  assert (Hinv : forall ls s0 s1,
             run e ls s0 = Some s1 ->
             (issued s0 <= issued s1)%nat
             /\ (issued s1 + count before_fetch (threads s1)
                 <= issued s0 + count before_fetch (threads s0))%nat).
  { clear. induction ls as [|l ls IH]; intros s0 s1 H; cbn [run] in H.
    - injection H as <-. lia.
    - destruct (step e l s0) as [s'|] eqn:Es; [|discriminate].
      pose proof (issued_step e l s0 s' Es) as Hs.
      assert (Hmono : (issued s0 <= issued s')%nat).
      { destruct l as [i|t]; cbn [step] in Es.
        - unfold act in Es. destruct (threads s0 !! i) as [[| | | |n|tok err]|];
            try discriminate;
            repeat match type of Es with
              | (if ?b then _ else _) = _ => destruct b
              | match ?x with _ => _ end = _ => destruct x
              end; try discriminate; injection Es as <-; cbn; lia.
        - destruct (now s0 <=? t); [|discriminate]. injection Es as <-. cbn. lia. }
      destruct (IH s' s1 H) as [H1 H2]. lia. }
  destruct (Hinv ls _ s Hrun) as [H1 H2]. cbn [issued threads init] in H1, H2.
  pose proof (count_le_length before_fetch (repeat Idle n)) as Hc.
  rewrite repeat_length in Hc. lia.
Qed.

Lemma callers_send_witness :
  (0 <= issued fetched_twice <= 0 + 2)%nat.
Proof.
  apply (callers_send_at_most_one_request_each
           (answers (Spec.token_response "abc" "Bearer" 30)) fresh a_time 0 2
           refetch_schedule).
  reflexivity.
Defined.

End Progress.
